(** * Token routes of the bridge: hub and spoke event stores

    A shallow embedding of [src/tokenRoutes.ts]: the two event stores
    ([SpokePoolUtils], [HubPoolUtils]), their derived views and the join of
    [fetchRoutes], together with the part of the JavaScript runtime they
    run on (objects with ordered own properties, [Set], [Array.prototype.sort],
    promises, exceptions).

    Conventions of the embedding.
    - Addresses, hashes and symbols are JavaScript strings.
    - Chain ids are natural numbers (ABI [uint256] values, decoded to
      [BigNumber]); a property key made from one by [toString] is kept as the
      number whose canonical decimal numeral it is ([numeral]).
    - Block numbers and log positions are JavaScript integers, here [Z].
    - A method of a store class is a computation in [Async], which threads
      the store ([this]), answers external calls from a [Chain] and records
      them in a trace; an exception leaves the store as it was when raised.
    - Property lookup is own-property lookup: the keys the program builds are
      decimal numerals and [0x]-prefixed addresses, never a member of
      [Object.prototype].
    - What lives outside [src/tokenRoutes.ts] is a parameter: the provider,
      the contract bindings and the ranged fetcher [incrementalEvents] of
      [./utils] answer through a [Chain]; the chain configuration and the
      deployment registry through an [Env]. *)

From Stdlib Require Import List ZArith NArith String Ascii Bool Lia.
From Stdlib Require Import Permutation Sorted DecimalString.
Import ListNotations.

Set Implicit Arguments.
Local Open Scope string_scope.
Local Open Scope list_scope.

(* ================================================================== *)
(** * Exceptions and results *)

Inductive exn : Type :=
| Error (message : string)            (* throw new Error(message) *)
| AssertionError (message : string)   (* assert(value, message) *)
| Rejected (reason : string)          (* a rejection coming from a collaborator *)
| NumericFault (fault operation value : string).
    (* the Error the Logger of ethers throws with code NUMERIC_FAULT:
       [error.reason] and [error.fault] are [fault], [error.operation] and
       [error.value] the other two; its message is the long text the
       Logger composes from them and from the version of the library *)

Inductive result (A : Type) : Type :=
| Ok (a : A)
| Throw (e : exn).

Arguments Ok {A} a.
Arguments Throw {A} e.

Definition result_bind {A B} (r : result A) (k : A -> result B) : result B :=
  match r with
  | Ok a => k a
  | Throw e => Throw e
  end.

(** A settled promise is the outcome it settles with. *)
Definition Promise (A : Type) : Type := result A.

(* ================================================================== *)
(** * Property keys *)

(** Own property keys are strings.  [Object.keys] lists the keys that are
    array indices (canonical numerals below [2^32 - 1]) first, in ascending
    numeric order, and then every other key in creation order. *)
Class PropertyKey (K : Type) : Type := {
  key_eqb : K -> K -> bool;
  key_eqb_spec : forall a b : K, reflect (a = b) (key_eqb a b);
  array_index : K -> option N
}.

Definition digit_of (c : ascii) : option N :=
  let n := N_of_ascii c in
  if ((48 <=? n) && (n <=? 57))%N then Some (n - 48)%N else None.

Fixpoint digits_value (acc : N) (s : string) : option N :=
  match s with
  | EmptyString => Some acc
  | String c s' =>
      match digit_of c with
      | Some d => digits_value (10 * acc + d)%N s'
      | None => None
      end
  end.

Definition max_array_index : N := (2 ^ 32 - 1)%N.

Definition string_array_index (s : string) : option N :=
  match s with
  | EmptyString => None
  | String c rest =>
      if (Ascii.eqb c "0" && negb (String.eqb rest EmptyString))%bool then None
      else match digits_value 0 s with
           | Some n => if (n <? max_array_index)%N then Some n else None
           | None => None
           end
  end.

#[export] Instance PropertyKey_string : PropertyKey string := {
  key_eqb := String.eqb;
  key_eqb_spec := String.eqb_spec;
  array_index := string_array_index
}.

(** The canonical decimal numeral of a natural number, used as a key. *)
Definition numeral : Type := N.

#[export] Instance PropertyKey_numeral : PropertyKey numeral := {
  key_eqb := N.eqb;
  key_eqb_spec := N.eqb_spec;
  array_index := fun n => if (n <? max_array_index)%N then Some n else None
}.

(** [BigNumber.prototype.toString()]: the decimal numeral. *)
Definition BigNumber_toString (n : N) : numeral := n.

Definition MAX_SAFE_INTEGER : N := (2 ^ 53 - 1)%N.

(** The characters of a numeral. *)
Definition numeral_string (k : numeral) : string :=
  NilZero.string_of_uint (N.to_uint k).

(** [BigNumber.prototype.toNumber()] refuses what a double cannot hold: it
    throws the numeric fault [overflow] of the operation [toNumber], with
    the decimal numeral of the number as its value. *)
Definition BigNumber_toNumber (n : N) : result N :=
  if (n <=? MAX_SAFE_INTEGER)%N then Ok n
  else Throw (NumericFault "overflow" "toNumber"
                (numeral_string (BigNumber_toString n))).

(** A number used as a property key is converted by [String]; for a safe
    integer that is its decimal numeral. *)
Definition number_key (n : N) : numeral := n.

(** [Number(key)] on a decimal numeral: the nearest double, ties to even.
    Exact up to [2^53]; the numerals met here are below [2^256], far from
    the overflow to [Infinity]. *)
Definition Number_ (k : numeral) : N :=
  let bits := N.size k in
  if (bits <=? 53)%N then k
  else
    let sh := (bits - 53)%N in
    let q := N.shiftr k sh in
    let r := N.land k (N.ones sh) in
    let half := N.shiftl 1 (sh - 1) in
    let q' := if ((half <? r) || ((r =? half) && N.odd q))%N%bool
              then (q + 1)%N else q in
    N.shiftl q' sh.

(* ================================================================== *)
(** * Objects used as records: ordered own properties *)

Module JsObject.
Section Defs.
Context {K V : Type} `{PropertyKey K}.

(** Own properties in creation order. *)
Definition t : Type := list (K * V).

Definition empty : t := [].

Fixpoint get (o : t) (k : K) : option V :=
  match o with
  | [] => None
  | (k', v) :: o' => if key_eqb k' k then Some v else get o' k
  end.

(** [o[k] = v]: an existing property keeps its place, a new one is
    created last. *)
Fixpoint set (o : t) (k : K) (v : V) : t :=
  match o with
  | [] => [(k, v)]
  | (k', v') :: o' =>
      if key_eqb k' k then (k', v) :: o' else (k', v') :: set o' k v
  end.

(** [delete o[k]]. *)
Fixpoint delete (o : t) (k : K) : t :=
  match o with
  | [] => []
  | (k', v') :: o' =>
      if key_eqb k' k then delete o' k else (k', v') :: delete o' k
  end.

Fixpoint place (i : N) (e : K * V) (l : list (N * (K * V)))
  : list (N * (K * V)) :=
  match l with
  | [] => [(i, e)]
  | (j, e') :: l' =>
      if (i <? j)%N then (i, e) :: l else (j, e') :: place i e l'
  end.

Definition integer_keyed (o : t) : list (N * (K * V)) :=
  fold_left
    (fun acc e =>
       match array_index (fst e) with
       | Some i => place i e acc
       | None => acc
       end) o [].

Definition string_keyed (o : t) : list (K * V) :=
  filter (fun e => match array_index (fst e) with
                   | Some _ => false
                   | None => true
                   end) o.

(** [Object.entries(o)], in the order of [OrdinaryOwnPropertyKeys]. *)
Definition entries (o : t) : list (K * V) :=
  map snd (integer_keyed o) ++ string_keyed o.

Definition keys (o : t) : list K := map fst (entries o).

Definition values (o : t) : list V := map snd (entries o).

(** [Object.fromEntries(l)]. *)
Definition fromEntries (l : list (K * V)) : t :=
  fold_left (fun o e => set o (fst e) (snd e)) l empty.
End Defs.
Arguments t K V : clear implicits.
End JsObject.

(* ================================================================== *)
(** * [Set<string>]: members in insertion order *)

Module JsSet.
Definition t : Type := list string.

Definition empty : t := [].

Definition has (s : t) (x : string) : bool := existsb (String.eqb x) s.

Definition add (s : t) (x : string) : t :=
  if has s x then s else s ++ [x].

Definition delete (s : t) (x : string) : t :=
  filter (fun y => negb (String.eqb x y)) s.

Definition values (s : t) : list string := s.
End JsSet.

(* ================================================================== *)
(** * Arrays: [flat] and [Array.prototype.sort] *)

Module JsArray.
Section Sort.
Context {A : Type}.
Variable comparefn : A -> A -> result Z.

(** Places [x] in a sorted prefix: before the first element it compares
    below.  The call is [comparefn(x, y)], [x] being the element placed; an
    exception of the comparator aborts the sort. *)
Fixpoint insert (x : A) (sorted : list A) : result (list A) :=
  match sorted with
  | [] => Ok [x]
  | y :: rest =>
      match comparefn x y with
      | Throw e => Throw e
      | Ok order =>
          if (order <? 0)%Z then Ok (x :: sorted)
          else result_bind (insert x rest) (fun r => Ok (y :: r))
      end
  end.

(** [l.sort(comparefn)].  ECMAScript leaves the sequence of comparator calls
    to the engine; the model is a stable insertion sort: each element in
    turn is placed in the prefix sorted so far.  What a tie does to it, it
    does to every comparison sort ([any_sorter_raises_on_tie]). *)
Definition sort (l : list A) : result (list A) :=
  fold_left (fun acc x => result_bind acc (insert x)) l (Ok []).
End Sort.

(** [ls.flat()] on an array of arrays. *)
Definition flat {A : Type} (ls : list (list A)) : list A := List.concat ls.
End JsArray.

(* ================================================================== *)
(** * Decoded events *)

(** The six event kinds, with the arguments the program reads. *)
Inductive EventArgs : Type :=
| L1TokenEnabledForLiquidityProvision (l1Token lpToken : string)
| L2TokenDisabledForLiquidityProvision (l1Token : string)
| SetEnableDepositRoute (originChainId destinationChainId : N)
    (originToken : string) (depositsEnabled : bool)
| CrossChainContractsSet (l2ChainId : N) (spokePool : string)
| SetPoolRebalanceRoute (destinationChainId : N)
    (l1Token destinationToken : string)
| EnabledDepositRoute (originToken : string) (destinationChainId : N)
    (enabled : bool).

Record Event : Type := {
  args : EventArgs;
  blockNumber : Z;
  transactionIndex : Z;
  logIndex : Z;
  transactionHash : string
}.

Definition isSetEnableDepositRoute (event : Event) : bool :=
  match args event with SetEnableDepositRoute _ _ _ _ => true | _ => false end.

Definition isCrossChainContractsSet (event : Event) : bool :=
  match args event with CrossChainContractsSet _ _ => true | _ => false end.

Definition isL1TokenEnabledForLiquidityProvision (event : Event) : bool :=
  match args event with
  | L1TokenEnabledForLiquidityProvision _ _ => true
  | _ => false
  end.

Definition isL2TokenDisabledForLiquidityProvision (event : Event) : bool :=
  match args event with
  | L2TokenDisabledForLiquidityProvision _ => true
  | _ => false
  end.

Definition isSetPoolRebalanceRoute (event : Event) : bool :=
  match args event with SetPoolRebalanceRoute _ _ _ => true | _ => false end.

Definition isEnabledDepositRoute (event : Event) : bool :=
  match args event with EnabledDepositRoute _ _ _ => true | _ => false end.

(** The ordering key of an event. *)
Definition ordering_key (e : Event) : Z * Z * Z :=
  (blockNumber e, transactionIndex e, logIndex e).

(* ================================================================== *)
(** * The chain and the asynchronous methods *)

(** [this.contract.filters.X()]. *)
Inductive Filter : Type :=
| filters_L1TokenEnabledForLiquidityProvision
| filters_L2TokenDisabledForLiquidityProvision
| filters_SetEnableDepositRoute
| filters_CrossChainContractsSet
| filters_SetPoolRebalanceRoute
| filters_EnabledDepositRoute.

(** What a store asks of its collaborators. *)
Inductive Call : Type :=
| call_getBlockNumber
| call_getNetwork
| call_incrementalEvents (filter : Filter) (startBlock endBlock : Z)
    (maxRange : option Z)
| call_wrappedNativeToken
| call_weth
| call_symbol (tokenAddress : string).

(** The provider and the contract bound to one store, at the time of one
    method call: how each external call settles.  [incrementalEvents] is the
    ranged fetcher of [./utils], applied to the query
    [(s, e) => contract.queryFilter(filter, s, e)]. *)
Record Chain : Type := {
  provider_getBlockNumber : Promise Z;
  provider_getNetwork : Promise N;
  utils_incrementalEvents :
    Filter -> Z -> Z -> option Z -> Promise (list Event);
  contract_wrappedNativeToken : Promise string;
  contract_weth : Promise string;
  erc20_symbol : string -> Promise string
}.

(** A method running on a store of type [S]: reads the chain, updates
    [this], and appends the calls it issues to the trace. *)
Definition Async (S A : Type) : Type :=
  Chain -> S -> list Call -> result A * S * list Call.

Section AsyncOps.
Context {S : Type}.

Definition ret {A} (a : A) : Async S A := fun _ s t => (Ok a, s, t).

Definition bind {A B} (m : Async S A) (k : A -> Async S B) : Async S B :=
  fun w s t =>
    match m w s t with
    | (Ok a, s', t') => k a w s' t'
    | (Throw e, s', t') => (Throw e, s', t')
    end.

Definition throw {A} (e : exn) : Async S A := fun _ s t => (Throw e, s, t).

(** [try { body } catch { handler }]. *)
Definition try_catch {A} (body handler : Async S A) : Async S A :=
  fun w s t =>
    match body w s t with
    | (Ok a, s', t') => (Ok a, s', t')
    | (Throw _, s', t') => handler w s' t'
    end.

Definition get_this : Async S S := fun _ s t => (Ok s, s, t).

(** An assignment to a field of [this]. *)
Definition assign (f : S -> S) : Async S unit := fun _ s t => (Ok tt, f s, t).

(** Starting an external call: the request goes out at once and a promise
    comes back; the outcome is observed only where it is awaited. *)
Definition start {A} (c : Call) (answer : Chain -> Promise A)
  : Async S (Promise A) :=
  fun w s t => (Ok (answer w), s, t ++ [c]).

Definition await {A} (p : Promise A) : Async S A := fun _ s t => (p, s, t).

(** A synchronous computation that may throw. *)
Definition lift {A} (r : result A) : Async S A := fun _ s t => (r, s, t).
End AsyncOps.

Declare Scope async_scope.
Delimit Scope async_scope with async.
Notation "x <- m ;; k" := (bind m (fun x => k))
  (at level 61, m at next level, right associativity) : async_scope.
Notation "m ;; k" := (bind m (fun _ => k))
  (at level 61, right associativity) : async_scope.
Local Open Scope async_scope.

Section AsyncCalls.
Context {S : Type}.

Definition getBlockNumber : Async S (Promise Z) :=
  start call_getBlockNumber provider_getBlockNumber.

Definition getNetwork : Async S (Promise N) :=
  start call_getNetwork provider_getNetwork.

Definition incrementalEvents (filter : Filter) (startBlock endBlock : Z)
  (maxRange : option Z) : Async S (Promise (list Event)) :=
  start (call_incrementalEvents filter startBlock endBlock maxRange)
        (fun w => utils_incrementalEvents w filter startBlock endBlock maxRange).

(** [ERC20__factory.connect(tokenAddress, provider).symbol()]. *)
Definition symbol (tokenAddress : string) : Async S (Promise string) :=
  start (call_symbol tokenAddress) (fun w => erc20_symbol w tokenAddress).

(** [bluebird.mapSeries(queries, (x) => x)]: the promises, all started
    already, are awaited one after the other. *)
Fixpoint mapSeries {A} (queries : list (Promise A)) : Async S (list A) :=
  match queries with
  | [] => ret []
  | q :: rest =>
      x <- await q ;;
      xs <- mapSeries rest ;;
      ret (x :: xs)
  end.
End AsyncCalls.

(** JavaScript truthiness of a string that may be undefined. *)
Definition truthy (v : option string) : bool :=
  match v with
  | Some s => negb (String.eqb s "")
  | None => false
  end.

(* ================================================================== *)
(** * The spoke store *)

Module SpokePoolUtils.

Record t : Type := {
  address : string;
  events : list Event;
  wrappedNativeToken : option string;
  startBlock : Z;
  maxRange : option Z
}.

(** [new SpokePoolUtils(address, provider, startBlock, maxRange)]. *)
Definition make (address : string) (startBlock : Z) (maxRange : option Z) : t :=
  {| address := address; events := []; wrappedNativeToken := None;
     startBlock := startBlock; maxRange := maxRange |}.

Definition set_events (evs : list Event) (this : t) : t :=
  {| address := address this; events := evs;
     wrappedNativeToken := wrappedNativeToken this;
     startBlock := startBlock this; maxRange := maxRange this |}.

Definition set_wrappedNativeToken (a : string) (this : t) : t :=
  {| address := address this; events := events this;
     wrappedNativeToken := Some a;
     startBlock := startBlock this; maxRange := maxRange this |}.

Definition fallback_wrappedNativeToken : string :=
  "0x4200000000000000000000000000000000000006".

Definition fetchEvents : Async t (list Event) :=
  p <- getBlockNumber ;;
  latestBlock <- await p ;;
  p <- getNetwork ;;
  chainId <- await p ;;
  this <- get_this ;;
  let maxRange := maxRange this in
  let startBlock := startBlock this in
  q <- incrementalEvents filters_EnabledDepositRoute
         startBlock latestBlock maxRange ;;
  let queries := [q] in
  fetched <- mapSeries queries ;;
  assign (set_events (JsArray.flat fetched)) ;;
  this <- get_this ;;
  ret (events this).

Definition update : Async t unit :=
  fetchEvents ;;
  try_catch
    (p <- start call_wrappedNativeToken contract_wrappedNativeToken ;;
     a <- await p ;;
     assign (set_wrappedNativeToken a))
    (assign (set_wrappedNativeToken fallback_wrappedNativeToken)).

(** One step of the [reduce] in [routesEnabled]. *)
Definition routesEnabled_step (result : JsObject.t numeral JsSet.t)
  (event : Event) : JsObject.t numeral JsSet.t :=
  if negb (isEnabledDepositRoute event) then result
  else
    match args event with
    | EnabledDepositRoute originToken destinationChainId enabled =>
        let key := BigNumber_toString destinationChainId in
        let result :=
          match JsObject.get result key with
          | None => JsObject.set result key JsSet.empty
          | Some _ => result
          end in
        match JsObject.get result key with
        | Some addressSet =>
            if enabled
            then JsObject.set result key (JsSet.add addressSet originToken)
            else JsObject.set result key (JsSet.delete addressSet originToken)
        | None => result
        end
    | _ => result
    end.

Definition routesEnabled : Async t (JsObject.t numeral (list string)) :=
  this <- get_this ;;
  let init : JsObject.t numeral JsSet.t := JsObject.empty in
  let result := fold_left routesEnabled_step (events this) init in
  ret (JsObject.fromEntries
         (map (fun entry : numeral * JsSet.t =>
                 let (chainId, addressSet) := entry in
                 (chainId, JsSet.values addressSet))
              (JsObject.entries result))).

Definition getSupportedTokens : Async t (list string) :=
  table <- routesEnabled ;;
  let tokens :=
    fold_left
      (fun tokens value =>
         fold_left (fun tokens token => JsSet.add tokens token) value tokens)
      (JsObject.values table) JsSet.empty in
  ret (JsSet.values tokens).

Definition getSupportedChains : Async t (list N) :=
  table <- routesEnabled ;;
  ret (map Number_ (JsObject.keys table)).

End SpokePoolUtils.

(* ================================================================== *)
(** * The hub store *)

Module HubPoolUtils.

Record t : Type := {
  address : string;
  events : list Event;
  wethAddress : option string;
  startBlock : Z;
  maxRange : option Z
}.

(** [new HubPoolUtils(address, provider, startBlock, maxRange)]. *)
Definition make (address : string) (startBlock : Z) (maxRange : option Z) : t :=
  {| address := address; events := []; wethAddress := None;
     startBlock := startBlock; maxRange := maxRange |}.

Definition set_events (evs : list Event) (this : t) : t :=
  {| address := address this; events := evs;
     wethAddress := wethAddress this;
     startBlock := startBlock this; maxRange := maxRange this |}.

Definition set_wethAddress (a : string) (this : t) : t :=
  {| address := address this; events := events this;
     wethAddress := Some a;
     startBlock := startBlock this; maxRange := maxRange this |}.

Definition duplicate_message (hash : string) : string :=
  ("Duplicate events found on transaction: " ++ hash)%string.

(** The comparator handed to [sort] in [fetchEvents]. *)
Definition compareEvents (a b : Event) : result Z :=
  if negb (blockNumber a =? blockNumber b)%Z
  then Ok (blockNumber a - blockNumber b)%Z
  else if negb (transactionIndex a =? transactionIndex b)%Z
  then Ok (transactionIndex a - transactionIndex b)%Z
  else if negb (logIndex a =? logIndex b)%Z
  then Ok (logIndex a - logIndex b)%Z
  else Throw (Error (duplicate_message (transactionHash a))).

Definition hub_filters : list Filter :=
  [ filters_L1TokenEnabledForLiquidityProvision;
    filters_L2TokenDisabledForLiquidityProvision;
    filters_SetEnableDepositRoute;
    filters_CrossChainContractsSet;
    filters_SetPoolRebalanceRoute ].

Definition fetchEvents : Async t (list Event) :=
  p <- getBlockNumber ;;
  head <- await p ;;
  let latestBlock := (head - 1)%Z in
  this <- get_this ;;
  let startBlock := startBlock this in
  let maxRange := maxRange this in
  q1 <- incrementalEvents filters_L1TokenEnabledForLiquidityProvision
          startBlock latestBlock maxRange ;;
  q2 <- incrementalEvents filters_L2TokenDisabledForLiquidityProvision
          startBlock latestBlock maxRange ;;
  q3 <- incrementalEvents filters_SetEnableDepositRoute
          startBlock latestBlock maxRange ;;
  q4 <- incrementalEvents filters_CrossChainContractsSet
          startBlock latestBlock maxRange ;;
  q5 <- incrementalEvents filters_SetPoolRebalanceRoute
          startBlock latestBlock maxRange ;;
  let queries := [q1; q2; q3; q4; q5] in
  fetched <- mapSeries queries ;;
  sorted <- lift (JsArray.sort compareEvents (JsArray.flat fetched)) ;;
  assign (set_events sorted) ;;
  this <- get_this ;;
  ret (events this).

Definition update : Async t unit :=
  fetchEvents ;;
  p <- start call_weth contract_weth ;;
  a <- await p ;;
  assign (set_wethAddress a).

Definition getWethAddress : Async t string :=
  this <- get_this ;;
  if truthy (wethAddress this)
  then match wethAddress this with
       | Some a => ret a
       | None => throw (AssertionError "weth address not set")
       end
  else throw (AssertionError "weth address not set").

Definition getSpokePoolAddresses_step
  (result : JsObject.t numeral string) (event : Event)
  : Promise (JsObject.t numeral string) :=
  if negb (isCrossChainContractsSet event) then Ok result
  else
    match args event with
    | CrossChainContractsSet l2ChainId spokePool =>
        result_bind (BigNumber_toNumber l2ChainId)
          (fun n => Ok (JsObject.set result (number_key n) spokePool))
    | _ => Ok result
    end.

Definition getSpokePoolAddresses : Async t (JsObject.t numeral string) :=
  this <- get_this ;;
  let init : JsObject.t numeral string := JsObject.empty in
  lift (fold_left
          (fun acc event =>
             result_bind acc (fun r => getSpokePoolAddresses_step r event))
          (events this) (Ok init)).

Definition getL1LpTokenTable_step
  (result : JsObject.t string string) (event : Event)
  : JsObject.t string string :=
  let result :=
    if isL1TokenEnabledForLiquidityProvision event
    then match args event with
         | L1TokenEnabledForLiquidityProvision l1Token lpToken =>
             JsObject.set result l1Token lpToken
         | _ => result
         end
    else result in
  if isL2TokenDisabledForLiquidityProvision event
  then match args event with
       | L2TokenDisabledForLiquidityProvision l1Token =>
           JsObject.delete result l1Token
       | _ => result
       end
  else result.

Definition getL1LpTokenTable : Async t (JsObject.t string string) :=
  this <- get_this ;;
  let init : JsObject.t string string := JsObject.empty in
  ret (fold_left getL1LpTokenTable_step (events this) init).

Definition getL1Tokens : Async t (list string) :=
  table <- getL1LpTokenTable ;;
  ret (JsObject.keys table).

Definition getLpTokens : Async t (list string) :=
  table <- getL1LpTokenTable ;;
  ret (JsObject.values table).

Definition getSpokeTokenTable_step
  (result : JsObject.t string string) (event : Event)
  : JsObject.t string string :=
  if negb (isSetPoolRebalanceRoute event) then result
  else
    match args event with
    | SetPoolRebalanceRoute destinationChainId l1Token destinationToken =>
        JsObject.set result destinationToken l1Token
    | _ => result
    end.

Definition getSpokeTokenTable : Async t (JsObject.t string string) :=
  this <- get_this ;;
  ret (fold_left getSpokeTokenTable_step (events this) JsObject.empty).

Definition RoutesTable : Type :=
  JsObject.t numeral (JsObject.t numeral (JsObject.t string bool)).

Definition getRoutes_step (result : RoutesTable) (event : Event)
  : RoutesTable :=
  if negb (isSetEnableDepositRoute event) then result
  else
    match args event with
    | SetEnableDepositRoute originChainId destinationChainId
        originToken depositsEnabled =>
        let origin := number_key originChainId in
        let destination := number_key destinationChainId in
        let result :=
          match JsObject.get result origin with
          | None => JsObject.set result origin JsObject.empty
          | Some _ => result
          end in
        match JsObject.get result origin with
        | Some byDestination =>
            let byDestination :=
              match JsObject.get byDestination destination with
              | None => JsObject.set byDestination destination JsObject.empty
              | Some _ => byDestination
              end in
            match JsObject.get byDestination destination with
            | Some byToken =>
                JsObject.set result origin
                  (JsObject.set byDestination destination
                     (JsObject.set byToken originToken depositsEnabled))
            | None => result
            end
        | None => result
        end
    | _ => result
    end.

Definition getRoutes : Async t RoutesTable :=
  this <- get_this ;;
  ret (fold_left getRoutes_step (events this) JsObject.empty).

End HubPoolUtils.

(* ================================================================== *)
(** * The route aggregator *)

Record Route : Type := {
  fromChain : N;
  toChain : N;
  fromTokenAddress : string;
  fromSpokeAddress : string;
  fromTokenSymbol : option string;   (* [symbols[fromTokenAddress]] *)
  isNative : bool;
  l1TokenAddress : option string     (* [spokeTokenTable[fromTokenAddress]] *)
}.

Definition Routes : Type := list Route.

(** What [getSpokePoolState] returns. *)
Record SpokePoolState : Type := {
  state_routes : JsObject.t numeral (list string);
  state_symbols : JsObject.t string string;
  state_wrappedNativeToken : string
}.

(** An element of [spokeData]: the state of a spoke with the entry of the
    spoke-address table it was built from. *)
Record SpokeData : Type := {
  sd_fromSpokeAddress : string;
  sd_fromChain : numeral;
  sd_state : SpokePoolState
}.

Definition sd_routes (d : SpokeData) := state_routes (sd_state d).
Definition sd_symbols (d : SpokeData) := state_symbols (sd_state d).
Definition sd_wrappedNativeToken (d : SpokeData) :=
  state_wrappedNativeToken (sd_state d).

(** [Promise.all] over computations that each start a call: every call is
    started, in array order, before any outcome is observed. *)
Fixpoint start_all {S A B} (f : A -> Async S (Promise B)) (l : list A)
  : Async S (list (A * Promise B)) :=
  match l with
  | [] => ret []
  | a :: l' =>
      p <- f a ;;
      ps <- start_all f l' ;;
      ret ((a, p) :: ps)
  end.

Fixpoint await_all {S A B} (ps : list (A * Promise B))
  : Async S (list (A * B)) :=
  match ps with
  | [] => ret []
  | (a, p) :: ps' =>
      b <- await p ;;
      bs <- await_all ps' ;;
      ret ((a, b) :: bs)
  end.

Definition getSpokePoolState : Async SpokePoolUtils.t SpokePoolState :=
  SpokePoolUtils.update ;;
  routes <- SpokePoolUtils.routesEnabled ;;
  supportedTokens <- SpokePoolUtils.getSupportedTokens ;;
  spoke <- get_this ;;
  match SpokePoolUtils.wrappedNativeToken spoke with
  | Some wrappedNativeToken =>
      if truthy (Some wrappedNativeToken)
      then
        started <- start_all symbol supportedTokens ;;
        pairs <- await_all started ;;
        ret {| state_routes := routes;
               state_symbols := JsObject.fromEntries pairs;
               state_wrappedNativeToken := wrappedNativeToken |}
      else throw (AssertionError
                    "Spoke pool missing wrapped native token address")
  | None => throw (AssertionError
                     "Spoke pool missing wrapped native token address")
  end.

(** The entry of the chain configuration read by [getChainInfo]. *)
Record ChainInfo : Type := {
  info_maxRange : option Z;
  nativeCurrencySymbol : string
}.

(** [{ ...route, fromTokenSymbol: symbol, isNative: true }]. *)
Definition native_twin (route : Route) (symbol : string) : Route :=
  {| fromChain := fromChain route;
     toChain := toChain route;
     fromTokenAddress := fromTokenAddress route;
     fromSpokeAddress := fromSpokeAddress route;
     fromTokenSymbol := Some symbol;
     isNative := true;
     l1TokenAddress := l1TokenAddress route |}.

Section Join.
(** [getChainInfo] of [./utils], addressed by the key of the chain id. *)
Variable getChainInfo : numeral -> ChainInfo.
Variable spokeTokenTable : JsObject.t string string.

(** The body of the innermost [forEach]: one route, and its native twin when
    the token is the wrapped native token of the spoke. *)
Definition push_routes (d : SpokeData) (toChain : numeral)
  (allRoutes : Routes) (fromTokenAddress : string) : Routes :=
  let nativeCurrencySymbol :=
    nativeCurrencySymbol (getChainInfo (sd_fromChain d)) in
  let l1TokenAddress := JsObject.get spokeTokenTable fromTokenAddress in
  let fromTokenSymbol := JsObject.get (sd_symbols d) fromTokenAddress in
  let route :=
    {| fromChain := Number_ (sd_fromChain d);
       toChain := Number_ toChain;
       fromTokenAddress := fromTokenAddress;
       fromSpokeAddress := sd_fromSpokeAddress d;
       fromTokenSymbol := fromTokenSymbol;
       isNative := false;
       l1TokenAddress := l1TokenAddress |} in
  let allRoutes := allRoutes ++ [route] in
  if String.eqb fromTokenAddress (sd_wrappedNativeToken d)
  then allRoutes ++ [native_twin route nativeCurrencySymbol]
  else allRoutes.

(** The join of [fetchRoutes]: [spokeData.forEach(...)] filling [allRoutes]. *)
Definition joinRoutes (spokeData : list SpokeData) : Routes :=
  fold_left
    (fun allRoutes d =>
       fold_left
         (fun allRoutes (entry : numeral * list string) =>
            let (toChain, fromTokenAddresses) := entry in
            fold_left (push_routes d toChain) fromTokenAddresses allRoutes)
         (JsObject.entries (sd_routes d)) allRoutes)
    spokeData [].
End Join.

Record RouteConfig : Type := {
  hubPoolAddress : string;
  hubPoolChain : N;
  hubPoolWethAddress : string;
  routes : Routes
}.

(** The collaborators of [fetchRoutes]: the chain configuration and the
    deployment registry, and for a chain id and a contract address the
    provider and contract a store is bound to. *)
Record Env : Type := {
  getChainInfo : numeral -> ChainInfo;
  isSupportedChainId : N -> bool;
  getDeployedAddress : string -> N -> string;
  getDeployedBlockNumber : string -> N -> Z;
  connect : N -> string -> Chain
}.

(** A method awaited on a store just built: its outcome. *)
Definition run {S A} (m : Async S A) (w : Chain) (s : S) : result A :=
  fst (fst (m w s [])).

(** The callback mapped over [Object.entries(spokePoolAddresses)]. *)
Definition fetchSpoke (env : Env) (entry : numeral * string)
  : Promise SpokeData :=
  let (fromChain, fromSpokeAddress) := entry in
  let fromChainId := Number_ fromChain in
  if negb (isSupportedChainId env fromChainId)
  then Throw (AssertionError
                ("Missing supported chain id: " ++ numeral_string fromChain))
  else
    let maxRange := info_maxRange (getChainInfo env (number_key fromChainId)) in
    let provider := connect env fromChainId fromSpokeAddress in
    let deployedBlock := getDeployedBlockNumber env "SpokePool" fromChainId in
    let pool := SpokePoolUtils.make fromSpokeAddress deployedBlock maxRange in
    result_bind (run getSpokePoolState provider pool)
      (fun state =>
         Ok {| sd_fromSpokeAddress := fromSpokeAddress;
               sd_fromChain := fromChain;
               sd_state := state |}).

(** [await Promise.all(promises)]: the values, or a rejection.  Which
    rejection surfaces when several promises fail depends on timing; the
    model takes the first in array order. *)
Fixpoint Promise_all {A} (promises : list (Promise A)) : result (list A) :=
  match promises with
  | [] => Ok []
  | p :: rest =>
      result_bind p (fun a =>
      result_bind (Promise_all rest) (fun l => Ok (a :: l)))
  end.

Definition fetchRoutes (env : Env) (hubPoolChain : N)
  (hubPoolAddressOverride : option string) : Promise RouteConfig :=
  let maxRange := info_maxRange (getChainInfo env (number_key hubPoolChain)) in
  let hubPoolAddress :=
    match hubPoolAddressOverride with
    | Some a => if truthy (Some a) then a
                else getDeployedAddress env "HubPool" hubPoolChain
    | None => getDeployedAddress env "HubPool" hubPoolChain
    end in
  let hubPoolStartBlock := getDeployedBlockNumber env "HubPool" hubPoolChain in
  let provider := connect env hubPoolChain hubPoolAddress in
  let hubPool := HubPoolUtils.make hubPoolAddress hubPoolStartBlock maxRange in
  result_bind
    (run (HubPoolUtils.update ;;
          spokePoolAddresses <- HubPoolUtils.getSpokePoolAddresses ;;
          spokeTokenTable <- HubPoolUtils.getSpokeTokenTable ;;
          hubPoolWethAddress <- HubPoolUtils.getWethAddress ;;
          ret (spokePoolAddresses, spokeTokenTable, hubPoolWethAddress))
       provider hubPool)
    (fun '(spokePoolAddresses, spokeTokenTable, hubPoolWethAddress) =>
       result_bind
         (Promise_all
            (map (fetchSpoke env) (JsObject.entries spokePoolAddresses)))
         (fun spokeData =>
            Ok {| hubPoolAddress := hubPoolAddress;
                  hubPoolChain := hubPoolChain;
                  hubPoolWethAddress := hubPoolWethAddress;
                  routes := joinRoutes (getChainInfo env) spokeTokenTable
                              spokeData |})).

(* ================================================================== *)
(** * Vocabulary of the statements *)

(** ** Methods and views *)

(** [returns m this v]: called on the store [this], on any chain, the
    method [m] returns [v], issues no call and leaves the store as it was. *)
Definition returns {S A} (m : Async S A) (this : S) (v : A) : Prop :=
  forall w t, m w this t = (Ok v, this, t).

(** A view in the sense of the data model: its outcome is a function of the
    stored log alone, and calling it changes neither store nor trace. *)
Definition pure_view {S A} (log : S -> list Event) (m : Async S A) : Prop :=
  exists f : list Event -> result A,
    forall w this t, m w this t = (f (log this), this, t).

(** Two calls of a view in a row: the first leaves the store alone and the
    second returns what the first did, whatever the chain has become. *)
Definition repeatable {S A} (m : Async S A) : Prop :=
  forall w w' this t t',
    snd (fst (m w this t)) = this /\
    snd (m w this t) = t /\
    fst (fst (m w' (snd (fst (m w this t))) t')) = fst (fst (m w this t)).

Definition derived_view {S A} (log : S -> list Event) (m : Async S A) : Prop :=
  pure_view log m /\ repeatable m.

(** ** The tables of the spoke store *)

(** The table [routesEnabled] folds from a log, and the table it returns. *)
Definition routes_fold (evs : list Event) : JsObject.t numeral JsSet.t :=
  fold_left SpokePoolUtils.routesEnabled_step evs JsObject.empty.

Definition routes_table (evs : list Event) : JsObject.t numeral (list string) :=
  JsObject.fromEntries
    (map (fun entry : numeral * JsSet.t =>
            let (chainId, addressSet) := entry in
            (chainId, JsSet.values addressSet))
         (JsObject.entries (routes_fold evs))).

(** The tokens listed for a destination; none when the key is absent. *)
Definition tokens_at (table : JsObject.t numeral (list string)) (d : numeral)
  : list string :=
  match JsObject.get table d with
  | Some tokens => tokens
  | None => []
  end.

(** The order in which [Object.entries] keeps the integer-keyed entries. *)
Definition by_index {K V : Type} (a b : N * (K * V)) : Prop :=
  (fst a <= fst b)%N.

(** The [Set] that [getSupportedTokens] fills from the token lists. *)
Definition union_tokens (lists : list (list string)) : list string :=
  JsSet.values
    (fold_left
       (fun tokens value =>
          fold_left (fun tokens token => JsSet.add tokens token) value tokens)
       lists JsSet.empty).

(** ** The log of the hub store *)

(** The ascending order of ordering keys: block, then transaction, then
    log index. *)
Definition key_lt (a b : Z * Z * Z) : Prop :=
  let '(b1, t1, l1) := a in
  let '(b2, t2, l2) := b in
  (b1 < b2 \/ (b1 = b2 /\ (t1 < t2 \/ (t1 = t2 /\ l1 < l2))))%Z.

Definition before (a b : Event) : Prop :=
  key_lt (ordering_key a) (ordering_key b).

(** [tied l x]: the event [x] of [l] shares its ordering key with another
    event of [l]. *)
Definition tied (l : list Event) (x : Event) : Prop :=
  exists l1 l2, l = l1 ++ x :: l2 /\
                In (ordering_key x) (map ordering_key (l1 ++ l2)).

(** The calls [HubPoolUtils.fetchEvents] issues once the head is known. *)
Definition hub_queries (this : HubPoolUtils.t) (head : Z) : list Call :=
  map (fun f => call_incrementalEvents f (HubPoolUtils.startBlock this)
                  (head - 1)%Z (HubPoolUtils.maxRange this))
      HubPoolUtils.hub_filters.

(** How the five ranged fetches of [HubPoolUtils.fetchEvents] settle. *)
Definition hub_fetched (w : Chain) (this : HubPoolUtils.t) (head : Z)
  : list (Promise (list Event)) :=
  map (fun f => utils_incrementalEvents w f (HubPoolUtils.startBlock this)
                  (head - 1)%Z (HubPoolUtils.maxRange this))
      HubPoolUtils.hub_filters.

(** The hub stores that no successful [update] has touched: a new store, and
    what failed updates and calls of [fetchEvents] make of one. *)
Inductive never_updated : HubPoolUtils.t -> Prop :=
| never_updated_new address startBlock maxRange :
    never_updated (HubPoolUtils.make address startBlock maxRange)
| never_updated_failed this w t e this' t' :
    never_updated this ->
    HubPoolUtils.update w this t = (Throw e, this', t') ->
    never_updated this'
| never_updated_fetch this w t r this' t' :
    never_updated this ->
    HubPoolUtils.fetchEvents w this t = (r, this', t') ->
    never_updated this'.

(** The table [getL1LpTokenTable] folds from a log. *)
Definition l1lp_fold (evs : list Event) : JsObject.t string string :=
  fold_left HubPoolUtils.getL1LpTokenTable_step evs JsObject.empty.

(** The hub stores a program can reach: a new store, and what calls of
    [update] and [fetchEvents] make of one, whatever their outcome. *)
Inductive hub_reachable : HubPoolUtils.t -> Prop :=
| hub_reachable_new address startBlock maxRange :
    hub_reachable (HubPoolUtils.make address startBlock maxRange)
| hub_reachable_update this w t :
    hub_reachable this ->
    hub_reachable (snd (fst (HubPoolUtils.update w this t)))
| hub_reachable_fetchEvents this w t :
    hub_reachable this ->
    hub_reachable (snd (fst (HubPoolUtils.fetchEvents w this t))).

(** ** The join *)

Section JoinVocabulary.
Variable getChainInfo : numeral -> ChainInfo.
Variable spokeTokenTable : JsObject.t string string.

(** The route of an enabled triple, as the join builds it. *)
Definition route_of (d : SpokeData) (toChain : numeral) (token : string)
  : Route :=
  {| fromChain := Number_ (sd_fromChain d);
     toChain := Number_ toChain;
     fromTokenAddress := token;
     fromSpokeAddress := sd_fromSpokeAddress d;
     fromTokenSymbol := JsObject.get (sd_symbols d) token;
     isNative := false;
     l1TokenAddress := JsObject.get spokeTokenTable token |}.

(** The records one enabled triple adds to [allRoutes]. *)
Definition emitted (triple : SpokeData * numeral * string) : Routes :=
  let '(d, toChain, token) := triple in
  push_routes getChainInfo spokeTokenTable d toChain [] token.
End JoinVocabulary.

(** The enabled triples of the spokes, in the order the join visits them. *)
Definition enabled_triples (spokeData : list SpokeData)
  : list (SpokeData * numeral * string) :=
  flat_map
    (fun d =>
       flat_map
         (fun entry : numeral * list string =>
            map (fun token => (d, fst entry, token)) (snd entry))
         (JsObject.entries (sd_routes d)))
    spokeData.

(** Two records are of the same triple. *)
Definition same_triple (r r' : Route) : bool :=
  (fromChain r =? fromChain r')%N && (toChain r =? toChain r')%N &&
  String.eqb (fromTokenAddress r) (fromTokenAddress r').

(** The spokes fed to the join carry distinct chain ids; their route tables
    have distinct keys and token lists without repetition. *)
Definition distinct_spokeData (spokeData : list SpokeData) : Prop :=
  NoDup (map (fun d => Number_ (sd_fromChain d)) spokeData) /\
  forall d, In d spokeData ->
    NoDup (map fst (JsObject.entries (sd_routes d))) /\
    forall entry, In entry (JsObject.entries (sd_routes d)) ->
                  NoDup (snd entry).

(** * Worked instances *)

Definition example_event (a : EventArgs) (block tx log : Z) (hash : string)
  : Event :=
  {| args := a; blockNumber := block; transactionIndex := tx;
     logIndex := log; transactionHash := hash |}.

(** A chain at head 100 answering every ranged fetch of a kind with the
    events given for that kind. *)
Definition example_chain (logs : Filter -> list Event)
  (wrappedNativeToken weth : Promise string) : Chain :=
  {| provider_getBlockNumber := Ok 100%Z;
     provider_getNetwork := Ok 10%N;
     utils_incrementalEvents := fun filter _ _ _ => Ok (logs filter);
     contract_wrappedNativeToken := wrappedNativeToken;
     contract_weth := weth;
     erc20_symbol := fun _ => Ok "WETH" |}.

Definition enable_A : Event :=
  example_event (EnabledDepositRoute "0xA" 10 true) 5 0 0 "0x01".
Definition disable_A : Event :=
  example_event (EnabledDepositRoute "0xA" 10 false) 6 0 0 "0x02".

Definition example_spoke (log : list Event) : SpokePoolUtils.t :=
  SpokePoolUtils.set_events log (SpokePoolUtils.make "0xSpoke" 0 None).

Definition spoke_logs (filter : Filter) : list Event :=
  match filter with
  | filters_EnabledDepositRoute => [enable_A; disable_A]
  | _ => []
  end.

Definition enable_X : Event :=
  example_event (L1TokenEnabledForLiquidityProvision "0xX" "0xY") 5 0 0 "0x03".
Definition disable_X : Event :=
  example_event (L2TokenDisabledForLiquidityProvision "0xX") 7 1 0 "0x04".
Definition set_spoke : Event :=
  example_event (CrossChainContractsSet 10 "0xSpoke") 5 0 1 "0x03".
Definition clash_X : Event :=
  example_event (L2TokenDisabledForLiquidityProvision "0xX") 5 0 0 "0x05".

(** The kinds come back one by one, out of block order. *)
Definition hub_logs (filter : Filter) : list Event :=
  match filter with
  | filters_L1TokenEnabledForLiquidityProvision => [enable_X]
  | filters_L2TokenDisabledForLiquidityProvision => [disable_X]
  | filters_CrossChainContractsSet => [set_spoke]
  | _ => []
  end.


(** A log in which two events share the ordering key (5, 0, 0). *)
Definition hub_logs_clash (filter : Filter) : list Event :=
  match filter with
  | filters_L1TokenEnabledForLiquidityProvision => [enable_X]
  | filters_L2TokenDisabledForLiquidityProvision => [clash_X]
  | _ => []
  end.

Definition example_hub : HubPoolUtils.t := HubPoolUtils.make "0xHub" 0 None.

Definition hub_chain : Chain :=
  example_chain hub_logs (Ok "0xW") (Ok "0xWETH").

Definition example_info (chain : numeral) : ChainInfo :=
  {| info_maxRange := None; nativeCurrencySymbol := "ETH" |}.

(** A spoke on chain 137 with routes to chain 10 for its wrapped native
    token [0xW] and for [0xT]. *)
Definition example_spoke_entry : SpokeData :=
  {| sd_fromSpokeAddress := "0xSpoke";
     sd_fromChain := 137%N;
     sd_state :=
       {| state_routes := [(10%N, ["0xW"; "0xT"])];
          state_symbols := [("0xW", "WETH"); ("0xT", "TKN")];
          state_wrappedNativeToken := "0xW" |} |}.

Definition example_spokeData : list SpokeData := [example_spoke_entry].

Definition example_spokeTokenTable : JsObject.t string string :=
  [("0xW", "0xL1W")].

(** ** Comparison sorts in general *)

(** A comparison sort on arrays of one length, as the decisions it takes:
    it compares the elements at two indices and goes on according to the
    sign the comparator returned, until it knows the arrangement. *)
Inductive Sorter : Type :=
| Rearrange (order : list nat)
| Compare (i j : nat) (negative zero positive : Sorter).

Definition pick {A} (a : list A) (order : list nat) : list A :=
  flat_map (fun i => match nth_error a i with
                     | Some x => [x]
                     | None => []
                     end) order.

Fixpoint run_sorter {A} (comparefn : A -> A -> result Z) (a : list A)
  (s : Sorter) : result (list A) :=
  match s with
  | Rearrange order => Ok (pick a order)
  | Compare i j negative zero positive =>
      match nth_error a i, nth_error a j with
      | Some x, Some y =>
          match comparefn x y with
          | Throw e => Throw e
          | Ok v =>
              if (v <? 0)%Z then run_sorter comparefn a negative
              else if (0 <? v)%Z then run_sorter comparefn a positive
              else run_sorter comparefn a zero
          end
      | _, _ => Throw (Error "index out of range")
      end
  end.

(** The sorter does its job on the logs of length [n] with unique keys. *)
Definition sorts_unique_logs (s : Sorter) (n : nat) : Prop :=
  forall a, List.length a = n -> NoDup (map ordering_key a) ->
    exists r, run_sorter HubPoolUtils.compareEvents a s = Ok r /\
              Permutation a r /\ StronglySorted before r.

(** A log with its ties broken by position, forwards or backwards. *)
Definition shift_logIndex (n offset : Z) (e : Event) : Event :=
  {| args := args e;
     blockNumber := blockNumber e;
     transactionIndex := transactionIndex e;
     logIndex := logIndex e * n + offset;
     transactionHash := transactionHash e |}.

Definition offset_of (up : bool) (n : nat) (i : nat) : Z :=
  if up then Z.of_nat i else Z.of_nat n - 1 - Z.of_nat i.

Definition spread (up : bool) (a : list Event) : list Event :=
  map (fun ie : nat * Event =>
         shift_logIndex (Z.of_nat (List.length a))
           (offset_of up (List.length a) (fst ie)) (snd ie))
      (combine (seq 0 (List.length a)) a).

(** The comparison sort of arrays of length two. *)
Definition sort_two : Sorter :=
  Compare 0 1 (Rearrange [0; 1]%nat) (Rearrange [0; 1]%nat)
    (Rearrange [1; 0]%nat).

Definition end_to_end_hub_logs (filter : Filter) : list Event :=
  match filter with
  | filters_L1TokenEnabledForLiquidityProvision =>
      [example_event (L1TokenEnabledForLiquidityProvision "0xL1" "0xLP")
         11 0 0 "0x0b"]
  | filters_CrossChainContractsSet =>
      [example_event (CrossChainContractsSet 137 "0xSpoke") 10 0 0 "0x0a"]
  | filters_SetPoolRebalanceRoute =>
      [example_event (SetPoolRebalanceRoute 137 "0xL1" "0xToken")
         12 0 0 "0x0c"]
  | _ => []
  end.

Definition end_to_end_spoke_logs (filter : Filter) : list Event :=
  match filter with
  | filters_EnabledDepositRoute =>
      [example_event (EnabledDepositRoute "0xToken" 1 true) 20 0 0 "0x14"]
  | _ => []
  end.

(** A hub on chain 1 that knows one spoke, on chain 137. *)
Definition end_to_end_env : Env :=
  {| getChainInfo := example_info;
     isSupportedChainId := fun id => (id =? 1)%N || (id =? 137)%N;
     getDeployedAddress := fun _ _ => "0xHub";
     getDeployedBlockNumber := fun _ _ => 0%Z;
     connect := fun chainId _ =>
       if (chainId =? 1)%N
       then example_chain end_to_end_hub_logs (Ok "0xWETH") (Ok "0xWETH")
       else example_chain end_to_end_spoke_logs (Ok "0xWMATIC") (Ok "") |}.

(** ** The last event that writes a key *)

(** The last event of a log that satisfies [p]. *)
Definition last_event (p : Event -> bool) (evs : list Event) : option Event :=
  find p (rev evs).

(** The events that write one key of one of the folded tables. *)
Definition about_route (token : string) (destination : N) (e : Event) : bool :=
  match args e with
  | EnabledDepositRoute originToken destinationChainId _ =>
      String.eqb originToken token && (destinationChainId =? destination)%N
  | _ => false
  end.

Definition about_l1Token (X : string) (e : Event) : bool :=
  match args e with
  | L1TokenEnabledForLiquidityProvision l1Token _ => String.eqb l1Token X
  | L2TokenDisabledForLiquidityProvision l1Token => String.eqb l1Token X
  | _ => false
  end.

Definition about_destinationToken (token : string) (e : Event) : bool :=
  match args e with
  | SetPoolRebalanceRoute _ _ destinationToken =>
      String.eqb destinationToken token
  | _ => false
  end.

Definition about_l2Chain (id : N) (e : Event) : bool :=
  match args e with
  | CrossChainContractsSet l2ChainId _ => (l2ChainId =? id)%N
  | _ => false
  end.

Definition about_deposit_route (origin destination : N) (token : string)
  (e : Event) : bool :=
  match args e with
  | SetEnableDepositRoute originChainId destinationChainId originToken _ =>
      (originChainId =? origin)%N && (destinationChainId =? destination)%N &&
      String.eqb originToken token
  | _ => false
  end.

(** [result[origin][destination][token]] in the table of [getRoutes]. *)
Definition routes_lookup (table : HubPoolUtils.RoutesTable)
  (origin destination : N) (token : string) : option bool :=
  match JsObject.get table (number_key origin) with
  | Some byDestination =>
      match JsObject.get byDestination (number_key destination) with
      | Some byToken => JsObject.get byToken token
      | None => None
      end
  | None => None
  end.

(** ** Further worked instances *)

(** A route to chain 137 enabled before the route to chain 10. *)
Definition enable_B : Event :=
  example_event (EnabledDepositRoute "0xB" 137 true) 4 0 0 "0x06".

(** A spoke registered under a chain id no double can hold. *)
Definition set_spoke_big : Event :=
  example_event (CrossChainContractsSet (2 ^ 53) "0xSpoke") 6 0 0 "0x07".

Definition example_hub_log (log : list Event) : HubPoolUtils.t :=
  HubPoolUtils.set_events log example_hub.

(** ** The stores of [fetchRoutes] *)

(** [hubPoolAddressOverride || getDeployedAddress("HubPool", hubPoolChain)]. *)
Definition hubPoolAddress_of (env : Env) (hubPoolChain : N)
  (hubPoolAddressOverride : option string) : string :=
  match hubPoolAddressOverride with
  | Some a => if truthy (Some a) then a
              else getDeployedAddress env "HubPool" hubPoolChain
  | None => getDeployedAddress env "HubPool" hubPoolChain
  end.

(** The hub store built for a hub address, before its first update. *)
Definition hubPool_at (env : Env) (hubPoolChain : N) (hubPoolAddress : string)
  : HubPoolUtils.t :=
  HubPoolUtils.make hubPoolAddress
    (getDeployedBlockNumber env "HubPool" hubPoolChain)
    (info_maxRange (getChainInfo env (number_key hubPoolChain))).

(** The spoke store built for an entry of the spoke-address table. *)
Definition spokePool_at (env : Env) (fromChain : numeral)
  (fromSpokeAddress : string) : SpokePoolUtils.t :=
  SpokePoolUtils.make fromSpokeAddress
    (getDeployedBlockNumber env "SpokePool" (Number_ fromChain))
    (info_maxRange (getChainInfo env (number_key (Number_ fromChain)))).

(** The fold of [getSpokePoolAddresses] over a log. *)
Definition addresses_of (evs : list Event)
  : result (JsObject.t numeral string) :=
  fold_left
    (fun acc event =>
       result_bind acc
         (fun r => HubPoolUtils.getSpokePoolAddresses_step r event))
    evs (Ok JsObject.empty).

(** The table [getSpokeTokenTable] folds from a log. *)
Definition spokeTokens_of (evs : list Event) : JsObject.t string string :=
  fold_left HubPoolUtils.getSpokeTokenTable_step evs JsObject.empty.

(** ** Configurations around the end-to-end instance *)

Definition end_to_end_hub : Chain :=
  example_chain end_to_end_hub_logs (Ok "0xWETH") (Ok "0xWETH").

Definition end_to_end_spoke : Chain :=
  example_chain end_to_end_spoke_logs (Ok "0xWMATIC") (Ok "").

(** The configuration of the end-to-end instance, with the chain of the
    hub, the chain of the spoke and the supported chain ids to choose. *)
Definition example_env (hub spoke : Chain) (supported : N -> bool) : Env :=
  {| getChainInfo := example_info;
     isSupportedChainId := supported;
     getDeployedAddress := fun _ _ => "0xHub";
     getDeployedBlockNumber := fun _ _ => 0%Z;
     connect := fun chainId _ => if (chainId =? 1)%N then hub else spoke |}.

(** A hub whose only registration is beyond the safe integers. *)
Definition overflow_hub_logs (filter : Filter) : list Event :=
  match filter with
  | filters_CrossChainContractsSet => [set_spoke_big]
  | _ => []
  end.

(** ** Chains that fail *)

(** A provider that cannot be reached. *)
Definition offline_chain : Chain :=
  {| provider_getBlockNumber := Throw (Rejected "offline");
     provider_getNetwork := Throw (Rejected "offline");
     utils_incrementalEvents := fun _ _ _ _ => Throw (Rejected "offline");
     contract_wrappedNativeToken := Throw (Rejected "offline");
     contract_weth := Throw (Rejected "offline");
     erc20_symbol := fun _ => Throw (Rejected "offline") |}.

(** A provider at head 100 that does not tell its network. *)
Definition no_network_chain : Chain :=
  {| provider_getBlockNumber := Ok 100%Z;
     provider_getNetwork := Throw (Rejected "no network");
     utils_incrementalEvents := fun _ _ _ _ => Ok [];
     contract_wrappedNativeToken := Ok "0xW";
     contract_weth := Ok "0xWETH";
     erc20_symbol := fun _ => Ok "WETH" |}.

(** A chain at head 100 on which the fetch of the third and fourth kinds of
    hub events fails. *)
Definition failing_fetch_chain : Chain :=
  {| provider_getBlockNumber := Ok 100%Z;
     provider_getNetwork := Ok 10%N;
     utils_incrementalEvents := fun filter _ _ _ =>
       match filter with
       | filters_SetEnableDepositRoute => Throw (Rejected "rate limited")
       | filters_CrossChainContractsSet => Throw (Rejected "timeout")
       | filters_EnabledDepositRoute => Throw (Rejected "rate limited")
       | _ => Ok []
       end;
     contract_wrappedNativeToken := Ok "0xW";
     contract_weth := Ok "0xWETH";
     erc20_symbol := fun _ => Ok "WETH" |}.

(** A hub that registers the spoke of chain 137 before that of chain 10. *)
Definition two_spoke_hub_logs (filter : Filter) : list Event :=
  match filter with
  | filters_CrossChainContractsSet =>
      [example_event (CrossChainContractsSet 137 "0xSpoke") 10 0 0 "0x0a";
       example_event (CrossChainContractsSet 10 "0xSpoke10") 11 0 0 "0x0b"]
  | _ => []
  end.

(* ================================================================== *)
(** * Theorems *)

Unset Implicit Arguments.

(* ================================================================== *)
(** * Facts about objects and sets *)

Module JsObjectFacts.
Import JsObject.
Section Facts.
Context {K V : Type} `{PropertyKey K}.
Implicit Types (o : JsObject.t K V) (k : K) (v : V).

Lemma key_eqb_refl k : key_eqb k k = true.
Proof. destruct (key_eqb_spec k k); congruence. Qed.

Lemma key_eqb_neq k k' : k <> k' -> key_eqb k k' = false.
Proof. intros Hne. destruct (key_eqb_spec k k'); congruence. Qed.

Lemma get_set_eq o k v : get (set o k v) k = Some v.
Proof.
  induction o as [|[k' v'] o IH]; simpl.
  - now rewrite key_eqb_refl.
  - destruct (key_eqb_spec k' k) as [->|Hne]; simpl.
    + now rewrite key_eqb_refl.
    + now rewrite (key_eqb_neq _ _ Hne).
Qed.

Lemma get_set_ne o k k' v : k <> k' -> get (set o k v) k' = get o k'.
Proof.
  intros Hne. induction o as [|[k0 v0] o IH]; simpl.
  - now rewrite (key_eqb_neq _ _ Hne).
  - destruct (key_eqb_spec k0 k) as [->|Hne0]; simpl.
    + now rewrite (key_eqb_neq _ _ Hne).
    + now rewrite IH.
Qed.

Lemma get_delete_eq o k : get (delete o k) k = None.
Proof.
  induction o as [|[k' v'] o IH]; simpl; auto.
  destruct (key_eqb_spec k' k) as [->|Hne]; simpl; auto.
  now rewrite (key_eqb_neq _ _ Hne).
Qed.

Lemma get_delete_ne o k k' : k <> k' -> get (delete o k) k' = get o k'.
Proof.
  intros Hne. induction o as [|[k0 v0] o IH]; simpl; auto.
  destruct (key_eqb_spec k0 k) as [->|Hne0]; simpl.
  - now rewrite (key_eqb_neq _ _ Hne).
  - now rewrite IH.
Qed.

Lemma get_Some_In o k v : get o k = Some v -> In (k, v) o.
Proof.
  induction o as [|[k' v'] o IH]; simpl; [discriminate|].
  destruct (key_eqb_spec k' k) as [->|Hne]; intros Hg.
  - left. congruence.
  - right. auto.
Qed.

Lemma get_None_not_In o k : get o k = None <-> ~ In k (map fst o).
Proof.
  induction o as [|[k' v'] o IH]; simpl; [tauto|].
  destruct (key_eqb_spec k' k) as [->|Hne].
  - split; [discriminate | tauto].
  - rewrite IH. tauto.
Qed.

Lemma In_get o k v : NoDup (map fst o) -> In (k, v) o -> get o k = Some v.
Proof.
  induction o as [|[k' v'] o IH]; simpl; [tauto|].
  intros Hnd [Heq|Hin].
  - inversion Heq; subst. now rewrite key_eqb_refl.
  - inversion Hnd as [|? ? Hnotin Hnd']; subst.
    destruct (key_eqb_spec k' k) as [->|Hne]; [|auto].
    exfalso. apply Hnotin. now apply (in_map fst) in Hin.
Qed.

(** The keys of an object stay distinct. *)
Lemma keys_set o k v :
  forall k', In k' (map fst (set o k v)) <-> k' = k \/ In k' (map fst o).
Proof.
  induction o as [|[k0 v0] o IH]; simpl; intros k'.
  - intuition.
  - destruct (key_eqb_spec k0 k) as [->|Hne]; simpl.
    + intuition.
    + rewrite IH. intuition.
Qed.

Lemma NoDup_set o k v : NoDup (map fst o) -> NoDup (map fst (set o k v)).
Proof.
  induction o as [|[k0 v0] o IH]; simpl; intros Hnd.
  - constructor; [tauto | constructor].
  - inversion Hnd as [|? ? Hnotin Hnd']; subst.
    destruct (key_eqb_spec k0 k) as [->|Hne]; simpl.
    + now constructor.
    + constructor; [|auto].
      rewrite keys_set. intros [Heq|Hin]; [congruence | tauto].
Qed.

Lemma delete_filter o k :
  delete o k = filter (fun e => negb (key_eqb (fst e) k)) o.
Proof.
  induction o as [|[k0 v0] o IH]; simpl; auto.
  destruct (key_eqb k0 k); simpl; now rewrite IH.
Qed.

Lemma NoDup_keys_filter (keep : K * V -> bool) o :
  NoDup (map fst o) -> NoDup (map fst (filter keep o)).
Proof.
  induction o as [|[k v] o IH]; simpl; intros Hnd; [constructor|].
  inversion Hnd as [|? ? Hnotin Hnd']; subst.
  destruct (keep (k, v)); simpl; [|auto].
  constructor; [|auto].
  intros Hin. apply Hnotin. apply in_map_iff in Hin as [x [Hx Hin]].
  apply filter_In in Hin as [Hin _]. rewrite <- Hx. now apply in_map.
Qed.

Lemma NoDup_delete o k : NoDup (map fst o) -> NoDup (map fst (delete o k)).
Proof. rewrite delete_filter. apply NoDup_keys_filter. Qed.

(** Lookup does not depend on the order of distinct keys. *)
Lemma get_Permutation o o' k :
  NoDup (map fst o) -> Permutation o o' -> get o k = get o' k.
Proof.
  intros Hnd Hp.
  assert (Hnd' : NoDup (map fst o')).
  { eapply Permutation_NoDup; [|exact Hnd]. now apply Permutation_map. }
  destruct (get o k) as [v|] eqn:Hg.
  - symmetry. apply In_get; auto.
    eapply Permutation_in; [exact Hp|]. now apply get_Some_In.
  - symmetry. apply get_None_not_In. apply get_None_not_In in Hg.
    intros Hin. apply Hg.
    eapply Permutation_in; [|exact Hin].
    apply Permutation_map. now apply Permutation_sym.
Qed.

(** [Object.entries] lists every own property once. *)
Lemma place_Permutation i (e : K * V) l :
  Permutation (place i e l) ((i, e) :: l).
Proof.
  induction l as [|[j e'] l IH]; simpl; auto.
  destruct (i <? j)%N; auto.
  eapply perm_trans; [apply perm_skip, IH | apply perm_swap].
Qed.

Lemma integer_keyed_Permutation o acc :
  Permutation
    (map snd
       (fold_left
          (fun acc e =>
             match array_index (fst e) with
             | Some i => place i e acc
             | None => acc
             end) o acc))
    (map snd acc ++
     filter (fun e => match array_index (fst e) with
                      | Some _ => true
                      | None => false
                      end) o).
Proof.
  revert acc. induction o as [|e o IH]; intros acc; simpl.
  - now rewrite app_nil_r.
  - rewrite IH. destruct (array_index (fst e)) as [i|]; [|reflexivity].
    rewrite (Permutation_map snd (place_Permutation i e acc)). simpl.
    apply Permutation_middle.
Qed.

Lemma filter_split_Permutation {A} (p : A -> bool) (l : list A) :
  Permutation (filter p l ++ filter (fun a => negb (p a)) l) l.
Proof.
  induction l as [|a l IH]; simpl; auto.
  destruct (p a); simpl.
  - now apply perm_skip.
  - apply Permutation_sym. eapply perm_trans.
    + apply perm_skip, Permutation_sym, IH.
    + apply Permutation_middle.
Qed.

Lemma entries_Permutation o : Permutation (entries o) o.
Proof.
  pose (p := fun e : K * V =>
               match array_index (fst e) with
               | Some _ => true
               | None => false
               end).
  assert (Hs : string_keyed o = filter (fun e => negb (p e)) o).
  { apply filter_ext. intros e. unfold p.
    now destruct (array_index (fst e)). }
  unfold entries, integer_keyed. rewrite integer_keyed_Permutation, Hs.
  simpl. apply (filter_split_Permutation p).
Qed.

Lemma In_entries o e : In e (entries o) <-> In e o.
Proof.
  split; apply Permutation_in;
    [ | apply Permutation_sym ]; apply entries_Permutation.
Qed.

Lemma NoDup_entries o : NoDup (map fst o) -> NoDup (map fst (entries o)).
Proof.
  intros Hnd. eapply Permutation_NoDup; [|exact Hnd].
  apply Permutation_map, Permutation_sym, entries_Permutation.
Qed.

Lemma In_keys o k : In k (keys o) <-> get o k <> None.
Proof.
  unfold keys. rewrite get_None_not_In. split.
  - intros Hin Hn. apply Hn.
    eapply Permutation_in; [|exact Hin].
    apply Permutation_map, entries_Permutation.
  - intros Hnn.
    destruct (in_dec (fun a b => reflect_dec _ _ (key_eqb_spec a b))
                k (map fst (entries o))) as [Hin|Hnin]; auto.
    exfalso. apply Hnn. intros Hin. apply Hnin.
    eapply Permutation_in; [|exact Hin].
    apply Permutation_map, Permutation_sym, entries_Permutation.
Qed.

End Facts.

Section FromEntries.
Context {K V : Type} `{PropertyKey K}.

Lemma NoDup_fold_set (l : list (K * V)) (o : JsObject.t K V) :
  NoDup (map fst o) ->
  NoDup (map fst (fold_left (fun o e => set o (fst e) (snd e)) l o)).
Proof.
  revert o. induction l as [|e l IH]; simpl; intros o Hnd; auto.
  apply IH, NoDup_set, Hnd.
Qed.

Lemma NoDup_fromEntries (l : list (K * V)) : NoDup (map fst (fromEntries l)).
Proof. apply NoDup_fold_set. constructor. Qed.

Lemma get_fold_set (l : list (K * V)) (o : JsObject.t K V) k :
  NoDup (map fst l) ->
  get (fold_left (fun o e => set o (fst e) (snd e)) l o) k =
  match get l k with
  | Some v => Some v
  | None => get o k
  end.
Proof.
  revert o. induction l as [|[k0 v0] l IH]; simpl; intros o Hnd; auto.
  inversion Hnd as [|? ? Hnotin Hnd']; subst.
  rewrite IH by auto.
  destruct (key_eqb_spec k0 k) as [->|Hne].
  - apply get_None_not_In in Hnotin. rewrite Hnotin. apply get_set_eq.
  - destruct (get l k); auto. now apply get_set_ne.
Qed.

(** [Object.fromEntries] of entries with distinct keys holds them all. *)
Lemma get_fromEntries (l : list (K * V)) k :
  NoDup (map fst l) -> get (fromEntries l) k = get l k.
Proof.
  intros Hnd. unfold fromEntries. rewrite get_fold_set by auto.
  now destruct (get l k).
Qed.

Lemma get_map_values {W} (f : V -> W) (o : JsObject.t K V) k :
  get (map (fun e : K * V => let (k, v) := e in (k, f v)) o) k =
  option_map f (get o k).
Proof.
  induction o as [|[k0 v0] o IH]; simpl; auto.
  now destruct (key_eqb k0 k).
Qed.

Lemma map_fst_map_values {W} (f : V -> W) (o : JsObject.t K V) :
  map fst (map (fun e : K * V => let (k, v) := e in (k, f v)) o) = map fst o.
Proof.
  induction o as [|[k0 v0] o IH]; simpl; auto. now rewrite IH.
Qed.
End FromEntries.
End JsObjectFacts.

Module JsSetFacts.
Import JsSet.

Lemma has_In s x : has s x = true <-> In x s.
Proof.
  unfold has. rewrite existsb_exists. split.
  - intros [y [Hin Heq]]. apply String.eqb_eq in Heq. now subst.
  - intros Hin. exists x. split; auto. apply String.eqb_refl.
Qed.

Lemma In_add s a x : In x (add s a) <-> x = a \/ In x s.
Proof.
  unfold add. destruct (has s a) eqn:Hh.
  - apply has_In in Hh. split; [tauto|]. intros [->|Hin]; auto.
  - rewrite in_app_iff. simpl. intuition.
Qed.

Lemma In_delete s a x : In x (delete s a) <-> x <> a /\ In x s.
Proof.
  unfold delete. rewrite filter_In, negb_true_iff.
  destruct (String.eqb_spec a x) as [->|Hne]; intuition congruence.
Qed.

Lemma NoDup_set_add s a : NoDup s -> NoDup (add s a).
Proof.
  intros Hnd. unfold add. destruct (has s a) eqn:Hh; auto.
  assert (Hnin : ~ In a s).
  { intros Hin. apply has_In in Hin. congruence. }
  clear Hh. induction s as [|y s IH]; simpl.
  - constructor; [tauto | constructor].
  - inversion Hnd as [|? ? Hy Hnd']; subst. simpl in Hnin.
    constructor; [|tauto].
    rewrite in_app_iff. simpl. intuition.
Qed.

Lemma NoDup_set_delete s a : NoDup s -> NoDup (delete s a).
Proof. apply NoDup_filter. Qed.
End JsSetFacts.

(* ================================================================== *)
(** * The spoke store: the route-enablement fold *)

Section RoutesEnabled.
Import JsObject JsObjectFacts JsSetFacts.

Lemma routesEnabled_run w this t :
  SpokePoolUtils.routesEnabled w this t =
  (Ok (routes_table (SpokePoolUtils.events this)), this, t).
Proof. reflexivity. Qed.

Lemma routesEnabled_returns this :
  returns SpokePoolUtils.routesEnabled this
    (routes_table (SpokePoolUtils.events this)).
Proof. intros w t. apply routesEnabled_run. Qed.

Lemma returns_inj {S A} (m : Async S A) (this : S) (v v' : A) :
  returns m this v -> returns m this v' -> v = v'.
Proof.
  intros Hv Hv'.
  pose (w := {| provider_getBlockNumber := Ok 0%Z;
                provider_getNetwork := Ok 0%N;
                utils_incrementalEvents := fun _ _ _ _ => Ok [];
                contract_wrappedNativeToken := Ok "";
                contract_weth := Ok "";
                erc20_symbol := fun _ => Ok "" |}).
  specialize (Hv w []). specialize (Hv' w []). congruence.
Qed.

(** One step of the fold, read through [get]. *)
Lemma routesEnabled_step_other result event :
  isEnabledDepositRoute event = false ->
  SpokePoolUtils.routesEnabled_step result event = result.
Proof. unfold SpokePoolUtils.routesEnabled_step. now intros ->. Qed.

Lemma routesEnabled_step_at result event A d enabled :
  args event = EnabledDepositRoute A d enabled ->
  get (SpokePoolUtils.routesEnabled_step result event) d =
  Some (let addressSet := match get result d with
                          | Some s => s
                          | None => JsSet.empty
                          end in
        if enabled then JsSet.add addressSet A
        else JsSet.delete addressSet A).
Proof.
  intros Ha. unfold SpokePoolUtils.routesEnabled_step, isEnabledDepositRoute.
  rewrite Ha. simpl. unfold BigNumber_toString.
  destruct (get result d) as [s|] eqn:Hg.
  - rewrite Hg. destruct enabled; apply get_set_eq.
  - rewrite get_set_eq. destruct enabled; apply get_set_eq.
Qed.

Lemma routesEnabled_step_ne result event A d enabled d' :
  args event = EnabledDepositRoute A d enabled ->
  d <> d' ->
  get (SpokePoolUtils.routesEnabled_step result event) d' = get result d'.
Proof.
  intros Ha Hne.
  unfold SpokePoolUtils.routesEnabled_step, isEnabledDepositRoute.
  rewrite Ha. simpl. unfold BigNumber_toString.
  destruct (get result d) as [s|] eqn:Hg.
  - rewrite Hg. destruct enabled; now apply get_set_ne.
  - rewrite get_set_eq.
    destruct enabled; rewrite get_set_ne by auto; now apply get_set_ne.
Qed.

Lemma routesEnabled_step_NoDup result event :
  NoDup (map fst result) ->
  NoDup (map fst (SpokePoolUtils.routesEnabled_step result event)).
Proof.
  intros Hnd. unfold SpokePoolUtils.routesEnabled_step.
  destruct (isEnabledDepositRoute event); simpl; auto.
  destruct (args event) as [| | | | |A d enabled]; auto.
  unfold BigNumber_toString.
  destruct (get result d) as [s|] eqn:Hg.
  - rewrite Hg. destruct enabled; now apply NoDup_set.
  - rewrite get_set_eq. destruct enabled; now repeat apply NoDup_set.
Qed.

Lemma routes_fold_NoDup evs : NoDup (map fst (routes_fold evs)).
Proof.
  unfold routes_fold.
  assert (Hgen : forall acc : JsObject.t numeral JsSet.t,
             NoDup (map fst acc) ->
             NoDup (map fst (fold_left SpokePoolUtils.routesEnabled_step
                               evs acc))).
  { induction evs as [|e evs IH]; simpl; intros acc Hacc; auto.
    apply IH, routesEnabled_step_NoDup, Hacc. }
  apply Hgen. constructor.
Qed.

Lemma routes_fold_snoc evs e :
  routes_fold (evs ++ [e]) =
  SpokePoolUtils.routesEnabled_step (routes_fold evs) e.
Proof. unfold routes_fold. now rewrite fold_left_app. Qed.

(** The returned table lists, for every key, the members of its set. *)
Lemma get_routes_table evs k :
  get (routes_table evs) k = get (routes_fold evs) k.
Proof.
  unfold routes_table.
  pose proof (routes_fold_NoDup evs) as Hnd.
  rewrite get_fromEntries.
  - rewrite get_map_values.
    rewrite <- (get_Permutation _ _ k (NoDup_entries _ Hnd)
                  (entries_Permutation (routes_fold evs))).
    now destruct (get (entries (routes_fold evs)) k).
  - rewrite map_fst_map_values. now apply NoDup_entries.
Qed.

(** Keys are created and never removed. *)
Lemma routes_fold_key_kept evs e d :
  get (routes_fold evs) d <> None ->
  get (routes_fold (evs ++ [e])) d <> None.
Proof.
  rewrite routes_fold_snoc. intros Hk.
  destruct (isEnabledDepositRoute e) eqn:He.
  - unfold isEnabledDepositRoute in He.
    destruct (args e) as [| | | | |A d' en] eqn:Ha; try discriminate.
    destruct (N.eq_dec d' d) as [->|Hne].
    + rewrite (routesEnabled_step_at _ _ _ _ _ Ha). discriminate.
    + now rewrite (routesEnabled_step_ne _ _ _ _ _ _ Ha Hne).
  - now rewrite routesEnabled_step_other.
Qed.

Lemma routes_fold_key_created evs e A d enabled :
  In e evs ->
  args e = EnabledDepositRoute A d enabled ->
  get (routes_fold evs) d <> None.
Proof.
  induction evs as [|x evs IH] using rev_ind; [contradiction|].
  intros Hin Ha. apply in_app_or in Hin as [Hin|[->|[]]].
  - apply routes_fold_key_kept. auto.
  - rewrite routes_fold_snoc, (routesEnabled_step_at _ _ _ _ _ Ha). discriminate.
Qed.
End RoutesEnabled.

Section RoutesEnabledOrder.
Import JsObject JsObjectFacts JsSetFacts.

Lemma tokens_at_routes_table evs d :
  tokens_at (routes_table evs) d =
  match get (routes_fold evs) d with
  | Some s => s
  | None => JsSet.empty
  end.
Proof. unfold tokens_at. now rewrite get_routes_table. Qed.

(** A further event inserts its token in the set of its destination, or
    removes it, and touches no other destination. *)
Lemma routes_table_snoc evs e tok dst enabled :
  args e = EnabledDepositRoute tok dst enabled ->
  (forall x, In x (tokens_at (routes_table (evs ++ [e])) dst) <->
             if enabled then x = tok \/ In x (tokens_at (routes_table evs) dst)
             else x <> tok /\ In x (tokens_at (routes_table evs) dst)) /\
  (forall dst', dst <> dst' ->
     get (routes_table (evs ++ [e])) dst' = get (routes_table evs) dst').
Proof.
  intros Ha. split.
  - intros x. rewrite !tokens_at_routes_table, routes_fold_snoc.
    rewrite (routesEnabled_step_at _ _ _ _ _ Ha). cbv zeta.
    destruct enabled; [apply In_add | apply In_delete].
  - intros dst' Hne. rewrite !get_routes_table, routes_fold_snoc.
    now apply (routesEnabled_step_ne _ _ _ _ _ _ Ha).
Qed.

(** C2. [routesEnabled] folds the [EnabledDepositRoute] events in log order:
    each further event inserts ([enabled = true]) or removes
    ([enabled = false]) its token in the set of its destination and leaves
    the other destinations alone.  So the order matters: after
    [enable(A); disable(A)] for one destination, [A] is absent from the list
    of that destination; after [disable(A); enable(A)] it is present.  This
    holds for every log, those with unique ordering keys among them. *)
Theorem routesEnabled_order_dependent :
  (forall (this this' : SpokePoolUtils.t) e tok dst enabled,
      SpokePoolUtils.events this' = SpokePoolUtils.events this ++ [e] ->
      args e = EnabledDepositRoute tok dst enabled ->
      exists table table',
        returns SpokePoolUtils.routesEnabled this table /\
        returns SpokePoolUtils.routesEnabled this' table' /\
        (forall x,
            In x (tokens_at table' (BigNumber_toString dst)) <->
            if enabled
            then x = tok \/ In x (tokens_at table (BigNumber_toString dst))
            else x <> tok /\ In x (tokens_at table (BigNumber_toString dst)))
        /\
        (forall dst', dst <> dst' ->
            get table' (BigNumber_toString dst') =
            get table (BigNumber_toString dst'))) /\
  (forall (this : SpokePoolUtils.t) pre enableA disableA A d,
      args enableA = EnabledDepositRoute A d true ->
      args disableA = EnabledDepositRoute A d false ->
      SpokePoolUtils.events this = pre ++ [enableA; disableA] ->
      exists table,
        returns SpokePoolUtils.routesEnabled this table /\
        ~ In A (tokens_at table (BigNumber_toString d))) /\
  (forall (this : SpokePoolUtils.t) pre enableA disableA A d,
      args enableA = EnabledDepositRoute A d true ->
      args disableA = EnabledDepositRoute A d false ->
      SpokePoolUtils.events this = pre ++ [disableA; enableA] ->
      exists table,
        returns SpokePoolUtils.routesEnabled this table /\
        In A (tokens_at table (BigNumber_toString d))).
Proof.
  unfold BigNumber_toString. split; [|split].
  - intros this this' e tok dst enabled Hev Ha.
    exists (routes_table (SpokePoolUtils.events this)),
           (routes_table (SpokePoolUtils.events this')).
    split; [apply routesEnabled_returns|].
    split; [apply routesEnabled_returns|].
    rewrite Hev. now apply routes_table_snoc.
  - intros this pre enableA disableA A d Hen Hdis Hev.
    exists (routes_table (SpokePoolUtils.events this)).
    split; [apply routesEnabled_returns|].
    rewrite Hev.
    change (pre ++ [enableA; disableA]) with (pre ++ [enableA] ++ [disableA]).
    rewrite app_assoc.
    destruct (routes_table_snoc (pre ++ [enableA]) disableA _ _ _ Hdis) as [Hin _].
    rewrite Hin. tauto.
  - intros this pre enableA disableA A d Hen Hdis Hev.
    exists (routes_table (SpokePoolUtils.events this)).
    split; [apply routesEnabled_returns|].
    rewrite Hev.
    change (pre ++ [disableA; enableA]) with (pre ++ [disableA] ++ [enableA]).
    rewrite app_assoc.
    destruct (routes_table_snoc (pre ++ [disableA]) enableA _ _ _ Hen) as [Hin _].
    rewrite Hin. now left.
Qed.
End RoutesEnabledOrder.

(* ================================================================== *)
(** * Deleting a property and the order of [Object.entries] *)

Module JsObjectOrder.
Import JsObject JsObjectFacts.
Section Order.
Context {K V : Type} `{PropertyKey K}.

Lemma place_front i (e : K * V) l :
  Forall (fun b => (i < fst b)%N) l -> place i e l = (i, e) :: l.
Proof.
  destruct l as [|[j e'] l]; simpl; auto.
  intros Hall. inversion Hall as [|? ? Hlt _]; subst. simpl in Hlt.
  apply N.ltb_lt in Hlt. now rewrite Hlt.
Qed.

Lemma place_sorted i (e : K * V) l :
  StronglySorted by_index l -> StronglySorted by_index (place i e l).
Proof.
  induction l as [|[j e'] l IH]; simpl; intros Hs.
  - constructor; constructor.
  - inversion Hs as [|? ? Hs' Hall]; subst.
    destruct (i <? j)%N eqn:Hlt.
    + apply N.ltb_lt in Hlt. constructor; auto.
      constructor; [unfold by_index; simpl; lia|].
      eapply Forall_impl; [|exact Hall].
      unfold by_index. simpl. intros b Hb. lia.
    + apply N.ltb_ge in Hlt. constructor; auto.
      assert (Hp : Permutation (place i e l) ((i, e) :: l))
        by apply place_Permutation.
      apply Forall_forall. intros b Hb.
      eapply Permutation_in in Hb; [|exact Hp].
      destruct Hb as [<-|Hb]; [unfold by_index; simpl; lia|].
      rewrite Forall_forall in Hall. auto.
Qed.

Lemma place_filter (p : K * V -> bool) i e l :
  StronglySorted by_index l ->
  filter (fun b => p (snd b)) (place i e l) =
  if p e then place i e (filter (fun b => p (snd b)) l)
  else filter (fun b => p (snd b)) l.
Proof.
  induction l as [|[j e'] l IH]; simpl; intros Hs.
  - now destruct (p e).
  - inversion Hs as [|? ? Hs' Hall]; subst.
    destruct (i <? j)%N eqn:Hlt; simpl.
    + destruct (p e) eqn:Hpe; [|reflexivity].
      destruct (p e') eqn:Hpe'; simpl; [now rewrite Hlt|].
      symmetry. apply place_front.
      apply N.ltb_lt in Hlt.
      apply Forall_forall. intros b Hb. apply filter_In in Hb as [Hb _].
      rewrite Forall_forall in Hall. specialize (Hall b Hb).
      unfold by_index in Hall. simpl in Hall. lia.
    + rewrite (IH Hs').
      destruct (p e'), (p e); simpl; try rewrite Hlt; reflexivity.
Qed.

Lemma integer_keyed_filter (p : K * V -> bool) (o : JsObject.t K V) acc :
  StronglySorted by_index acc ->
  let step := fun acc (e : K * V) =>
                match array_index (fst e) with
                | Some i => place i e acc
                | None => acc
                end in
  StronglySorted by_index (fold_left step o acc) /\
  filter (fun b => p (snd b)) (fold_left step o acc) =
  fold_left step (filter p o) (filter (fun b => p (snd b)) acc).
Proof.
  intros Hs step. revert acc Hs.
  induction o as [|e o IH]; simpl; intros acc Hs; [auto|].
  assert (Hs' : StronglySorted by_index (step acc e)).
  { unfold step. destruct (array_index (fst e)); auto using place_sorted. }
  destruct (IH _ Hs') as [Hsorted Heq]. split; [exact Hsorted|].
  rewrite Heq.
  assert (Hstep : filter (fun b => p (snd b)) (step acc e) =
                  if p e then step (filter (fun b => p (snd b)) acc) e
                  else filter (fun b => p (snd b)) acc).
  { unfold step. destruct (array_index (fst e)).
    - now apply place_filter.
    - now destruct (p e). }
  rewrite Hstep. now destruct (p e).
Qed.

(** [Object.entries] after [delete]: the remaining entries, in the order
    they had. *)
Lemma entries_delete (o : JsObject.t K V) k :
  entries (delete o k) =
  filter (fun e => negb (key_eqb (fst e) k)) (entries o).
Proof.
  rewrite delete_filter. unfold entries.
  rewrite filter_app. f_equal.
  - unfold integer_keyed.
    destruct (integer_keyed_filter
                (fun e => negb (key_eqb (fst e) k)) o
                [] (SSorted_nil _)) as [_ Heq].
    simpl in Heq. rewrite <- Heq.
    generalize (fold_left
      (fun acc (e : K * V) =>
         match array_index (fst e) with
         | Some i => place i e acc
         | None => acc
         end) o []).
    intros l. induction l as [|[j e] l IHl]; simpl; auto.
    destruct (negb (key_eqb (fst e) k)); simpl; now rewrite IHl.
  - unfold string_keyed.
    generalize (fun e : K * V => match array_index (fst e) with
                                 | Some _ => false
                                 | None => true
                                 end).
    intros q. induction o as [|e o IHo]; simpl; auto.
    destruct (negb (key_eqb (fst e) k)) eqn:Hk, (q e) eqn:Hq; simpl;
      rewrite ?Hk, ?Hq, IHo; reflexivity.
Qed.
End Order.
End JsObjectOrder.

(* ================================================================== *)
(** * The spoke store: supported tokens and chains *)

Section Supported.
Import JsObject JsObjectFacts JsSetFacts JsObjectOrder.

Lemma getSupportedTokens_returns this :
  returns SpokePoolUtils.getSupportedTokens this
    (union_tokens (values (routes_table (SpokePoolUtils.events this)))).
Proof. intros w t. reflexivity. Qed.

Lemma getSupportedChains_returns this :
  returns SpokePoolUtils.getSupportedChains this
    (map Number_ (keys (routes_table (SpokePoolUtils.events this)))).
Proof. intros w t. reflexivity. Qed.

Lemma In_fold_add value tokens x :
  In x (fold_left (fun tokens token => JsSet.add tokens token) value tokens)
  <-> In x tokens \/ In x value.
Proof.
  revert tokens. induction value as [|a value IH]; simpl; intros tokens.
  - tauto.
  - rewrite IH, In_add. intuition.
Qed.

Lemma In_union_fold lists tokens x :
  In x (fold_left
          (fun tokens value =>
             fold_left (fun tokens token => JsSet.add tokens token)
               value tokens) lists tokens)
  <-> In x tokens \/ exists l, In l lists /\ In x l.
Proof.
  revert tokens. induction lists as [|l lists IH]; simpl; intros tokens.
  - split; [tauto|]. intros [Hin|[l [[] _]]]. exact Hin.
  - rewrite IH, In_fold_add. split.
    + intros [[Hin|Hin]|[l' [Hl' Hin]]]; eauto.
    + intros [Hin|[l' [[<-|Hl'] Hin]]]; eauto.
Qed.

(** The supported tokens are the union of the token lists. *)
Lemma In_union_tokens lists x :
  In x (union_tokens lists) <-> exists l, In l lists /\ In x l.
Proof.
  unfold union_tokens, JsSet.values. rewrite In_union_fold. simpl.
  split; [intros [[]|Hex]; exact Hex | auto].
Qed.

(** A key mapped to an empty list adds nothing to the union. *)
Lemma union_fold_skip_empty {K} (p : K * list string -> bool)
  (l : list (K * list string)) tokens :
  (forall e, In e l -> p e = false -> snd e = []) ->
  fold_left
    (fun tokens value =>
       fold_left (fun tokens token => JsSet.add tokens token) value tokens)
    (map snd (filter p l)) tokens =
  fold_left
    (fun tokens value =>
       fold_left (fun tokens token => JsSet.add tokens token) value tokens)
    (map snd l) tokens.
Proof.
  revert tokens. induction l as [|e l IH]; simpl; intros tokens Hempty; auto.
  destruct (p e) eqn:Hpe; simpl.
  - apply IH. auto.
  - rewrite (Hempty e (or_introl eq_refl) Hpe). simpl. apply IH. auto.
Qed.

Lemma routes_table_NoDup evs : NoDup (map fst (routes_table evs)).
Proof. apply NoDup_fromEntries. Qed.

Lemma In_values_routes_table evs l :
  In l (values (routes_table evs)) <->
  exists k, get (routes_table evs) k = Some l.
Proof.
  unfold values. rewrite in_map_iff. split.
  - intros [[k l'] [Heq Hin]]. simpl in Heq. subst l'. exists k.
    apply (proj1 (In_entries _ _)) in Hin.
    apply In_get; auto using routes_table_NoDup.
  - intros [k Hg]. exists (k, l). split; auto.
    apply In_entries. now apply get_Some_In.
Qed.

(** C10. When the log holds a disabling event for a destination and the fold
    ends with no token enabled for that destination, [routesEnabled] still
    returns the destination as a key, mapped to the empty list;
    [getSupportedChains] lists its chain id; and [getSupportedTokens] is what
    it would be without that key: the union of the token lists, to which the
    empty list adds nothing. *)
Theorem disabled_destination_kept
  (this : SpokePoolUtils.t) (e : Event) (A : string) (d : N)
  (table : JsObject.t numeral (list string)) :
  In e (SpokePoolUtils.events this) ->
  args e = EnabledDepositRoute A d false ->
  returns SpokePoolUtils.routesEnabled this table ->
  tokens_at table (BigNumber_toString d) = [] ->
  get table (BigNumber_toString d) = Some [] /\
  (exists chains,
      returns SpokePoolUtils.getSupportedChains this chains /\
      In (Number_ (BigNumber_toString d)) chains) /\
  (exists tokens,
      returns SpokePoolUtils.getSupportedTokens this tokens /\
      (forall x, In x tokens <->
                 exists k l, get table k = Some l /\ In x l) /\
      tokens = union_tokens (values (delete table (BigNumber_toString d)))).
Proof.
  unfold BigNumber_toString. intros Hin Ha Hret Hnone.
  assert (Htable : table = routes_table (SpokePoolUtils.events this)).
  { eapply returns_inj; [exact Hret | apply routesEnabled_returns]. }
  assert (Hkey : get table d = Some []).
  { pose proof (routes_fold_key_created _ _ _ _ _ Hin Ha) as Hk.
    rewrite <- get_routes_table, <- Htable in Hk.
    unfold tokens_at in Hnone.
    destruct (get table d) as [l|]; [now subst l | now elim Hk]. }
  split; [exact Hkey|]. split.
  - eexists. split; [apply getSupportedChains_returns|].
    apply in_map. rewrite <- Htable. apply In_keys. congruence.
  - eexists. split; [apply getSupportedTokens_returns|].
    rewrite <- Htable. split.
    + intros x. rewrite In_union_tokens. split.
      * intros [l [Hl Hx]]. rewrite Htable in Hl.
        apply In_values_routes_table in Hl as [k Hk].
        exists k, l. rewrite Htable. auto.
      * intros [k [l [Hk Hx]]]. exists l. split; auto.
        rewrite Htable. apply In_values_routes_table. exists k.
        now rewrite <- Htable.
    + unfold union_tokens, values. rewrite entries_delete.
      f_equal. symmetry. apply union_fold_skip_empty.
      intros [k l] Hel Hp. simpl in *.
      apply negb_false_iff in Hp.
      destruct (N.eqb_spec k d) as [->|]; [|discriminate].
      apply (proj1 (In_entries _ _)) in Hel.
      apply In_get in Hel; [congruence|].
      rewrite Htable. apply routes_table_NoDup.
Qed.

End Supported.

(* ================================================================== *)
(** * The hub store: the global sort of the log *)

Section KeyOrder.
Local Open Scope Z_scope.

Lemma key_eq_dec (a b : Z * Z * Z) : {a = b} + {a <> b}.
Proof. repeat decide equality. Qed.

Lemma key_lt_irrefl a : ~ key_lt a a.
Proof. destruct a as [[b t] l]. simpl. lia. Qed.

Lemma key_lt_trans a b c : key_lt a b -> key_lt b c -> key_lt a c.
Proof.
  destruct a as [[b1 t1] l1], b as [[b2 t2] l2], c as [[b3 t3] l3].
  simpl. lia.
Qed.

Lemma key_trichotomy a b : key_lt a b \/ a = b \/ key_lt b a.
Proof.
  destruct a as [[b1 t1] l1], b as [[b2 t2] l2]. simpl.
  destruct (Z.lt_trichotomy b1 b2) as [?|[?|?]]; [lia| |lia].
  destruct (Z.lt_trichotomy t1 t2) as [?|[?|?]]; [lia| |lia].
  destruct (Z.lt_trichotomy l1 l2) as [?|[?|?]]; [lia| |lia].
  right. left. congruence.
Qed.

Lemma before_irrefl a b : ordering_key a = ordering_key b -> ~ before a b.
Proof. unfold before. intros ->. apply key_lt_irrefl. Qed.

Lemma before_trans a b c : before a b -> before b c -> before a c.
Proof. unfold before. apply key_lt_trans. Qed.

(** The comparator: negative below, positive above, and the duplicate-event
    error on a tie. *)
Lemma compareEvents_lt a b :
  before a b -> exists c, HubPoolUtils.compareEvents a b = Ok c /\ c < 0.
Proof.
  unfold before, ordering_key, HubPoolUtils.compareEvents. simpl. intros Hlt.
  destruct (Z.eqb_spec (blockNumber a) (blockNumber b)); simpl;
    [|eexists; split; [reflexivity|lia]].
  destruct (Z.eqb_spec (transactionIndex a) (transactionIndex b)); simpl;
    [|eexists; split; [reflexivity|lia]].
  destruct (Z.eqb_spec (logIndex a) (logIndex b)); simpl;
    [lia | eexists; split; [reflexivity|lia]].
Qed.

Lemma compareEvents_gt a b :
  before b a -> exists c, HubPoolUtils.compareEvents a b = Ok c /\ 0 < c.
Proof.
  unfold before, ordering_key, HubPoolUtils.compareEvents. simpl. intros Hlt.
  destruct (Z.eqb_spec (blockNumber a) (blockNumber b)); simpl;
    [|eexists; split; [reflexivity|lia]].
  destruct (Z.eqb_spec (transactionIndex a) (transactionIndex b)); simpl;
    [|eexists; split; [reflexivity|lia]].
  destruct (Z.eqb_spec (logIndex a) (logIndex b)); simpl;
    [lia | eexists; split; [reflexivity|lia]].
Qed.

Lemma compareEvents_tie a b :
  ordering_key a = ordering_key b ->
  HubPoolUtils.compareEvents a b =
  Throw (Error (HubPoolUtils.duplicate_message (transactionHash a))).
Proof.
  unfold ordering_key, HubPoolUtils.compareEvents. intros Heq.
  inversion Heq as [[Hb Ht Hl]]. now rewrite Hb, Ht, Hl, !Z.eqb_refl.
Qed.
End KeyOrder.

Section Sorting.
Import JsArray.
Local Abbreviation cmp := HubPoolUtils.compareEvents.

(** Placing an event whose key is new keeps the prefix sorted. *)
Lemma insert_fresh x s :
  StronglySorted before s ->
  (forall y, In y s -> ordering_key y <> ordering_key x) ->
  exists s', insert cmp x s = Ok s' /\
             Permutation (x :: s) s' /\ StronglySorted before s'.
Proof.
  induction s as [|y s IH]; simpl; intros Hs Hfresh.
  - exists [x]. repeat split; auto. constructor; constructor.
  - inversion Hs as [|? ? Hs' Hall]; subst.
    destruct (key_trichotomy (ordering_key x) (ordering_key y))
      as [Hlt|[Heq|Hgt]].
    + destruct (compareEvents_lt x y Hlt) as [c [-> Hc]].
      apply Z.ltb_lt in Hc. rewrite Hc.
      exists (x :: y :: s). repeat split; auto.
      constructor; auto. constructor; auto.
      eapply Forall_impl; [|exact Hall].
      intros z Hz. eapply before_trans; eauto.
    + exfalso. apply (Hfresh y); auto.
    + destruct (compareEvents_gt x y Hgt) as [c [-> Hc]].
      assert (Hc' : (c <? 0)%Z = false) by (apply Z.ltb_ge; lia).
      rewrite Hc'.
      destruct (IH Hs') as [s' [-> [Hp Hs'']]]; [auto|].
      simpl. exists (y :: s'). repeat split.
      * eapply perm_trans; [apply perm_swap | now apply perm_skip].
      * constructor; auto.
        apply Forall_forall. intros z Hz.
        eapply Permutation_in in Hz; [|apply Permutation_sym, Hp].
        destruct Hz as [<-|Hz]; auto.
        rewrite Forall_forall in Hall. auto.
Qed.

(** Placing an event whose key is already there raises the duplicate-event
    error, naming the transaction of the event placed. *)
Lemma insert_tied x s :
  StronglySorted before s ->
  In (ordering_key x) (map ordering_key s) ->
  insert cmp x s =
  Throw (Error (HubPoolUtils.duplicate_message (transactionHash x))).
Proof.
  induction s as [|y s IH]; simpl; intros Hs Hin; [contradiction|].
  inversion Hs as [|? ? Hs' Hall]; subst.
  destruct (key_trichotomy (ordering_key x) (ordering_key y))
    as [Hlt|[Heq|Hgt]].
  - exfalso. destruct Hin as [Heq|Hin].
    + apply (before_irrefl x y); auto.
    + apply in_map_iff in Hin as [z [Hkz Hz]].
      rewrite Forall_forall in Hall.
      apply (before_irrefl x z); [congruence|].
      eapply before_trans; [exact Hlt | auto].
  - now rewrite (compareEvents_tie x y Heq).
  - destruct (compareEvents_gt x y Hgt) as [c [-> Hc]].
    assert (Hc' : (c <? 0)%Z = false) by (apply Z.ltb_ge; lia).
    rewrite Hc'. rewrite IH; auto.
    destruct Hin as [Heq|Hin]; auto.
    exfalso. apply (before_irrefl y x); auto.
Qed.

Lemma sort_fold_Throw (l : list Event) e :
  fold_left (fun acc x => result_bind acc (insert cmp x)) l (Throw e) =
  Throw e.
Proof. induction l; simpl; auto. Qed.

Lemma sort_fold_unique l s :
  StronglySorted before s ->
  NoDup (map ordering_key (s ++ l)) ->
  exists s', fold_left (fun acc x => result_bind acc (insert cmp x)) l (Ok s)
             = Ok s' /\
             Permutation (s ++ l) s' /\ StronglySorted before s'.
Proof.
  revert s. induction l as [|x l IH]; simpl; intros s Hs Hnd.
  - exists s. rewrite app_nil_r. auto.
  - assert (Hp0 : Permutation (s ++ x :: l) (x :: s ++ l))
      by (apply Permutation_sym, Permutation_middle).
    assert (Hnd' : NoDup (map ordering_key (x :: s ++ l))).
    { eapply Permutation_NoDup; [|exact Hnd]. now apply Permutation_map. }
    simpl in Hnd'. inversion Hnd' as [|? ? Hx Hrest]; subst.
    destruct (insert_fresh x s Hs) as [s1 [-> [Hp1 Hs1]]].
    { intros y Hy Heq. apply Hx. rewrite <- Heq.
      apply in_map, in_or_app. auto. }
    destruct (IH s1 Hs1) as [s' [Hf [Hp Hs']]].
    { eapply Permutation_NoDup; [|exact Hnd'].
      change (ordering_key x :: map ordering_key (s ++ l))
        with (map ordering_key ((x :: s) ++ l)).
      apply Permutation_map. now apply Permutation_app_tail. }
    exists s'. repeat split; auto.
    eapply perm_trans; [exact Hp0|]. eapply perm_trans; [|exact Hp].
    change (x :: s ++ l) with ((x :: s) ++ l).
    now apply Permutation_app_tail.
Qed.

Lemma tied_Permutation l l' x : Permutation l l' -> tied l x -> tied l' x.
Proof.
  intros Hp [l1 [l2 [-> Hin]]].
  assert (Hx : In x l').
  { eapply Permutation_in; [exact Hp|]. apply in_or_app. simpl. auto. }
  apply in_split in Hx as [l1' [l2' ->]].
  exists l1', l2'. split; auto.
  apply Permutation_app_inv in Hp.
  eapply Permutation_in; [|exact Hin]. now apply Permutation_map.
Qed.

Lemma sort_fold_tied l s :
  StronglySorted before s ->
  NoDup (map ordering_key s) ->
  ~ NoDup (map ordering_key (s ++ l)) ->
  exists x, tied (s ++ l) x /\
            fold_left (fun acc x => result_bind acc (insert cmp x)) l (Ok s)
            = Throw (Error (HubPoolUtils.duplicate_message
                              (transactionHash x))).
Proof.
  revert s. induction l as [|x l IH]; simpl; intros s Hs Hnd Hdup.
  - rewrite app_nil_r in Hdup. contradiction.
  - destruct (in_dec key_eq_dec (ordering_key x) (map ordering_key s))
      as [Hin|Hnin].
    + exists x. split.
      * exists s, l. split; auto. rewrite map_app. apply in_or_app. auto.
      * rewrite (insert_tied x s Hs Hin). apply sort_fold_Throw.
    + destruct (insert_fresh x s Hs) as [s1 [-> [Hp1 Hs1]]].
      { intros y Hy Heq. apply Hnin. rewrite <- Heq. now apply in_map. }
      assert (Hp : Permutation (s ++ x :: l) (s1 ++ l)).
      { eapply perm_trans; [apply Permutation_sym, Permutation_middle|].
        change (x :: s ++ l) with ((x :: s) ++ l).
        now apply Permutation_app_tail. }
      destruct (IH s1 Hs1) as [x' [Ht Hf]].
      * eapply Permutation_NoDup; [apply Permutation_map, Hp1|].
        simpl. now constructor.
      * intros Hnd1. apply Hdup.
        eapply Permutation_NoDup; [|exact Hnd1].
        apply Permutation_map, Permutation_sym, Hp.
      * exists x'. split; auto.
        eapply tied_Permutation; [apply Permutation_sym, Hp | exact Ht].
Qed.

(** [sort] on a log with unique ordering keys: the sorted permutation. *)
Lemma sort_unique l :
  NoDup (map ordering_key l) ->
  exists s, sort cmp l = Ok s /\ Permutation l s /\ StronglySorted before s.
Proof.
  intros Hnd. apply (sort_fold_unique l []); auto. constructor.
Qed.

(** [sort] on a log with a tie: the duplicate-event error. *)
Lemma sort_tied l :
  ~ NoDup (map ordering_key l) ->
  exists x, tied l x /\
            sort cmp l =
            Throw (Error (HubPoolUtils.duplicate_message (transactionHash x))).
Proof.
  intros Hdup. apply (sort_fold_tied l []); auto; constructor.
Qed.


End Sorting.

(* ================================================================== *)
(** * The hub store: [fetchEvents] *)

Section HubFetchEvents.
Import JsArray.

Ltac run_async :=
  unfold bind, ret, await, lift, assign, get_this, start,
    getBlockNumber, getNetwork, incrementalEvents; simpl.

(** The calls go out before any outcome is observed: the head is asked for,
    then the five ranges, whatever the fetches answer. *)
Lemma hub_fetchEvents_trace w this t head :
  provider_getBlockNumber w = Ok head ->
  snd (HubPoolUtils.fetchEvents w this t) =
  t ++ call_getBlockNumber :: hub_queries this head.
Proof.
  intros Hhead. unfold HubPoolUtils.fetchEvents. run_async.
  rewrite Hhead. simpl.
  repeat rewrite <- app_assoc. simpl.
  repeat match goal with
         | |- context [utils_incrementalEvents ?w ?f ?a ?b ?c] =>
             destruct (utils_incrementalEvents w f a b c); simpl
         end; try reflexivity.
  match goal with
  | |- context [sort ?c ?l] => destruct (sort c l); reflexivity
  end.
Qed.


End HubFetchEvents.

Section HubFetchEventsClaims.
Import JsArray.


Lemma spoke_fetchEvents_run w this t head net :
  provider_getBlockNumber w = Ok head ->
  provider_getNetwork w = Ok net ->
  SpokePoolUtils.fetchEvents w this t =
  let calls :=
    [ call_getBlockNumber; call_getNetwork;
      call_incrementalEvents filters_EnabledDepositRoute
        (SpokePoolUtils.startBlock this) head (SpokePoolUtils.maxRange this) ]
  in
  match utils_incrementalEvents w filters_EnabledDepositRoute
          (SpokePoolUtils.startBlock this) head (SpokePoolUtils.maxRange this)
  with
  | Ok evs => (Ok evs, SpokePoolUtils.set_events evs this, t ++ calls)
  | Throw e => (Throw e, this, t ++ calls)
  end.
Proof.
  intros Hhead Hnet. unfold SpokePoolUtils.fetchEvents.
  unfold bind, ret, await, lift, assign, get_this, start,
    getBlockNumber, getNetwork, incrementalEvents; simpl.
  rewrite Hhead. simpl. rewrite Hnet. simpl.
  repeat rewrite <- app_assoc. simpl.
  destruct (utils_incrementalEvents w _ _ _ _); simpl; [|reflexivity].
  unfold flat. simpl. now rewrite app_nil_r.
Qed.

(** C8. Once the provider has given the current block number [head],
    [HubPoolUtils.fetchEvents] asks for each of its five event kinds over
    [startBlock .. head - 1]; [SpokePoolUtils.fetchEvents] asks for its one
    kind over [startBlock .. head], the current block number itself. *)
Theorem fetchEvents_block_ranges :
  (forall (w : Chain) (this : HubPoolUtils.t) (t : list Call) (head : Z),
      provider_getBlockNumber w = Ok head ->
      let startBlock := HubPoolUtils.startBlock this in
      let maxRange := HubPoolUtils.maxRange this in
      let latestBlock := (head - 1)%Z in
      snd (HubPoolUtils.fetchEvents w this t) =
      t ++ [ call_getBlockNumber;
             call_incrementalEvents filters_L1TokenEnabledForLiquidityProvision
               startBlock latestBlock maxRange;
             call_incrementalEvents filters_L2TokenDisabledForLiquidityProvision
               startBlock latestBlock maxRange;
             call_incrementalEvents filters_SetEnableDepositRoute
               startBlock latestBlock maxRange;
             call_incrementalEvents filters_CrossChainContractsSet
               startBlock latestBlock maxRange;
             call_incrementalEvents filters_SetPoolRebalanceRoute
               startBlock latestBlock maxRange ]) /\
  (forall (w : Chain) (this : SpokePoolUtils.t) (t : list Call)
          (head : Z) (net : N),
      provider_getBlockNumber w = Ok head ->
      provider_getNetwork w = Ok net ->
      let startBlock := SpokePoolUtils.startBlock this in
      let maxRange := SpokePoolUtils.maxRange this in
      let latestBlock := head in
      snd (SpokePoolUtils.fetchEvents w this t) =
      t ++ [ call_getBlockNumber; call_getNetwork;
             call_incrementalEvents filters_EnabledDepositRoute
               startBlock latestBlock maxRange ]).
Proof.
  split.
  - intros w this t head Hhead. cbv zeta.
    now rewrite (hub_fetchEvents_trace w this t head Hhead).
  - intros w this t head net Hhead Hnet. cbv zeta.
    rewrite (spoke_fetchEvents_run w this t head net Hhead Hnet). cbv zeta.
    now destruct (utils_incrementalEvents w _ _ _ _).
Qed.
End HubFetchEventsClaims.

(* ================================================================== *)
(** * [update] on the two stores *)

Section Update.

Lemma spoke_update_run w this t :
  SpokePoolUtils.update w this t =
  match SpokePoolUtils.fetchEvents w this t with
  | (Ok _, this1, t1) =>
      (Ok tt,
       SpokePoolUtils.set_wrappedNativeToken
         match contract_wrappedNativeToken w with
         | Ok a => a
         | Throw _ => SpokePoolUtils.fallback_wrappedNativeToken
         end this1,
       t1 ++ [call_wrappedNativeToken])
  | (Throw e, this1, t1) => (Throw e, this1, t1)
  end.
Proof.
  unfold SpokePoolUtils.update, bind at 1.
  destruct (SpokePoolUtils.fetchEvents w this t) as [[[evs|e] this1] t1];
    [|reflexivity].
  unfold try_catch, bind, start, await, assign. simpl.
  now destruct (contract_wrappedNativeToken w).
Qed.

(** C4. [SpokePoolUtils.update] fetches the events first.  If that fails the
    failure is the outcome and the token is not read.  Otherwise the
    wrapped-native-token address is read from the contract: if the read
    fails, [update] still succeeds and [wrappedNativeToken] is the constant
    [0x4200000000000000000000000000000000000006]; if the read succeeds,
    [wrappedNativeToken] is the address the contract returned. *)
Theorem update_wrappedNativeToken :
  (forall w this t evs this1 t1 e,
      SpokePoolUtils.fetchEvents w this t = (Ok evs, this1, t1) ->
      contract_wrappedNativeToken w = Throw e ->
      SpokePoolUtils.update w this t =
      (Ok tt,
       {| SpokePoolUtils.address := SpokePoolUtils.address this1;
          SpokePoolUtils.events := SpokePoolUtils.events this1;
          SpokePoolUtils.wrappedNativeToken :=
            Some "0x4200000000000000000000000000000000000006";
          SpokePoolUtils.startBlock := SpokePoolUtils.startBlock this1;
          SpokePoolUtils.maxRange := SpokePoolUtils.maxRange this1 |},
       t1 ++ [call_wrappedNativeToken])) /\
  (forall w this t evs this1 t1 a,
      SpokePoolUtils.fetchEvents w this t = (Ok evs, this1, t1) ->
      contract_wrappedNativeToken w = Ok a ->
      SpokePoolUtils.update w this t =
      (Ok tt,
       {| SpokePoolUtils.address := SpokePoolUtils.address this1;
          SpokePoolUtils.events := SpokePoolUtils.events this1;
          SpokePoolUtils.wrappedNativeToken := Some a;
          SpokePoolUtils.startBlock := SpokePoolUtils.startBlock this1;
          SpokePoolUtils.maxRange := SpokePoolUtils.maxRange this1 |},
       t1 ++ [call_wrappedNativeToken])) /\
  (forall w this t e this1 t1,
      SpokePoolUtils.fetchEvents w this t = (Throw e, this1, t1) ->
      SpokePoolUtils.update w this t = (Throw e, this1, t1)).
Proof.
  repeat split.
  - intros w this t evs this1 t1 e Hf Hr.
    now rewrite spoke_update_run, Hf, Hr.
  - intros w this t evs this1 t1 a Hf Hr.
    now rewrite spoke_update_run, Hf, Hr.
  - intros w this t e this1 t1 Hf. now rewrite spoke_update_run, Hf.
Qed.

Lemma hub_update_run w this t :
  HubPoolUtils.update w this t =
  match HubPoolUtils.fetchEvents w this t with
  | (Ok _, this1, t1) =>
      match contract_weth w with
      | Ok a => (Ok tt, HubPoolUtils.set_wethAddress a this1, t1 ++ [call_weth])
      | Throw e => (Throw e, this1, t1 ++ [call_weth])
      end
  | (Throw e, this1, t1) => (Throw e, this1, t1)
  end.
Proof.
  unfold HubPoolUtils.update, bind at 1.
  destruct (HubPoolUtils.fetchEvents w this t) as [[[evs|e] this1] t1];
    [|reflexivity].
  unfold bind, start, await, assign. simpl.
  now destruct (contract_weth w).
Qed.

(** [fetchEvents] assigns the log and nothing else. *)
Lemma hub_fetchEvents_store w this t :
  let this' := snd (fst (HubPoolUtils.fetchEvents w this t)) in
  this' = this \/
  exists sorted, this' = HubPoolUtils.set_events sorted this /\
                 fst (fst (HubPoolUtils.fetchEvents w this t)) = Ok sorted.
Proof.
  unfold HubPoolUtils.fetchEvents.
  unfold bind, ret, await, lift, assign, get_this, start,
    getBlockNumber, incrementalEvents; simpl.
  destruct (provider_getBlockNumber w); simpl; auto.
  repeat match goal with
         | |- context [utils_incrementalEvents ?w ?f ?a ?b ?c] =>
             destruct (utils_incrementalEvents w f a b c); simpl; auto
         end.
  match goal with
  | |- context [JsArray.sort ?c ?l] => destruct (JsArray.sort c l); simpl; auto
  end.
  right. eexists. split; reflexivity.
Qed.

Lemma hub_fetchEvents_wethAddress w this t :
  HubPoolUtils.wethAddress (snd (fst (HubPoolUtils.fetchEvents w this t))) =
  HubPoolUtils.wethAddress this.
Proof.
  destruct (hub_fetchEvents_store w this t) as [->|[s [-> _]]]; reflexivity.
Qed.

Lemma never_updated_wethAddress this :
  never_updated this -> HubPoolUtils.wethAddress this = None.
Proof.
  induction 1 as [| this w t e this' t' _ IH Hup
                  | this w t r this' t' _ IH Hf].
  - reflexivity.
  - rewrite hub_update_run in Hup.
    pose proof (hub_fetchEvents_wethAddress w this t) as Hw.
    destruct (HubPoolUtils.fetchEvents w this t) as [[[evs|e0] this1] t1];
      simpl in Hw.
    + destruct (contract_weth w); inversion Hup; subst. congruence.
    + inversion Hup; subst. congruence.
  - pose proof (hub_fetchEvents_wethAddress w this t) as Hw.
    rewrite Hf in Hw. simpl in Hw. congruence.
Qed.

(** C7. On a hub store that no successful [update] has touched,
    [getWethAddress] fails with the assertion error.  [update] reads the weth
    address whenever the fetch of the events has succeeded: a failure of the
    read is the outcome of [update], and the address stays unset; on success
    the address is stored, and from then on [getWethAddress] returns it (an
    address being a non-empty string). *)
Theorem update_wethAddress :
  (forall this w t,
      never_updated this ->
      HubPoolUtils.getWethAddress w this t =
      (Throw (AssertionError "weth address not set"), this, t)) /\
  (forall w this t evs this1 t1 e,
      HubPoolUtils.fetchEvents w this t = (Ok evs, this1, t1) ->
      contract_weth w = Throw e ->
      HubPoolUtils.update w this t = (Throw e, this1, t1 ++ [call_weth]) /\
      HubPoolUtils.wethAddress this1 = HubPoolUtils.wethAddress this) /\
  (forall w this t evs this1 t1 a,
      HubPoolUtils.fetchEvents w this t = (Ok evs, this1, t1) ->
      contract_weth w = Ok a ->
      HubPoolUtils.update w this t =
      (Ok tt, HubPoolUtils.set_wethAddress a this1, t1 ++ [call_weth]) /\
      (a <> "" ->
       returns HubPoolUtils.getWethAddress
         (HubPoolUtils.set_wethAddress a this1) a)).
Proof.
  split; [|split].
  - intros this w t Hnu. unfold HubPoolUtils.getWethAddress, bind, get_this.
    now rewrite (never_updated_wethAddress this Hnu).
  - intros w this t evs this1 t1 e Hfetch Hweth. split.
    + now rewrite hub_update_run, Hfetch, Hweth.
    + pose proof (hub_fetchEvents_wethAddress w this t) as Hw.
      now rewrite Hfetch in Hw.
  - intros w this t evs this1 t1 a Hfetch Hweth. split.
    + now rewrite hub_update_run, Hfetch, Hweth.
    + intros Hne w' t'. unfold HubPoolUtils.getWethAddress, bind, get_this.
      simpl. destruct (String.eqb_spec a ""); [contradiction | reflexivity].
Qed.
End Update.

(* ================================================================== *)
(** * The derived views *)

Section Views.

Lemma pure_view_repeatable {S A} (log : S -> list Event) (m : Async S A) :
  pure_view log m -> repeatable m.
Proof.
  intros [f Hf] w w' this t t'.
  rewrite (Hf w this t). simpl. rewrite (Hf w' this t'). auto.
Qed.

Lemma pure_view_bind {S A B} (log : S -> list Event)
  (m : Async S A) (k : A -> B) :
  pure_view log m -> pure_view log (x <- m ;; ret (k x)).
Proof.
  intros [f Hf].
  exists (fun evs => result_bind (f evs) (fun x => Ok (k x))).
  intros w this t. unfold bind, ret. rewrite Hf.
  now destruct (f (log this)).
Qed.

Lemma pure_view_spoke_routesEnabled :
  pure_view SpokePoolUtils.events SpokePoolUtils.routesEnabled.
Proof. exists (fun evs => Ok (routes_table evs)). reflexivity. Qed.

Lemma pure_view_hub_getL1LpTokenTable :
  pure_view HubPoolUtils.events HubPoolUtils.getL1LpTokenTable.
Proof.
  exists (fun evs =>
            Ok (fold_left HubPoolUtils.getL1LpTokenTable_step evs
                  JsObject.empty)).
  reflexivity.
Qed.

(** C9. Each derived view of the two stores is a function of the stored log
    alone: on any chain and in any store it returns what that function gives
    on the log, issues no call, and leaves the store, log included, as it
    was; so two calls in a row return the same. *)
Theorem derived_views_pure :
  derived_view SpokePoolUtils.events SpokePoolUtils.routesEnabled /\
  derived_view SpokePoolUtils.events SpokePoolUtils.getSupportedTokens /\
  derived_view SpokePoolUtils.events SpokePoolUtils.getSupportedChains /\
  derived_view HubPoolUtils.events HubPoolUtils.getSpokePoolAddresses /\
  derived_view HubPoolUtils.events HubPoolUtils.getL1LpTokenTable /\
  derived_view HubPoolUtils.events HubPoolUtils.getL1Tokens /\
  derived_view HubPoolUtils.events HubPoolUtils.getLpTokens /\
  derived_view HubPoolUtils.events HubPoolUtils.getSpokeTokenTable /\
  derived_view HubPoolUtils.events HubPoolUtils.getRoutes.
Proof.
  assert (Hd : forall S A (log : S -> list Event) (m : Async S A),
             pure_view log m -> derived_view log m).
  { intros S A log m Hp. split; [exact Hp | now apply (pure_view_repeatable log)]. }
  repeat split; apply Hd.
  - apply pure_view_spoke_routesEnabled.
  - apply (pure_view_bind SpokePoolUtils.events SpokePoolUtils.routesEnabled
             (fun table => union_tokens (JsObject.values table))).
    apply pure_view_spoke_routesEnabled.
  - apply (pure_view_bind SpokePoolUtils.events SpokePoolUtils.routesEnabled
             (fun table => map Number_ (JsObject.keys table))).
    apply pure_view_spoke_routesEnabled.
  - exists (fun evs =>
              fold_left
                (fun acc event =>
                   result_bind acc
                     (fun r => HubPoolUtils.getSpokePoolAddresses_step r event))
                evs (Ok JsObject.empty)).
    reflexivity.
  - apply pure_view_hub_getL1LpTokenTable.
  - apply (pure_view_bind HubPoolUtils.events HubPoolUtils.getL1LpTokenTable
             (fun table => JsObject.keys table)).
    apply pure_view_hub_getL1LpTokenTable.
  - apply (pure_view_bind HubPoolUtils.events HubPoolUtils.getL1LpTokenTable
             (fun table => JsObject.values table)).
    apply pure_view_hub_getL1LpTokenTable.
  - exists (fun evs =>
              Ok (fold_left HubPoolUtils.getSpokeTokenTable_step evs
                    JsObject.empty)).
    reflexivity.
  - exists (fun evs =>
              Ok (fold_left HubPoolUtils.getRoutes_step evs JsObject.empty)).
    reflexivity.
Qed.
End Views.

(* ================================================================== *)
(** * The hub store: the L1-token/LP-token table *)

Section L1LpTokenTable.
Import JsObject JsObjectFacts.

Lemma getL1LpTokenTable_returns this :
  returns HubPoolUtils.getL1LpTokenTable this
    (l1lp_fold (HubPoolUtils.events this)).
Proof. intros w t. reflexivity. Qed.

Lemma getL1Tokens_returns this :
  returns HubPoolUtils.getL1Tokens this
    (keys (l1lp_fold (HubPoolUtils.events this))).
Proof. intros w t. reflexivity. Qed.

Lemma l1lp_step_disable result event X :
  args event = L2TokenDisabledForLiquidityProvision X ->
  get (HubPoolUtils.getL1LpTokenTable_step result event) X = None.
Proof.
  intros Ha. unfold HubPoolUtils.getL1LpTokenTable_step,
    isL1TokenEnabledForLiquidityProvision,
    isL2TokenDisabledForLiquidityProvision.
  rewrite Ha. apply get_delete_eq.
Qed.

(** An event that is not an enable of [X] does not bring [X] in. *)
Lemma l1lp_step_absent result event X :
  (forall Y, args event <> L1TokenEnabledForLiquidityProvision X Y) ->
  get result X = None ->
  get (HubPoolUtils.getL1LpTokenTable_step result event) X = None.
Proof.
  intros Hne Hg. unfold HubPoolUtils.getL1LpTokenTable_step,
    isL1TokenEnabledForLiquidityProvision,
    isL2TokenDisabledForLiquidityProvision.
  destruct (args event) as [l1 lp|l1| | | |] eqn:Ha; auto.
  - destruct (String.eqb_spec l1 X) as [->|Hk].
    + now elim (Hne lp).
    + now rewrite get_set_ne.
  - destruct (String.eqb_spec l1 X) as [->|Hk].
    + apply get_delete_eq.
    + now rewrite get_delete_ne.
Qed.

Lemma l1lp_fold_absent post result X :
  (forall e Y, In e post ->
               args e <> L1TokenEnabledForLiquidityProvision X Y) ->
  get result X = None ->
  get (fold_left HubPoolUtils.getL1LpTokenTable_step post result) X = None.
Proof.
  revert result. induction post as [|e post IH]; simpl; intros result Hne Hg.
  - exact Hg.
  - apply IH; [intros; apply Hne; auto|].
    apply l1lp_step_absent; [|exact Hg]. intros Y. apply Hne. now left.
Qed.

(** After a disable of [X] that no enable of [X] follows, [X] is no key. *)
Lemma l1lp_fold_disabled pre dis post X :
  args dis = L2TokenDisabledForLiquidityProvision X ->
  (forall e Y, In e post ->
               args e <> L1TokenEnabledForLiquidityProvision X Y) ->
  get (l1lp_fold (pre ++ dis :: post)) X = None.
Proof.
  intros Ha Hne. unfold l1lp_fold. rewrite fold_left_app. simpl.
  apply l1lp_fold_absent; auto. now apply l1lp_step_disable.
Qed.

Lemma StronglySorted_split (l1 l2 : list Event) x :
  StronglySorted before (l1 ++ x :: l2) -> Forall (before x) l2.
Proof.
  induction l1 as [|y l1 IH]; simpl; intros Hs;
    inversion Hs; subst; auto.
Qed.

(** The log of a reachable hub store ascends by ordering key. *)
Lemma sort_Ok_sorted l s :
  JsArray.sort HubPoolUtils.compareEvents l = Ok s -> StronglySorted before s.
Proof.
  intros Hsort.
  destruct (ListDec.NoDup_dec key_eq_dec (map ordering_key l)) as [Hnd|Hdup].
  - destruct (sort_unique l Hnd) as [s' [Hs' [_ Hsorted]]]. congruence.
  - destruct (sort_tied l Hdup) as [x [_ Hx]]. congruence.
Qed.

Lemma hub_fetchEvents_sorted w this t :
  StronglySorted before (HubPoolUtils.events this) ->
  StronglySorted before
    (HubPoolUtils.events (snd (fst (HubPoolUtils.fetchEvents w this t)))).
Proof.
  intros Hs. unfold HubPoolUtils.fetchEvents.
  unfold bind, ret, await, lift, assign, get_this, start,
    getBlockNumber, incrementalEvents; simpl.
  destruct (provider_getBlockNumber w); simpl; auto.
  repeat match goal with
         | |- context [utils_incrementalEvents ?w ?f ?a ?b ?c] =>
             destruct (utils_incrementalEvents w f a b c); simpl; auto
         end.
  match goal with
  | |- context [JsArray.sort ?c ?l] =>
      destruct (JsArray.sort c l) eqn:Hsort; simpl; auto
  end.
  eapply sort_Ok_sorted; eauto.
Qed.

Lemma hub_reachable_sorted this :
  hub_reachable this -> StronglySorted before (HubPoolUtils.events this).
Proof.
  induction 1 as [| this w t _ IH | this w t _ IH].
  - constructor.
  - rewrite hub_update_run.
    pose proof (hub_fetchEvents_sorted w this t IH) as Hs.
    destruct (HubPoolUtils.fetchEvents w this t) as [[[evs|e] this1] t1];
      simpl in *; auto.
    destruct (contract_weth w); simpl; auto.
  - now apply hub_fetchEvents_sorted.
Qed.

(** C6. In the log of a hub store, kept in ordering-key order as
    [fetchEvents] leaves it, let an enable of [l1Token = X] be followed by a
    disable of [X], every enable of [X] coming before that disable.  Then
    [getL1LpTokenTable] has no entry for [X], and [getL1Tokens] does not
    list [X]. *)
Theorem disabled_l1Token_removed
  (this : HubPoolUtils.t) (en dis : Event) (X Y : string) :
  hub_reachable this ->
  In en (HubPoolUtils.events this) ->
  args en = L1TokenEnabledForLiquidityProvision X Y ->
  In dis (HubPoolUtils.events this) ->
  args dis = L2TokenDisabledForLiquidityProvision X ->
  before en dis ->
  (forall e Y', In e (HubPoolUtils.events this) ->
                args e = L1TokenEnabledForLiquidityProvision X Y' ->
                before e dis) ->
  exists table tokens,
    returns HubPoolUtils.getL1LpTokenTable this table /\
    get table X = None /\
    returns HubPoolUtils.getL1Tokens this tokens /\
    ~ In X tokens.
Proof.
  intros Hreach _ _ Hdis Hadis _ Hlast.
  pose proof (hub_reachable_sorted this Hreach) as Hsorted.
  exists (l1lp_fold (HubPoolUtils.events this)),
         (keys (l1lp_fold (HubPoolUtils.events this))).
  assert (Hnone : get (l1lp_fold (HubPoolUtils.events this)) X = None).
  { destruct (in_split _ _ Hdis) as [pre [post Hev]].
    rewrite Hev in *. apply l1lp_fold_disabled; auto.
    intros e Y' He Hae.
    pose proof (StronglySorted_split _ _ _ Hsorted) as Hafter.
    rewrite Forall_forall in Hafter.
    apply (before_irrefl dis dis eq_refl).
    eapply before_trans; [apply Hafter, He|].
    apply (Hlast e Y'); auto.
    apply in_or_app. right. now right. }
  split; [apply getL1LpTokenTable_returns|].
  split; [exact Hnone|].
  split; [apply getL1Tokens_returns|].
  rewrite In_keys. tauto.
Qed.
End L1LpTokenTable.

(* ================================================================== *)
(** * The join of [fetchRoutes] *)

Section JoinFacts.
Variable getChainInfo : numeral -> ChainInfo.
Variable spokeTokenTable : JsObject.t string string.
Local Abbreviation push := (push_routes getChainInfo spokeTokenTable).
Local Abbreviation emit := (emitted getChainInfo spokeTokenTable).
Local Abbreviation route := (route_of spokeTokenTable).

Lemma push_routes_app d toChain allRoutes token :
  push d toChain allRoutes token = allRoutes ++ emit (d, toChain, token).
Proof.
  unfold emitted, push_routes. simpl.
  destruct (String.eqb token (sd_wrappedNativeToken d)); simpl; auto.
  now rewrite <- app_assoc.
Qed.

Lemma fold_left_flat_map {A B} (f : list B -> A -> list B) (g : A -> list B)
  (l : list A) (acc : list B) :
  (forall acc a, f acc a = acc ++ g a) ->
  fold_left f l acc = acc ++ flat_map g l.
Proof.
  intros Hf. revert acc. induction l as [|a l IH]; simpl; intros acc.
  - now rewrite app_nil_r.
  - now rewrite IH, Hf, <- app_assoc.
Qed.

Lemma flat_map_map {A B C} (f : B -> list C) (g : A -> B) (l : list A) :
  flat_map f (map g l) = flat_map (fun a => f (g a)) l.
Proof. induction l as [|a l IH]; simpl; auto. now rewrite IH. Qed.

Lemma flat_map_flat_map {A B C} (f : B -> list C) (g : A -> list B)
  (l : list A) :
  flat_map f (flat_map g l) = flat_map (fun a => flat_map f (g a)) l.
Proof.
  induction l as [|a l IH]; simpl; auto. now rewrite flat_map_app, IH.
Qed.

(** The join adds to [allRoutes], triple after triple, the records of each
    enabled triple. *)
Lemma joinRoutes_flat_map spokeData :
  joinRoutes getChainInfo spokeTokenTable spokeData =
  flat_map emit (enabled_triples spokeData).
Proof.
  unfold joinRoutes, enabled_triples.
  rewrite (fold_left_flat_map _
             (fun d => flat_map
                (fun entry : numeral * list string =>
                   flat_map (fun token => emit (d, fst entry, token))
                     (snd entry))
                (JsObject.entries (sd_routes d)))).
  - simpl. rewrite flat_map_flat_map. apply flat_map_ext. intros d.
    rewrite flat_map_flat_map. apply flat_map_ext. intros [toChain tokens].
    simpl. now rewrite flat_map_map.
  - intros acc d. apply fold_left_flat_map. intros acc' [toChain tokens].
    simpl. apply fold_left_flat_map. intros acc'' token.
    apply push_routes_app.
Qed.

Lemma emitted_cases d toChain token :
  emit (d, toChain, token) =
  if String.eqb token (sd_wrappedNativeToken d)
  then [ route d toChain token;
         native_twin (route d toChain token)
           (nativeCurrencySymbol (getChainInfo (sd_fromChain d))) ]
  else [ route d toChain token ].
Proof.
  unfold emitted, push_routes, route_of. simpl.
  now destruct (String.eqb token (sd_wrappedNativeToken d)).
Qed.

Lemma In_enabled_triples spokeData d toChain token :
  In (d, toChain, token) (enabled_triples spokeData) <->
  In d spokeData /\
  exists tokens, In (toChain, tokens) (JsObject.entries (sd_routes d)) /\
                 In token tokens.
Proof.
  unfold enabled_triples. rewrite in_flat_map. split.
  - intros [d' [Hd Hin]]. apply in_flat_map in Hin as [[c toks] [He Hin]].
    apply in_map_iff in Hin as [tok [Heq Htok]]. simpl in *.
    inversion Heq; subst. eauto.
  - intros [Hd [tokens [He Htok]]]. exists d. split; auto.
    apply in_flat_map. exists (toChain, tokens). split; auto.
    apply in_map_iff. exists token. auto.
Qed.
End JoinFacts.

Section NumberFacts.
Local Open Scope N_scope.

Lemma size_le_53 n : n <= MAX_SAFE_INTEGER -> N.size n <= 53.
Proof.
  unfold MAX_SAFE_INTEGER. intros Hn.
  destruct (N.le_gt_cases (N.size n) 53) as [Hle|Hgt]; auto.
  exfalso. pose proof (N.size_le n) as Hs.
  rewrite N.succ_double_spec in Hs.
  assert (Hpow : 2 ^ 54 <= 2 ^ N.size n) by (apply N.pow_le_mono_r; lia).
  change (2 ^ 54) with (2 * 2 ^ 53) in Hpow. lia.
Qed.

(** [Number] is exact on the safe integers. *)
Lemma Number_safe n : n <= MAX_SAFE_INTEGER -> Number_ n = n.
Proof.
  intros Hn. unfold Number_. apply size_le_53 in Hn.
  apply N.leb_le in Hn. now rewrite Hn.
Qed.

(** Above them it stays above them. *)
Lemma Number_large n : MAX_SAFE_INTEGER < n -> MAX_SAFE_INTEGER < Number_ n.
Proof.
  unfold MAX_SAFE_INTEGER. intros Hn. unfold Number_.
  destruct (N.leb_spec (N.size n) 53) as [Hle|Hgt]; [exact Hn|].
  set (sh := N.size n - 53).
  set (q := N.shiftr n sh).
  match goal with
  | |- context [if ?b then q + 1 else q] =>
      set (q' := if b then q + 1 else q);
      assert (Hq' : q <= q') by (unfold q'; destruct b; lia)
  end.
  pose proof (N.size_le n) as Hs. rewrite N.succ_double_spec in Hs.
  assert (Hsize : N.size n = 53 + sh) by (unfold sh; lia).
  assert (Hq : 2 ^ 52 <= q).
  { unfold q. rewrite N.shiftr_div_pow2.
    rewrite Hsize, N.pow_add_r in Hs.
    change (2 ^ 53) with (2 * 2 ^ 52) in Hs.
    apply N.div_le_lower_bound; [apply N.pow_nonzero; lia|]. nia. }
  rewrite N.shiftl_mul_pow2.
  assert (Hsh : 2 <= 2 ^ sh).
  { change 2 with (2 ^ 1) at 1. apply N.pow_le_mono_r; lia. }
  change (2 ^ 53) with (2 ^ 52 * 2).
  assert (2 ^ 52 * 2 <= q' * 2 ^ sh) by (apply N.mul_le_mono; lia).
  lia.
Qed.

Lemma Number_inj_safe n n' :
  n <= MAX_SAFE_INTEGER -> Number_ n' = Number_ n -> n' = n.
Proof.
  intros Hn Heq. rewrite (Number_safe n Hn) in Heq.
  destruct (N.le_gt_cases n' MAX_SAFE_INTEGER) as [Hle|Hgt].
  - now rewrite (Number_safe n' Hle) in Heq.
  - apply Number_large in Hgt. lia.
Qed.
End NumberFacts.

Section ListFacts.

Lemma filter_none {B} (p : B -> bool) (l : list B) :
  (forall b, In b l -> p b = false) -> filter p l = [].
Proof.
  induction l as [|b l IH]; simpl; intros Hall; auto.
  rewrite (Hall b) by now left. apply IH. intros; apply Hall; now right.
Qed.

Lemma filter_flat_map_none {A B} (f : A -> list B) (p : B -> bool)
  (l : list A) :
  (forall a, In a l -> forall b, In b (f a) -> p b = false) ->
  filter p (flat_map f l) = [].
Proof.
  intros Hall. apply filter_none. intros b Hb.
  apply in_flat_map in Hb as [a [Ha Hb]]. eauto.
Qed.

Lemma filter_flat_map_one {A B} (f : A -> list B) (p : B -> bool)
  (l : list A) (a : A) :
  NoDup l -> In a l ->
  (forall a', In a' l -> a' <> a -> forall b, In b (f a') -> p b = false) ->
  filter p (flat_map f l) = filter p (f a).
Proof.
  induction l as [|x l IH]; simpl; intros Hnd Hin Hothers; [contradiction|].
  inversion Hnd as [|? ? Hx Hnd']; subst.
  rewrite filter_app. destruct Hin as [->|Hin].
  - rewrite (filter_flat_map_none f p l), app_nil_r; auto.
    intros a' Ha'. apply Hothers; auto. intros ->. auto.
  - rewrite IH; [|assumption|assumption|intros; apply (Hothers a'); auto].
    rewrite (filter_none p (f x)); auto.
    apply Hothers; auto. intros ->. auto.
Qed.

Lemma NoDup_map_NoDup {A B} (f : A -> B) (l : list A) :
  NoDup (map f l) -> NoDup l.
Proof.
  induction l as [|a l IH]; simpl; intros Hnd; [constructor|].
  inversion Hnd as [|? ? Hx Hnd']; subst.
  constructor; auto. intros Hin. apply Hx. now apply in_map.
Qed.

Lemma NoDup_map_eq {A B} (f : A -> B) (l : list A) a a' :
  NoDup (map f l) -> In a l -> In a' l -> f a = f a' -> a = a'.
Proof.
  induction l as [|x l IH]; simpl; intros Hnd Ha Ha' Heq; [contradiction|].
  inversion Hnd as [|? ? Hx Hnd']; subst.
  destruct Ha as [->|Ha], Ha' as [->|Ha']; auto.
  - exfalso. apply Hx. rewrite Heq. now apply in_map.
  - exfalso. apply Hx. rewrite <- Heq. now apply in_map.
Qed.
End ListFacts.

Section JoinClaims.
Variable getChainInfo : numeral -> ChainInfo.
Variable spokeTokenTable : JsObject.t string string.
Local Abbreviation emit := (emitted getChainInfo spokeTokenTable).
Local Abbreviation route := (route_of spokeTokenTable).

Lemma joinRoutes_nested spokeData :
  joinRoutes getChainInfo spokeTokenTable spokeData =
  flat_map
    (fun d =>
       flat_map
         (fun entry : numeral * list string =>
            flat_map (fun token => emit (d, fst entry, token)) (snd entry))
         (JsObject.entries (sd_routes d)))
    spokeData.
Proof.
  rewrite joinRoutes_flat_map. unfold enabled_triples.
  rewrite flat_map_flat_map. apply flat_map_ext. intros d.
  rewrite flat_map_flat_map. apply flat_map_ext. intros [destination tokens].
  simpl. now rewrite flat_map_map.
Qed.

Lemma emitted_fields d destination token r :
  In r (emit (d, destination, token)) ->
  fromChain r = Number_ (sd_fromChain d) /\
  toChain r = Number_ destination /\
  fromTokenAddress r = token /\
  l1TokenAddress r = JsObject.get spokeTokenTable token.
Proof.
  rewrite emitted_cases.
  destruct (String.eqb token (sd_wrappedNativeToken d)); simpl;
    intros [<-|[<-|[]]] || intros [<-|[]]; simpl; auto.
Qed.

Lemma same_triple_emitted d destination token :
  filter (same_triple (route d destination token)) (emit (d, destination, token)) =
  emit (d, destination, token).
Proof.
  rewrite emitted_cases. unfold same_triple.
  destruct (String.eqb token (sd_wrappedNativeToken d)); simpl;
    now rewrite !N.eqb_refl, String.eqb_refl.
Qed.

(** Among all records of the join, those of one triple are the records that
    triple emitted. *)
Lemma filter_same_triple spokeData d destination token :
  distinct_spokeData spokeData ->
  In (d, destination, token) (enabled_triples spokeData) ->
  (destination <= MAX_SAFE_INTEGER)%N ->
  filter (same_triple (route d destination token))
    (joinRoutes getChainInfo spokeTokenTable spokeData) =
  emit (d, destination, token).
Proof.
  intros [Hchains Hspoke] Hin Hsafe.
  apply In_enabled_triples in Hin as [Hd [tokens [Hentry Htoken]]].
  destruct (Hspoke d Hd) as [Hkeys Htokens].
  rewrite joinRoutes_nested.
  rewrite (filter_flat_map_one _ _ spokeData d);
    [|eapply NoDup_map_NoDup; exact Hchains | exact Hd |].
  - rewrite (filter_flat_map_one _ _ _ (destination, tokens));
      [|eapply NoDup_map_NoDup; exact Hkeys | exact Hentry |].
    + simpl.
      rewrite (filter_flat_map_one _ _ tokens token);
        [|exact (Htokens _ Hentry) | exact Htoken |].
      * apply same_triple_emitted.
      * intros token' _ Hne r Hr.
        apply emitted_fields in Hr as (_ & _ & Htok & _).
        unfold same_triple. simpl. rewrite Htok.
        destruct (String.eqb_spec token token'); [congruence|].
        now rewrite andb_false_r.
    + intros [destination' tokens'] Hentry' Hne r Hr.
      apply in_flat_map in Hr as [token' [_ Hr]]. simpl in Hr.
      apply emitted_fields in Hr as (_ & Hto & _ & _).
      unfold same_triple. simpl. rewrite Hto.
      destruct (N.eqb_spec (Number_ destination) (Number_ destination')) as [Heq|];
        [|now rewrite andb_false_r].
      exfalso. apply Hne.
      symmetry in Heq. apply (Number_inj_safe _ _ Hsafe) in Heq.
      apply (NoDup_map_eq fst _ _ _ Hkeys Hentry' Hentry). exact Heq.
  - intros d' Hd' Hne r Hr.
    apply in_flat_map in Hr as [[destination' tokens'] [_ Hr]].
    apply in_flat_map in Hr as [token' [_ Hr]]. simpl in Hr.
    apply emitted_fields in Hr as (Hfrom & _ & _ & _).
    unfold same_triple. simpl. rewrite Hfrom.
    destruct (N.eqb_spec (Number_ (sd_fromChain d))
                (Number_ (sd_fromChain d'))) as [Heq|]; [|reflexivity].
    exfalso. apply Hne.
    apply (NoDup_map_eq (fun d => Number_ (sd_fromChain d)) _ _ _
             Hchains Hd' Hd). now symmetry.
Qed.

(** C3. The join emits, triple after triple, the records of each enabled
    (fromChain, toChain, token).  Where the token is the wrapped native token
    of the spoke, the triple adds two records: the route, with
    [isNative = false] and the ERC-20 symbol, and its twin, with
    [isNative = true] and the native-currency symbol of the chain, every
    other field being the same; otherwise it adds the route alone, with
    [isNative = false].  Among spokes of distinct chains, as [fetchRoutes]
    joins them, and for a destination that is a safe integer, the records
    the triple added are all the records of that triple in the output. *)
Theorem join_native_twin
  (spokeData : list SpokeData) (d : SpokeData) (destination : numeral)
  (token : string) :
  In (d, destination, token) (enabled_triples spokeData) ->
  let allRoutes := joinRoutes getChainInfo spokeTokenTable spokeData in
  let r := route d destination token in
  let twin :=
    native_twin r (nativeCurrencySymbol (getChainInfo (sd_fromChain d))) in
  allRoutes = flat_map emit (enabled_triples spokeData) /\
  (token = sd_wrappedNativeToken d ->
   emit (d, destination, token) = [r; twin] /\
   forall routes,
     push_routes getChainInfo spokeTokenTable d destination routes token =
     routes ++ [r; twin]) /\
  (token <> sd_wrappedNativeToken d ->
   emit (d, destination, token) = [r] /\
   forall routes,
     push_routes getChainInfo spokeTokenTable d destination routes token =
     routes ++ [r]) /\
  (distinct_spokeData spokeData ->
   (destination <= MAX_SAFE_INTEGER)%N ->
   filter (same_triple r) allRoutes = emit (d, destination, token)) /\
  isNative r = false /\
  isNative twin = true /\
  fromTokenSymbol r = JsObject.get (sd_symbols d) token /\
  fromTokenSymbol twin =
    Some (nativeCurrencySymbol (getChainInfo (sd_fromChain d))) /\
  fromChain twin = fromChain r /\
  toChain twin = toChain r /\
  fromTokenAddress twin = fromTokenAddress r /\
  fromSpokeAddress twin = fromSpokeAddress r /\
  l1TokenAddress twin = l1TokenAddress r.
Proof.
  intros Hin allRoutes r twin.
  split; [apply joinRoutes_flat_map|].
  split; [|split; [|split]].
  - intros ->.
    assert (Hemit : emit (d, destination, sd_wrappedNativeToken d) = [r; twin]).
    { rewrite emitted_cases. fold r twin. now rewrite String.eqb_refl. }
    split; [exact Hemit|].
    intros routes. now rewrite push_routes_app, Hemit.
  - intros Hne.
    assert (Hemit : emit (d, destination, token) = [r]).
    { rewrite emitted_cases. fold r twin.
      destruct (String.eqb_spec token (sd_wrappedNativeToken d));
        [contradiction | reflexivity]. }
    split; [exact Hemit|].
    intros routes. now rewrite push_routes_app, Hemit.
  - intros Hdistinct Hsafe.
    now apply filter_same_triple.
  - repeat split.
Qed.

(** C5. A token enabled on a spoke and absent from the spoke-token table of
    the hub still gets its route record in the join, with [l1TokenAddress]
    undefined, as has every record of that token; the join, a total
    function, raises nothing for the missing mapping. *)
Theorem join_missing_l1Token
  (spokeData : list SpokeData) (d : SpokeData) (destination : numeral)
  (token : string) :
  In (d, destination, token) (enabled_triples spokeData) ->
  JsObject.get spokeTokenTable token = None ->
  In {| fromChain := Number_ (sd_fromChain d);
        toChain := Number_ destination;
        fromTokenAddress := token;
        fromSpokeAddress := sd_fromSpokeAddress d;
        fromTokenSymbol := JsObject.get (sd_symbols d) token;
        isNative := false;
        l1TokenAddress := None |}
     (joinRoutes getChainInfo spokeTokenTable spokeData) /\
  forall r, In r (joinRoutes getChainInfo spokeTokenTable spokeData) ->
            fromTokenAddress r = token -> l1TokenAddress r = None.
Proof.
  intros Hin Hnone. rewrite joinRoutes_flat_map. split.
  - apply in_flat_map. exists (d, destination, token). split; auto.
    rewrite emitted_cases. unfold route_of. rewrite Hnone.
    destruct (String.eqb token (sd_wrappedNativeToken d)); now left.
  - intros r Hr Htok.
    apply in_flat_map in Hr as [[[d' destination'] token'] [_ Hr]].
    apply emitted_fields in Hr as (_ & _ & Htok' & Hl1).
    rewrite Hl1. congruence.
Qed.
End JoinClaims.

Section TheoremInstances.

Lemma routesEnabled_order_dependent_witness :
  (exists table,
      returns SpokePoolUtils.routesEnabled
        (example_spoke [enable_A; disable_A]) table /\
      ~ In "0xA" (tokens_at table (BigNumber_toString 10))) /\
  (exists table,
      returns SpokePoolUtils.routesEnabled
        (example_spoke [disable_A; enable_A]) table /\
      In "0xA" (tokens_at table (BigNumber_toString 10))).
Proof.
  split.
  - apply (proj1 (proj2 routesEnabled_order_dependent)
             (example_spoke [enable_A; disable_A]) []
             enable_A disable_A "0xA" 10%N); reflexivity.
  - apply (proj2 (proj2 routesEnabled_order_dependent)
             (example_spoke [disable_A; enable_A]) []
             enable_A disable_A "0xA" 10%N); reflexivity.
Defined.

Lemma disabled_destination_kept_witness :
  JsObject.get (routes_table [enable_A; disable_A]) (BigNumber_toString 10)
  = Some [] /\
  (exists chains,
      returns SpokePoolUtils.getSupportedChains
        (example_spoke [enable_A; disable_A]) chains /\
      In (Number_ (BigNumber_toString 10)) chains) /\
  (exists tokens,
      returns SpokePoolUtils.getSupportedTokens
        (example_spoke [enable_A; disable_A]) tokens /\
      (forall x, In x tokens <->
                 exists k l,
                   JsObject.get (routes_table [enable_A; disable_A]) k
                   = Some l /\ In x l) /\
      tokens = union_tokens
                 (JsObject.values
                    (JsObject.delete (routes_table [enable_A; disable_A])
                       (BigNumber_toString 10)))).
Proof.
  apply (disabled_destination_kept
           (example_spoke [enable_A; disable_A]) disable_A "0xA" 10%N
           (routes_table [enable_A; disable_A])).
  - simpl. auto.
  - reflexivity.
  - apply routesEnabled_returns.
  - reflexivity.
Defined.


Lemma fetchEvents_block_ranges_witness :
  snd (HubPoolUtils.fetchEvents hub_chain example_hub []) =
  [ call_getBlockNumber;
    call_incrementalEvents filters_L1TokenEnabledForLiquidityProvision
      0 99 None;
    call_incrementalEvents filters_L2TokenDisabledForLiquidityProvision
      0 99 None;
    call_incrementalEvents filters_SetEnableDepositRoute 0 99 None;
    call_incrementalEvents filters_CrossChainContractsSet 0 99 None;
    call_incrementalEvents filters_SetPoolRebalanceRoute 0 99 None ] /\
  snd (SpokePoolUtils.fetchEvents
         (example_chain spoke_logs (Ok "0xW") (Ok "0xWETH"))
         (example_spoke []) []) =
  [ call_getBlockNumber; call_getNetwork;
    call_incrementalEvents filters_EnabledDepositRoute 0 100 None ].
Proof.
  split.
  - exact (proj1 fetchEvents_block_ranges hub_chain example_hub [] 100%Z
             eq_refl).
  - exact (proj2 fetchEvents_block_ranges
             (example_chain spoke_logs (Ok "0xW") (Ok "0xWETH"))
             (example_spoke []) [] 100%Z 10%N eq_refl eq_refl).
Defined.

Lemma update_wrappedNativeToken_witness :
  SpokePoolUtils.update
    (example_chain spoke_logs (Throw (Rejected "call revert exception"))
       (Ok "0xWETH"))
    (example_spoke []) [] =
  (Ok tt,
   {| SpokePoolUtils.address := "0xSpoke";
      SpokePoolUtils.events := [enable_A; disable_A];
      SpokePoolUtils.wrappedNativeToken :=
        Some "0x4200000000000000000000000000000000000006";
      SpokePoolUtils.startBlock := 0;
      SpokePoolUtils.maxRange := None |},
   [ call_getBlockNumber; call_getNetwork;
     call_incrementalEvents filters_EnabledDepositRoute 0 100 None ]
   ++ [call_wrappedNativeToken]) /\
  SpokePoolUtils.update
    (example_chain spoke_logs (Ok "0xW") (Ok "0xWETH"))
    (example_spoke []) [] =
  (Ok tt,
   {| SpokePoolUtils.address := "0xSpoke";
      SpokePoolUtils.events := [enable_A; disable_A];
      SpokePoolUtils.wrappedNativeToken := Some "0xW";
      SpokePoolUtils.startBlock := 0;
      SpokePoolUtils.maxRange := None |},
   [ call_getBlockNumber; call_getNetwork;
     call_incrementalEvents filters_EnabledDepositRoute 0 100 None ]
   ++ [call_wrappedNativeToken]).
Proof.
  split.
  - exact (proj1 update_wrappedNativeToken
             (example_chain spoke_logs
                (Throw (Rejected "call revert exception")) (Ok "0xWETH"))
             (example_spoke []) [] [enable_A; disable_A]
             (example_spoke [enable_A; disable_A])
             [ call_getBlockNumber; call_getNetwork;
               call_incrementalEvents filters_EnabledDepositRoute 0 100 None ]
             (Rejected "call revert exception") eq_refl eq_refl).
  - exact (proj1 (proj2 update_wrappedNativeToken)
             (example_chain spoke_logs (Ok "0xW") (Ok "0xWETH"))
             (example_spoke []) [] [enable_A; disable_A]
             (example_spoke [enable_A; disable_A])
             [ call_getBlockNumber; call_getNetwork;
               call_incrementalEvents filters_EnabledDepositRoute 0 100 None ]
             "0xW" eq_refl eq_refl).
Defined.
End TheoremInstances.

Section MoreTheoremInstances.

Lemma update_wethAddress_witness :
  HubPoolUtils.getWethAddress hub_chain example_hub [] =
  (Throw (AssertionError "weth address not set"), example_hub, []) /\
  (HubPoolUtils.update
     (example_chain hub_logs (Ok "0xW") (Throw (Rejected "timeout")))
     example_hub [] =
   (Throw (Rejected "timeout"),
    HubPoolUtils.set_events [enable_X; set_spoke; disable_X] example_hub,
    (call_getBlockNumber :: hub_queries example_hub 100) ++ [call_weth]) /\
   HubPoolUtils.wethAddress
     (HubPoolUtils.set_events [enable_X; set_spoke; disable_X] example_hub) =
   HubPoolUtils.wethAddress example_hub) /\
  (HubPoolUtils.update hub_chain example_hub [] =
   (Ok tt,
    HubPoolUtils.set_wethAddress "0xWETH"
      (HubPoolUtils.set_events [enable_X; set_spoke; disable_X] example_hub),
    (call_getBlockNumber :: hub_queries example_hub 100) ++ [call_weth]) /\
   HubPoolUtils.getWethAddress hub_chain
     (HubPoolUtils.set_wethAddress "0xWETH"
        (HubPoolUtils.set_events [enable_X; set_spoke; disable_X]
           example_hub)) [] =
   (Ok "0xWETH",
    HubPoolUtils.set_wethAddress "0xWETH"
      (HubPoolUtils.set_events [enable_X; set_spoke; disable_X] example_hub),
    [])).
Proof.
  split; [|split].
  - apply (proj1 update_wethAddress example_hub hub_chain []).
    apply never_updated_new.
  - exact (proj1 (proj2 update_wethAddress)
             (example_chain hub_logs (Ok "0xW") (Throw (Rejected "timeout")))
             example_hub [] [enable_X; set_spoke; disable_X]
             (HubPoolUtils.set_events [enable_X; set_spoke; disable_X]
                example_hub)
             (call_getBlockNumber :: hub_queries example_hub 100)
             (Rejected "timeout") eq_refl eq_refl).
  - destruct (proj2 (proj2 update_wethAddress)
                hub_chain example_hub [] [enable_X; set_spoke; disable_X]
                (HubPoolUtils.set_events [enable_X; set_spoke; disable_X]
                   example_hub)
                (call_getBlockNumber :: hub_queries example_hub 100)
                "0xWETH" eq_refl eq_refl) as [Hupdate Hget].
    split; [exact Hupdate|]. apply Hget. discriminate.
Defined.

Lemma disabled_l1Token_removed_witness :
  exists table tokens,
    returns HubPoolUtils.getL1LpTokenTable
      (snd (fst (HubPoolUtils.update hub_chain example_hub []))) table /\
    JsObject.get table "0xX" = None /\
    returns HubPoolUtils.getL1Tokens
      (snd (fst (HubPoolUtils.update hub_chain example_hub []))) tokens /\
    ~ In "0xX" tokens.
Proof.
  apply (disabled_l1Token_removed
           (snd (fst (HubPoolUtils.update hub_chain example_hub [])))
           enable_X disable_X "0xX" "0xY").
  - apply hub_reachable_update, hub_reachable_new.
  - simpl. auto.
  - reflexivity.
  - simpl. auto.
  - reflexivity.
  - unfold before. simpl. lia.
  - simpl. intros e Y' [<-|[<-|[<-|[]]]] Ha; try discriminate.
    unfold before. simpl. lia.
Defined.

Lemma join_native_twin_witness :
  filter (same_triple
            (route_of example_spokeTokenTable example_spoke_entry 10%N "0xW"))
    (joinRoutes example_info example_spokeTokenTable example_spokeData) =
  [ route_of example_spokeTokenTable example_spoke_entry 10%N "0xW";
    native_twin
      (route_of example_spokeTokenTable example_spoke_entry 10%N "0xW")
      "ETH" ] /\
  filter (same_triple
            (route_of example_spokeTokenTable example_spoke_entry 10%N "0xT"))
    (joinRoutes example_info example_spokeTokenTable example_spokeData) =
  [ route_of example_spokeTokenTable example_spoke_entry 10%N "0xT" ].
Proof.
  assert (Hdistinct : distinct_spokeData example_spokeData).
  { split.
    - simpl. repeat constructor. simpl. tauto.
    - intros d [<-|[]]. simpl. split.
      + repeat constructor. simpl. tauto.
      + intros entry [<-|[]]. simpl.
        repeat constructor; simpl; intuition discriminate. }
  assert (Hsafe : (10 <= MAX_SAFE_INTEGER)%N)
    by (unfold MAX_SAFE_INTEGER; simpl; lia).
  split.
  - refine (proj1 (proj2 (proj2 (proj2 (join_native_twin
             example_info example_spokeTokenTable example_spokeData
             example_spoke_entry 10%N "0xW" _)))) Hdistinct Hsafe).
    simpl. auto.
  - refine (proj1 (proj2 (proj2 (proj2 (join_native_twin
             example_info example_spokeTokenTable example_spokeData
             example_spoke_entry 10%N "0xT" _)))) Hdistinct Hsafe).
    simpl. auto.
Defined.

Lemma join_missing_l1Token_witness :
  In {| fromChain := 137%N;
        toChain := 10%N;
        fromTokenAddress := "0xT";
        fromSpokeAddress := "0xSpoke";
        fromTokenSymbol := Some "TKN";
        isNative := false;
        l1TokenAddress := None |}
     (joinRoutes example_info example_spokeTokenTable example_spokeData).
Proof.
  refine (proj1 (join_missing_l1Token
            example_info example_spokeTokenTable example_spokeData
            example_spoke_entry 10%N "0xT" _ eq_refl)).
  simpl. auto.
Defined.
End MoreTheoremInstances.

(* ================================================================== *)
(** * What [fetchRoutes] hands to the join *)

Section FetchRoutesJoin.
Import JsObject JsObjectFacts JsSetFacts.

Lemma Promise_all_map {A B} (f : A -> Promise B) (l : list A) (bs : list B) :
  Promise_all (map f l) = Ok bs -> Forall2 (fun a b => f a = Ok b) l bs.
Proof.
  revert bs. induction l as [|a l IH]; simpl; intros bs Hall.
  - inversion Hall. constructor.
  - destruct (f a) as [b|e] eqn:Hfa; simpl in Hall; [|discriminate].
    destruct (Promise_all (map f l)) as [bs'|e]; simpl in Hall;
      [|discriminate].
    inversion Hall; subst. constructor; auto.
Qed.

(** The sets of the fold hold no token twice. *)
Lemma routes_fold_sets_NoDup evs k s :
  get (routes_fold evs) k = Some s -> NoDup s.
Proof.
  revert k s. induction evs as [|e evs IH] using rev_ind; intros k s.
  - discriminate.
  - rewrite routes_fold_snoc.
    destruct (isEnabledDepositRoute e) eqn:He.
    + unfold isEnabledDepositRoute in He.
      destruct (args e) as [| | | | |A d enabled] eqn:Ha; try discriminate.
      destruct (N.eq_dec d k) as [->|Hne].
      * rewrite (routesEnabled_step_at _ _ _ _ _ Ha). cbv zeta.
        intros Hs. inversion Hs; subst.
        assert (Hold : NoDup match get (routes_fold evs) k with
                             | Some s => s
                             | None => JsSet.empty
                             end).
        { destruct (get (routes_fold evs) k) eqn:Hg; [eauto | constructor]. }
        destruct enabled; auto using NoDup_set_add, NoDup_set_delete.
      * rewrite (routesEnabled_step_ne _ _ _ _ _ _ Ha Hne). apply IH.
    + rewrite routesEnabled_step_other by exact He. apply IH.
Qed.

Lemma routes_table_distinct evs :
  NoDup (map fst (entries (routes_table evs))) /\
  forall entry, In entry (entries (routes_table evs)) -> NoDup (snd entry).
Proof.
  split.
  - apply NoDup_entries, routes_table_NoDup.
  - intros [k tokens] Hin. simpl.
    apply (proj1 (In_entries _ _)) in Hin.
    apply In_get in Hin; [|apply routes_table_NoDup].
    rewrite get_routes_table in Hin.
    eapply routes_fold_sets_NoDup; eauto.
Qed.

(** The state of a spoke carries the table [routesEnabled] returned. *)
Lemma getSpokePoolState_routes w pool state :
  run getSpokePoolState w pool = Ok state ->
  exists evs, state_routes state = routes_table evs.
Proof.
  unfold run, getSpokePoolState. unfold bind at 1.
  destruct (SpokePoolUtils.update w pool []) as [[[u|e] s1] t1];
    [|discriminate].
  unfold bind at 1. rewrite routesEnabled_run.
  unfold bind at 1. rewrite (getSupportedTokens_returns s1 w t1).
  unfold bind at 1. unfold get_this at 1.
  destruct (SpokePoolUtils.wrappedNativeToken s1) as [wnt|];
    [|discriminate].
  destruct (truthy (Some wnt)); [|discriminate].
  unfold bind at 1.
  destruct (start_all symbol _ w s1 t1) as [[[started|e] s2] t2];
    [|discriminate].
  unfold bind at 1.
  destruct (await_all started w s2 t2) as [[[pairs|e] s3] t3];
    [|discriminate].
  unfold ret. simpl. intros Hstate. inversion Hstate; subst. simpl. eauto.
Qed.

Lemma fetchSpoke_entry env entry d :
  fetchSpoke env entry = Ok d ->
  sd_fromChain d = fst entry /\
  exists evs, sd_routes d = routes_table evs.
Proof.
  unfold fetchSpoke. destruct entry as [fromChain fromSpokeAddress].
  destruct (isSupportedChainId env (Number_ fromChain)); simpl;
    [|discriminate].
  destruct (run getSpokePoolState _ _) as [state|e] eqn:Hstate; simpl;
    [|discriminate].
  intros Hd. inversion Hd; subst. simpl. split; auto.
  unfold sd_routes. simpl. eapply getSpokePoolState_routes; eauto.
Qed.

(** The keys of the spoke-address table are distinct safe integers. *)
Lemma spokePoolAddresses_keys evs table :
  fold_left
    (fun acc event =>
       result_bind acc
         (fun r => HubPoolUtils.getSpokePoolAddresses_step r event))
    evs (Ok JsObject.empty) = Ok table ->
  NoDup (map fst table) /\
  forall k, In k (map fst table) -> (k <= MAX_SAFE_INTEGER)%N.
Proof.
  revert table. induction evs as [|e evs IH] using rev_ind; intros table.
  - simpl. intros Ht. inversion Ht; subst. split; [constructor|].
    intros k [].
  - rewrite fold_left_app. simpl.
    destruct (fold_left _ evs (Ok JsObject.empty)) as [r|err]; simpl;
      [|discriminate].
    destruct (IH r eq_refl) as [Hnd Hsafe].
    unfold HubPoolUtils.getSpokePoolAddresses_step.
    destruct (isCrossChainContractsSet e); simpl.
    + destruct (args e) as [| | |l2ChainId spokePool| |];
        try (intros Ht; injection Ht as <-; now split).
      unfold BigNumber_toNumber.
      destruct (N.leb_spec l2ChainId MAX_SAFE_INTEGER) as [Hle|Hgt]; simpl;
        intros Ht; [|discriminate].
      injection Ht as <-. split.
      * now apply NoDup_set.
      * intros k Hk. apply keys_set in Hk as [->|Hk]; auto.
    + intros Ht. injection Ht as <-. now split.
Qed.

Lemma Forall2_map_eq {A B C} (f : A -> C) (g : B -> C)
  (l : list A) (l' : list B) :
  Forall2 (fun a b => g b = f a) l l' -> map g l' = map f l.
Proof. induction 1; simpl; congruence. Qed.

(** X23. The routes of a successful [fetchRoutes] are the join of spokes of
    distinct chains, whose route tables have distinct keys and token lists
    without repetition. *)
Lemma fetchRoutes_joins_distinct env hubPoolChain override config :
  fetchRoutes env hubPoolChain override = Ok config ->
  exists spokeTokenTable spokeData,
    routes config = joinRoutes (getChainInfo env) spokeTokenTable spokeData /\
    distinct_spokeData spokeData.
Proof.
  unfold fetchRoutes.
  set (hubPoolAddress := match override with
                         | Some a => _
                         | None => _
                         end).
  destruct (run _ (connect env hubPoolChain hubPoolAddress) _)
    as [[[addresses spokeTokenTable] weth]|e] eqn:Hhub; simpl;
    [|discriminate].
  destruct (Promise_all _) as [spokeData|e] eqn:Hspokes; simpl;
    [|discriminate].
  intros Hconfig. inversion Hconfig; subst. simpl.
  exists spokeTokenTable, spokeData. split; auto.
  (* the spoke-address table *)
  assert (Hkeys : NoDup (map fst addresses) /\
                  forall k, In k (map fst addresses) ->
                            (k <= MAX_SAFE_INTEGER)%N).
  { revert Hhub. unfold run. unfold bind at 1.
    destruct (HubPoolUtils.update _ _ []) as [[[u|e] s1] t1];
      [|discriminate].
    unfold bind at 1. unfold HubPoolUtils.getSpokePoolAddresses at 1.
    unfold bind at 1, get_this at 1, lift at 1.
    destruct (fold_left _ (HubPoolUtils.events s1) (Ok JsObject.empty))
      as [table|e] eqn:Hfold; [|discriminate].
    unfold bind at 1. unfold HubPoolUtils.getSpokeTokenTable at 1.
    unfold bind at 1, get_this at 1, ret at 1.
    unfold bind at 1.
    destruct (HubPoolUtils.getWethAddress _ s1 t1) as [[[a|e] s2] t2];
      [|discriminate].
    unfold ret. simpl. intros Heq. inversion Heq; subst.
    eapply spokePoolAddresses_keys; eauto. }
  destruct Hkeys as [Hnd Hsafe].
  apply Promise_all_map in Hspokes.
  assert (Hfrom : map sd_fromChain spokeData = map fst (entries addresses)).
  { apply Forall2_map_eq. eapply Forall2_impl; [|exact Hspokes].
    intros entry d Hd. now apply fetchSpoke_entry in Hd as [Hd _]. }
  split.
  - rewrite <- (map_map sd_fromChain Number_), Hfrom.
    rewrite (map_ext_in Number_ (fun k => k)), map_id.
    + now apply NoDup_entries.
    + intros k Hk. apply Number_safe, Hsafe.
      eapply Permutation_in; [|exact Hk].
      apply Permutation_map, entries_Permutation.
  - intros d Hd.
    assert (Hex : exists entry, fetchSpoke env entry = Ok d).
    { clear - Hspokes Hd. induction Hspokes as [|a b l l' Hab _ IH];
        [contradiction|].
      destruct Hd as [<-|Hd]; eauto. }
    destruct Hex as [entry Hentry].
    apply fetchSpoke_entry in Hentry as [_ [evs Hroutes]].
    rewrite Hroutes. apply routes_table_distinct.
Qed.
End FetchRoutesJoin.

(* ================================================================== *)
(** * Any comparison sort raises the duplicate-event error on a tie *)

Section AnySorter.
Local Open Scope Z_scope.
Local Abbreviation cmp := HubPoolUtils.compareEvents.

Lemma nth_error_combine_seq {A} (a : list A) (s i : nat) :
  nth_error (combine (seq s (List.length a)) a) i =
  option_map (fun e => ((s + i)%nat, e)) (nth_error a i).
Proof.
  revert s i. induction a as [|x a IH]; intros s i; simpl.
  - now destruct i.
  - destruct i as [|i]; simpl.
    + now rewrite Nat.add_0_r.
    + rewrite IH. now rewrite Nat.add_succ_r.
Qed.

Lemma nth_error_spread up a i :
  nth_error (spread up a) i =
  option_map (shift_logIndex (Z.of_nat (List.length a))
                (offset_of up (List.length a) i)) (nth_error a i).
Proof.
  unfold spread. rewrite nth_error_map, nth_error_combine_seq.
  now destruct (nth_error a i).
Qed.

Lemma length_spread up a : List.length (spread up a) = List.length a.
Proof.
  unfold spread. rewrite length_map, length_combine, length_seq.
  apply Nat.min_id.
Qed.

Lemma offset_range up n i : (i < n)%nat -> 0 <= offset_of up n i < Z.of_nat n.
Proof. unfold offset_of. destruct up; lia. Qed.

Lemma shift_key_inj n o o' e e' :
  0 <= o < n -> 0 <= o' < n ->
  ordering_key (shift_logIndex n o e) = ordering_key (shift_logIndex n o' e')
  -> o = o'.
Proof.
  unfold ordering_key, shift_logIndex. simpl. intros Ho Ho' Heq.
  inversion Heq as [[Hb Ht Hl]].
  assert (Hmod : forall l r, 0 <= r < n -> (l * n + r) mod n = r).
  { intros l r Hr. rewrite Z.add_comm, Z.mod_add by lia.
    now apply Z.mod_small. }
  rewrite <- (Hmod (logIndex e) o Ho), <- (Hmod (logIndex e') o' Ho').
  now rewrite Hl.
Qed.

(** Shifting keeps the order of events whose keys differ. *)
Lemma shift_before n o o' e e' :
  0 <= o < n -> 0 <= o' < n ->
  before e e' -> before (shift_logIndex n o e) (shift_logIndex n o' e').
Proof.
  unfold before, ordering_key, shift_logIndex, key_lt. simpl. intros Ho Ho' H.
  destruct H as [H|[H1 [H|[H2 H3]]]]; [now left | right; split; auto |].
  right. split; auto. right. split; auto. nia.
Qed.

(** And orders tied events by their offsets. *)
Lemma shift_tied n o o' e e' :
  ordering_key e = ordering_key e' -> o < o' ->
  before (shift_logIndex n o e) (shift_logIndex n o' e').
Proof.
  unfold before, ordering_key, shift_logIndex, key_lt. simpl. intros Heq Ho.
  inversion Heq as [[Hb Ht Hl]]. right. split; auto. right. split; auto. lia.
Qed.

Lemma spread_NoDup up a : NoDup (map ordering_key (spread up a)).
Proof.
  apply (proj2 (NoDup_nth_error _)). intros i j Hi Heq.
  rewrite length_map, length_spread in Hi.
  rewrite !nth_error_map, !nth_error_spread in Heq.
  destruct (nth_error a i) as [x|] eqn:Hx;
    [|apply nth_error_None in Hx; lia].
  destruct (nth_error a j) as [y|] eqn:Hy; [|discriminate].
  assert (Hj : (j < List.length a)%nat) by (apply nth_error_Some; congruence).
  simpl in Heq.
  assert (Hkey : ordering_key
                   (shift_logIndex (Z.of_nat (List.length a))
                      (offset_of up (List.length a) i) x) =
                 ordering_key
                   (shift_logIndex (Z.of_nat (List.length a))
                      (offset_of up (List.length a) j) y)) by congruence.
  apply shift_key_inj in Hkey; try (apply offset_range; lia).
  unfold offset_of in Hkey. destruct up; lia.
Qed.
End AnySorter.

Section AnySorterTie.
Local Abbreviation cmp := HubPoolUtils.compareEvents.

Lemma compareEvents_negative x y :
  before x y -> exists c, cmp x y = Ok c /\ (c <? 0)%Z = true.
Proof.
  intros Hlt. destruct (compareEvents_lt x y Hlt) as [c [Hc Hneg]].
  exists c. split; auto. now apply Z.ltb_lt.
Qed.

Lemma compareEvents_positive x y :
  before y x ->
  exists c, cmp x y = Ok c /\ (c <? 0)%Z = false /\ (0 <? c)%Z = true.
Proof.
  intros Hgt. destruct (compareEvents_gt x y Hgt) as [c [Hc Hpos]].
  exists c. repeat split; auto; [apply Z.ltb_ge; lia | now apply Z.ltb_lt].
Qed.

Lemma In_pick {A} (a : list A) order x :
  In x (pick a order) -> exists i, In i order /\ nth_error a i = Some x.
Proof.
  unfold pick. rewrite in_flat_map. intros [i [Hi Hx]]. exists i.
  split; auto. destruct (nth_error a i); [|contradiction].
  destruct Hx as [->|[]]. reflexivity.
Qed.

Lemma pick_pair {A} (a : list A) l1 u l2 v l3 xu xv :
  nth_error a u = Some xu -> nth_error a v = Some xv ->
  pick a (l1 ++ u :: l2 ++ v :: l3) =
  pick a l1 ++ xu :: pick a l2 ++ xv :: pick a l3.
Proof.
  intros Hu Hv. unfold pick.
  rewrite flat_map_app. simpl. rewrite Hu. simpl.
  rewrite flat_map_app. simpl. now rewrite Hv.
Qed.

Lemma two_in_split (l : list nat) i j :
  In i l -> In j l -> i <> j ->
  exists l1 l2 l3,
    l = l1 ++ i :: l2 ++ j :: l3 \/ l = l1 ++ j :: l2 ++ i :: l3.
Proof.
  intros Hi Hj Hne. apply in_split in Hi as [l1 [l2 ->]].
  apply in_app_or in Hj as [Hj|[Hj|Hj]]; [|congruence|].
  - apply in_split in Hj as [m1 [m2 ->]].
    exists m1, m2, l2. right. now rewrite <- app_assoc.
  - apply in_split in Hj as [m1 [m2 ->]].
    exists l1, m1, m2. now left.
Qed.

Lemma sorted_pair (l1 l2 l3 : list Event) x y :
  StronglySorted before (l1 ++ x :: l2 ++ y :: l3) -> before x y.
Proof.
  intros Hs. apply StronglySorted_split in Hs.
  rewrite Forall_forall in Hs. apply Hs, in_or_app. right. now left.
Qed.

Lemma tie_indices (a : list Event) :
  ~ NoDup (map ordering_key a) ->
  exists i j x y, (i < j)%nat /\ nth_error a i = Some x /\
                  nth_error a j = Some y /\
                  ordering_key x = ordering_key y.
Proof.
  induction a as [|x a IH]; simpl; intros Hdup.
  - elim Hdup. constructor.
  - destruct (in_dec key_eq_dec (ordering_key x) (map ordering_key a))
      as [Hin|Hnin].
    + apply in_map_iff in Hin as [y [Hkey Hy]].
      apply In_nth_error in Hy as [j Hj].
      exists 0%nat, (S j), x, y. repeat split; auto. lia.
    + destruct IH as (i & j & u & v & Hij & Hu & Hv & Hkey).
      { intros Hnd. apply Hdup. now constructor. }
      exists (S i), (S j), u, v. repeat split; auto. lia.
Qed.

Lemma tied_indices (a : list Event) i j x y :
  nth_error a i = Some x -> nth_error a j = Some y -> i <> j ->
  ordering_key x = ordering_key y -> tied a x.
Proof.
  intros Hx Hy Hne Hkey.
  destruct (nth_error_split a i Hx) as (l1 & l2 & -> & Hlen).
  exists l1, l2. split; auto. rewrite Hkey. apply in_map.
  apply in_or_app. destruct (Nat.lt_ge_cases j i) as [Hlt|Hge].
  - left. rewrite nth_error_app1 in Hy by lia. eapply nth_error_In; eauto.
  - right. rewrite nth_error_app2 in Hy by lia.
    destruct (j - List.length l1)%nat as [|k] eqn:Hk; [lia|].
    simpl in Hy. eapply nth_error_In; eauto.
Qed.

(** On a log with a tie, a sorter that does its job on the two logs in which
    the ties are broken by position, forwards and backwards, must compare
    two tied events, and the comparator then raises. *)
Lemma sorter_compares_tied (a : list Event) (s : Sorter) :
  (exists i j x y, (i < j)%nat /\ nth_error a i = Some x /\
                   nth_error a j = Some y /\
                   ordering_key x = ordering_key y) ->
  forall up_sorted down_sorted,
    run_sorter cmp (spread true a) s = Ok up_sorted ->
    Permutation (spread true a) up_sorted ->
    StronglySorted before up_sorted ->
    run_sorter cmp (spread false a) s = Ok down_sorted ->
    StronglySorted before down_sorted ->
    exists x, tied a x /\
              run_sorter cmp a s =
              Throw (Error (HubPoolUtils.duplicate_message
                              (transactionHash x))).
Proof.
  intros (i & j & x & y & Hij & Hx & Hy & Hkey).
  assert (Hi : (i < List.length a)%nat) by (apply nth_error_Some; congruence).
  assert (Hj : (j < List.length a)%nat) by (apply nth_error_Some; congruence).
  induction s as [order|u v neg IHneg zero IHzero pos IHpos];
    intros up_sorted down_sorted Hup Hperm Hsup Hdown Hsdown; simpl in *.
  - (* the arrangement is fixed without looking at the tie *)
    exfalso. inversion Hup; subst up_sorted. inversion Hdown; subst down_sorted.
    set (n := Z.of_nat (List.length a)) in *.
    set (xu := shift_logIndex n (offset_of true (List.length a) i) x).
    set (yu := shift_logIndex n (offset_of true (List.length a) j) y).
    assert (Hxu : nth_error (spread true a) i = Some xu)
      by (rewrite nth_error_spread, Hx; reflexivity).
    assert (Hyu : nth_error (spread true a) j = Some yu)
      by (rewrite nth_error_spread, Hy; reflexivity).
    assert (Hxd : nth_error (spread false a) i =
                  Some (shift_logIndex n (offset_of false (List.length a) i) x))
      by (rewrite nth_error_spread, Hx; reflexivity).
    assert (Hyd : nth_error (spread false a) j =
                  Some (shift_logIndex n (offset_of false (List.length a) j) y))
      by (rewrite nth_error_spread, Hy; reflexivity).
    assert (Hin : forall k z, nth_error (spread true a) k = Some z ->
                              In k order).
    { intros k z Hk.
      assert (Hz : In z (pick (spread true a) order)).
      { eapply Permutation_in; [exact Hperm|]. eapply nth_error_In; eauto. }
      apply In_pick in Hz as [k' [Hk' Hz]].
      replace k with k'; auto.
      pose proof (spread_NoDup true a) as Hnd.
      apply NoDup_map_NoDup in Hnd.
      apply (proj1 (NoDup_nth_error _) Hnd).
      - apply nth_error_Some. congruence.
      - congruence. }
    destruct (two_in_split order i j (Hin i _ Hxu) (Hin j _ Hyu))
      as (l1 & l2 & l3 & [Horder|Horder]); [lia| |]; subst order.
    + rewrite (pick_pair _ _ _ _ _ _ _ _ Hxd Hyd) in Hsdown.
      apply sorted_pair in Hsdown.
      assert (Hoff : (offset_of false (List.length a) j <
                      offset_of false (List.length a) i)%Z)
        by (unfold offset_of; lia).
      apply (before_irrefl _ _ eq_refl
               (before_trans _ _ _ Hsdown
                  (shift_tied n _ _ y x (eq_sym Hkey) Hoff))).
    + rewrite (pick_pair _ _ _ _ _ _ _ _ Hyu Hxu) in Hsup.
      apply sorted_pair in Hsup.
      assert (Hoff : (offset_of true (List.length a) i <
                      offset_of true (List.length a) j)%Z)
        by (unfold offset_of; lia).
      apply (before_irrefl _ _ eq_refl
               (before_trans _ _ _ Hsup
                  (shift_tied n _ _ x y Hkey Hoff))).
  - (* one more comparison *)
    rewrite !nth_error_spread in Hup, Hdown.
    destruct (nth_error a u) as [eu|] eqn:Heu; [|discriminate].
    destruct (nth_error a v) as [ev|] eqn:Hev; [|discriminate].
    cbn [option_map] in Hup, Hdown.
    assert (Hu : (u < List.length a)%nat)
      by (apply nth_error_Some; congruence).
    assert (Hv : (v < List.length a)%nat)
      by (apply nth_error_Some; congruence).
    destruct (key_trichotomy (ordering_key eu) (ordering_key ev))
      as [Hlt|[Heq|Hgt]].
    + destruct (compareEvents_negative eu ev Hlt) as [c [-> ->]].
      destruct (compareEvents_negative _ _
                  (shift_before (Z.of_nat (List.length a)) _ _ eu ev
                     (offset_range true _ u Hu) (offset_range true _ v Hv)
                     Hlt)) as [c1 [Hc1 Hn1]].
      destruct (compareEvents_negative _ _
                  (shift_before (Z.of_nat (List.length a)) _ _ eu ev
                     (offset_range false _ u Hu) (offset_range false _ v Hv)
                     Hlt)) as [c2 [Hc2 Hn2]].
      rewrite Hc1, Hn1 in Hup. rewrite Hc2, Hn2 in Hdown.
      eapply IHneg; eauto.
    + exists eu. split.
      * apply (tied_indices a u v eu ev); auto.
        intros ->. assert (eu = ev) by congruence. subst ev.
        rewrite compareEvents_tie in Hup by reflexivity. discriminate.
      * now rewrite (compareEvents_tie eu ev Heq).
    + destruct (compareEvents_positive eu ev Hgt) as [c [-> [-> ->]]].
      destruct (compareEvents_positive _ _
                  (shift_before (Z.of_nat (List.length a)) _ _ ev eu
                     (offset_range true _ v Hv) (offset_range true _ u Hu)
                     Hgt)) as [c1 [Hc1 [Hn1 Hp1]]].
      destruct (compareEvents_positive _ _
                  (shift_before (Z.of_nat (List.length a)) _ _ ev eu
                     (offset_range false _ v Hv) (offset_range false _ u Hu)
                     Hgt)) as [c2 [Hc2 [Hn2 Hp2]]].
      rewrite Hc1, Hn1, Hp1 in Hup. rewrite Hc2, Hn2, Hp2 in Hdown.
      eapply IHpos; eauto.
Qed.

(** X22. Whatever comparison sort the engine runs, provided it sorts the
    logs with unique keys, a log with a tie ends in the duplicate-event
    error that names a tied event. *)
Theorem any_sorter_raises_on_tie (s : Sorter) (a : list Event) :
  sorts_unique_logs s (List.length a) ->
  ~ NoDup (map ordering_key a) ->
  exists x, tied a x /\
            run_sorter cmp a s =
            Throw (Error ("Duplicate events found on transaction: " ++
                          transactionHash x)%string).
Proof.
  intros Hsorts Hdup.
  change (exists x, tied a x /\
            run_sorter cmp a s =
            Throw (Error (HubPoolUtils.duplicate_message (transactionHash x)))).
  destruct (Hsorts (spread true a) (length_spread true a)
              (spread_NoDup true a)) as (up_sorted & Hup & Hperm & Hsup).
  destruct (Hsorts (spread false a) (length_spread false a)
              (spread_NoDup false a)) as (down_sorted & Hdown & _ & Hsdown).
  eapply sorter_compares_tied; eauto using tie_indices.
Qed.
End AnySorterTie.

(* ================================================================== *)
(** * Instances: a sorter of two, and a run of [fetchRoutes] *)

Section Instances.
Local Abbreviation cmp := HubPoolUtils.compareEvents.

Lemma sort_two_sorts : sorts_unique_logs sort_two 2.
Proof.
  intros [|x [|y [|z a]]] Hlen Hnd; try discriminate.
  simpl in Hnd. inversion Hnd as [|? ? Hx _]; subst. simpl in Hx.
  unfold sort_two. simpl.
  destruct (key_trichotomy (ordering_key x) (ordering_key y))
    as [Hlt|[Heq|Hgt]].
  - destruct (compareEvents_negative x y Hlt) as [c [-> ->]].
    exists [x; y]. split; [reflexivity|]. split; [apply Permutation_refl|].
    constructor; [constructor; constructor|].
    constructor; [exact Hlt | constructor].
  - elim Hx. left. now symmetry.
  - destruct (compareEvents_positive x y Hgt) as [c [-> [-> ->]]].
    exists [y; x]. split; [reflexivity|]. split; [apply perm_swap|].
    constructor; [constructor; constructor|].
    constructor; [exact Hgt | constructor].
Qed.

(** The two events that share the key (5, 0, 0), under the sorter of two. *)
Lemma sort_two_raises :
  exists x, tied [enable_X; clash_X] x /\
            run_sorter cmp [enable_X; clash_X] sort_two =
            Throw (Error ("Duplicate events found on transaction: " ++
                          transactionHash x)%string).
Proof.
  apply (any_sorter_raises_on_tie sort_two [enable_X; clash_X]
           sort_two_sorts).
  simpl. intros Hnd. inversion Hnd as [|? ? Hnotin _]; subst.
  apply Hnotin. now left.
Defined.

(** End to end: one spoke address, one rebalance route, one enabled deposit
    route make one route record. *)
Lemma fetchRoutes_end_to_end :
  fetchRoutes end_to_end_env 1 None =
  Ok {| hubPoolAddress := "0xHub";
        hubPoolChain := 1;
        hubPoolWethAddress := "0xWETH";
        routes :=
          [ {| fromChain := 137;
               toChain := 1;
               fromTokenAddress := "0xToken";
               fromSpokeAddress := "0xSpoke";
               fromTokenSymbol := Some "WETH";
               isNative := false;
               l1TokenAddress := Some "0xL1" |} ] |}.
Proof. vm_compute. reflexivity. Qed.
End Instances.

(* ================================================================== *)
(** * The hub tables: the last event of a key decides *)

Section LastWrite.
Import JsObject JsObjectFacts.

Lemma last_event_snoc p evs e :
  last_event p (evs ++ [e]) = if p e then Some e else last_event p evs.
Proof. unfold last_event. now rewrite rev_unit. Qed.

Lemma last_event_Some p evs e :
  last_event p evs = Some e -> In e evs /\ p e = true.
Proof.
  unfold last_event. intros Hfind. apply find_some in Hfind as [Hin Hp].
  split; auto. now apply in_rev.
Qed.

(** A fold in which an event either leaves what is observed of a key alone
    or overwrites it: the last event that writes decides. *)
Lemma fold_last_write {T V} (step : T -> Event -> T) (init : T)
  (observe : T -> option V) (writes : Event -> bool)
  (write : Event -> option V) :
  observe init = None ->
  (forall r e, writes e = false -> observe (step r e) = observe r) ->
  (forall r e, writes e = true -> observe (step r e) = write e) ->
  forall evs,
    observe (fold_left step evs init) =
    match last_event writes evs with
    | Some e => write e
    | None => None
    end.
Proof.
  intros Hinit Hkeep Hwrite evs.
  induction evs as [|e evs IH] using rev_ind; [exact Hinit|].
  rewrite fold_left_app, last_event_snoc. simpl.
  destruct (writes e) eqn:He; [now apply Hwrite|].
  now rewrite Hkeep.
Qed.

Lemma getSpokeTokenTable_returns this :
  returns HubPoolUtils.getSpokeTokenTable this
    (fold_left HubPoolUtils.getSpokeTokenTable_step
       (HubPoolUtils.events this) JsObject.empty).
Proof. intros w t. reflexivity. Qed.

(** X1. [getSpokeTokenTable] maps a destination token to the L1 token of the
    last [SetPoolRebalanceRoute] event that names it, whatever the
    destination chain of that event; a token no such event names has no
    entry. *)
Theorem getSpokeTokenTable_last_write (this : HubPoolUtils.t) :
  exists table,
    returns HubPoolUtils.getSpokeTokenTable this table /\
    forall token l1Token,
      get table token = Some l1Token <->
      exists e destinationChainId,
        last_event (about_destinationToken token) (HubPoolUtils.events this)
        = Some e /\
        args e = SetPoolRebalanceRoute destinationChainId l1Token token.
Proof.
  eexists. split; [apply getSpokeTokenTable_returns|].
  intros token l1Token.
  rewrite (fold_last_write HubPoolUtils.getSpokeTokenTable_step JsObject.empty
             (fun r => get r token) (about_destinationToken token)
             (fun e => match args e with
                       | SetPoolRebalanceRoute _ l1 _ => Some l1
                       | _ => None
                       end)).
  - destruct (last_event _ _) as [e|] eqn:Hlast.
    + apply last_event_Some in Hlast as [_ Habout].
      unfold about_destinationToken in Habout.
      destruct (args e) as [| | | |d l1 tok|] eqn:Ha; try discriminate.
      apply String.eqb_eq in Habout. subst tok. split.
      * intros Heq. inversion Heq; subst. eauto.
      * intros (e' & d' & He' & Ha'). inversion He'; subst e'.
        rewrite Ha in Ha'. now inversion Ha'.
    + split; [discriminate|]. intros (e' & d' & He' & _). discriminate.
  - reflexivity.
  - intros r e Habout. unfold HubPoolUtils.getSpokeTokenTable_step,
      isSetPoolRebalanceRoute. unfold about_destinationToken in Habout.
    destruct (args e) as [| | | |d l1 tok|]; simpl; auto.
    apply get_set_ne. intros ->. now rewrite String.eqb_refl in Habout.
  - intros r e Habout. unfold HubPoolUtils.getSpokeTokenTable_step,
      isSetPoolRebalanceRoute. unfold about_destinationToken in Habout.
    destruct (args e) as [| | | |d l1 tok|]; simpl; try discriminate.
    apply String.eqb_eq in Habout. subst tok. apply get_set_eq.
Qed.

(** X2. [getL1LpTokenTable] maps an L1 token to the LP token of the last
    event about it, provided that event is an enable: a disable, or no
    event at all, leaves no entry. *)
Theorem getL1LpTokenTable_last_event (this : HubPoolUtils.t) :
  exists table,
    returns HubPoolUtils.getL1LpTokenTable this table /\
    forall X Y,
      get table X = Some Y <->
      exists e,
        last_event (about_l1Token X) (HubPoolUtils.events this) = Some e /\
        args e = L1TokenEnabledForLiquidityProvision X Y.
Proof.
  exists (l1lp_fold (HubPoolUtils.events this)).
  split; [intros w t; reflexivity|].
  intros X Y. unfold l1lp_fold.
  rewrite (fold_last_write HubPoolUtils.getL1LpTokenTable_step JsObject.empty
             (fun r => get r X) (about_l1Token X)
             (fun e => match args e with
                       | L1TokenEnabledForLiquidityProvision _ lp => Some lp
                       | _ => None
                       end)).
  - destruct (last_event _ _) as [e|] eqn:Hlast.
    + apply last_event_Some in Hlast as [_ Habout].
      unfold about_l1Token in Habout. split.
      * intros Heq.
        destruct (args e) as [l1 lp| | | | |] eqn:Ha; try discriminate.
        apply String.eqb_eq in Habout. subst l1.
        inversion Heq; subst. eauto.
      * intros (e' & He' & Ha'). inversion He'; subst e'. now rewrite Ha'.
    + split; [discriminate|]. intros (e' & He' & _). discriminate.
  - reflexivity.
  - intros r e Habout. unfold HubPoolUtils.getL1LpTokenTable_step,
      isL1TokenEnabledForLiquidityProvision,
      isL2TokenDisabledForLiquidityProvision.
    unfold about_l1Token in Habout.
    destruct (args e) as [l1 lp|l1| | | |]; simpl; auto.
    + apply get_set_ne. intros ->. now rewrite String.eqb_refl in Habout.
    + apply get_delete_ne. intros ->. now rewrite String.eqb_refl in Habout.
  - intros r e Habout. unfold HubPoolUtils.getL1LpTokenTable_step,
      isL1TokenEnabledForLiquidityProvision,
      isL2TokenDisabledForLiquidityProvision.
    unfold about_l1Token in Habout.
    destruct (args e) as [l1 lp|l1| | | |]; simpl; try discriminate;
      apply String.eqb_eq in Habout; subst l1.
    + apply get_set_eq.
    + apply get_delete_eq.
Qed.
End LastWrite.

Section SpokePoolAddresses.
Import JsObject JsObjectFacts.

Lemma getSpokePoolAddresses_run w this t :
  HubPoolUtils.getSpokePoolAddresses w this t =
  (addresses_of (HubPoolUtils.events this), this, t).
Proof. reflexivity. Qed.

(** The fold of [getSpokePoolAddresses] either writes every spoke address,
    all chain ids being safe integers, or stops at the first chain id that
    is not, on the numeric fault of that id. *)
Lemma addresses_of_cases evs :
  (exists pre e0 post id0 spoke0,
      evs = pre ++ e0 :: post /\
      (forall e id spoke, In e pre -> args e = CrossChainContractsSet id spoke ->
                          (id <= MAX_SAFE_INTEGER)%N) /\
      args e0 = CrossChainContractsSet id0 spoke0 /\
      (MAX_SAFE_INTEGER < id0)%N /\
      addresses_of evs =
      Throw (NumericFault "overflow" "toNumber" (numeral_string id0))) \/
  (addresses_of evs =
   Ok (fold_left
         (fun r e => match args e with
                     | CrossChainContractsSet id spoke =>
                         set r (number_key id) spoke
                     | _ => r
                     end) evs JsObject.empty) /\
   forall e id spoke, In e evs -> args e = CrossChainContractsSet id spoke ->
                      (id <= MAX_SAFE_INTEGER)%N).
Proof.
  unfold addresses_of. induction evs as [|e evs IH] using rev_ind.
  - right. split; [reflexivity|]. intros e id spoke [].
  - rewrite !fold_left_app. simpl.
    destruct IH as [(pre & e0 & post & id0 & spoke0 & -> & Hpre & Ha & Hbig
                     & Hthrow)
                   |[Hok Hsafe]].
    + left. rewrite Hthrow.
      exists pre, e0, (post ++ [e]), id0, spoke0.
      rewrite <- app_assoc. simpl. repeat split; auto.
    + rewrite Hok. simpl.
      unfold HubPoolUtils.getSpokePoolAddresses_step, isCrossChainContractsSet.
      destruct (args e) as [| | |id spoke| |] eqn:Ha; simpl;
        try (right; split; [reflexivity|];
             intros e' id' spoke' Hin' Ha';
             apply in_app_or in Hin' as [Hin'|[<-|[]]];
             [eapply Hsafe; eauto | congruence]).
      unfold BigNumber_toNumber, BigNumber_toString.
      destruct (N.leb_spec id MAX_SAFE_INTEGER) as [Hle|Hgt]; simpl.
      * right. split; [reflexivity|].
        intros e' id' spoke' Hin' Ha'.
        apply in_app_or in Hin' as [Hin'|[<-|[]]]; [eapply Hsafe; eauto|].
        rewrite Ha in Ha'. inversion Ha'; subst. exact Hle.
      * left. exists evs, e, [], id, spoke. repeat split; auto.
Qed.

(** An unsafe chain id anywhere in the log rules out the second case. *)
Lemma addresses_of_unsafe evs :
  (exists e id spoke,
      In e evs /\ args e = CrossChainContractsSet id spoke /\
      (MAX_SAFE_INTEGER < id)%N) ->
  exists pre e0 post id0 spoke0,
    evs = pre ++ e0 :: post /\
    (forall e id spoke, In e pre -> args e = CrossChainContractsSet id spoke ->
                        (id <= MAX_SAFE_INTEGER)%N) /\
    args e0 = CrossChainContractsSet id0 spoke0 /\
    (MAX_SAFE_INTEGER < id0)%N /\
    addresses_of evs =
    Throw (NumericFault "overflow" "toNumber" (numeral_string id0)).
Proof.
  intros (e & id & spoke & Hin & Ha & Hbig).
  destruct (addresses_of_cases evs) as [Hfirst|[_ Hsafe]]; [exact Hfirst|].
  specialize (Hsafe e id spoke Hin Ha). lia.
Qed.

(** X3. While every [CrossChainContractsSet] event carries a chain id that
    is a safe integer, [getSpokePoolAddresses] maps a chain id to the spoke
    address of the last event for that chain.  A single event whose chain id
    is beyond the safe integers makes the view fail, whatever the other
    events say: it throws the numeric fault that [toNumber] raises,
    [overflow], whose value is the decimal numeral of the first such chain
    id of the log. *)
Theorem getSpokePoolAddresses_last_write (this : HubPoolUtils.t) :
  ((forall e id spoke,
       In e (HubPoolUtils.events this) ->
       args e = CrossChainContractsSet id spoke ->
       (id <= MAX_SAFE_INTEGER)%N) ->
   exists table,
     returns HubPoolUtils.getSpokePoolAddresses this table /\
     forall id spoke,
       get table (number_key id) = Some spoke <->
       exists e,
         last_event (about_l2Chain id) (HubPoolUtils.events this) = Some e /\
         args e = CrossChainContractsSet id spoke) /\
  ((exists e id spoke,
       In e (HubPoolUtils.events this) /\
       args e = CrossChainContractsSet id spoke /\
       (MAX_SAFE_INTEGER < id)%N) ->
   exists pre e0 post id0 spoke0,
     HubPoolUtils.events this = pre ++ e0 :: post /\
     (forall e id spoke,
         In e pre -> args e = CrossChainContractsSet id spoke ->
         (id <= MAX_SAFE_INTEGER)%N) /\
     args e0 = CrossChainContractsSet id0 spoke0 /\
     (MAX_SAFE_INTEGER < id0)%N /\
     forall w t,
       HubPoolUtils.getSpokePoolAddresses w this t =
       (Throw (NumericFault "overflow" "toNumber"
                 (NilZero.string_of_uint (N.to_uint id0))), this, t)).
Proof.
  split.
  - intros Hsafe.
    destruct (addresses_of_cases (HubPoolUtils.events this))
      as [(pre & e0 & post & id0 & spoke0 & Hev & _ & Ha & Hbig & _)
         |[Hok _]].
    { assert (Hin : In e0 (HubPoolUtils.events this)).
      { rewrite Hev. apply in_or_app. right. now left. }
      specialize (Hsafe e0 id0 spoke0 Hin Ha). lia. }
    eexists. split.
    { intros w t. rewrite getSpokePoolAddresses_run, Hok. reflexivity. }
    intros id spoke. unfold number_key.
    rewrite (fold_last_write
               (fun r e => match args e with
                           | CrossChainContractsSet id spoke =>
                               set r (number_key id) spoke
                           | _ => r
                           end) JsObject.empty
               (fun r => get r id) (about_l2Chain id)
               (fun e => match args e with
                         | CrossChainContractsSet _ spoke => Some spoke
                         | _ => None
                         end)).
    + destruct (last_event _ _) as [e|] eqn:Hlast.
      * apply last_event_Some in Hlast as [_ Habout].
        unfold about_l2Chain in Habout.
        destruct (args e) as [| | |id' spoke'| |] eqn:Ha; try discriminate.
        apply N.eqb_eq in Habout. subst id'. split.
        -- intros Heq. inversion Heq; subst. eauto.
        -- intros (e' & He' & Ha'). inversion He'; subst e'.
           rewrite Ha in Ha'. now inversion Ha'.
      * split; [discriminate|]. intros (e' & He' & _). discriminate.
    + reflexivity.
    + intros r e Habout. unfold about_l2Chain in Habout.
      destruct (args e) as [| | |id' spoke'| |]; auto.
      apply get_set_ne. unfold number_key. intros ->.
      now rewrite N.eqb_refl in Habout.
    + intros r e Habout. unfold about_l2Chain in Habout.
      destruct (args e) as [| | |id' spoke'| |]; try discriminate.
      apply N.eqb_eq in Habout. subst id'. apply get_set_eq.
  - intros Hunsafe.
    destruct (addresses_of_unsafe _ Hunsafe)
      as (pre & e0 & post & id0 & spoke0 & Hev & Hpre & Ha & Hbig & Hthrow).
    exists pre, e0, post, id0, spoke0. repeat split; auto.
    intros w t. rewrite getSpokePoolAddresses_run, Hthrow. reflexivity.
Qed.
End SpokePoolAddresses.

Section DepositRoutes.
Import JsObject JsObjectFacts.

Lemma getRoutes_returns this :
  returns HubPoolUtils.getRoutes this
    (fold_left HubPoolUtils.getRoutes_step (HubPoolUtils.events this)
       JsObject.empty).
Proof. intros w t. reflexivity. Qed.

Lemma get_empty {K V} `{PropertyKey K} (k : K) :
  get (@JsObject.empty K V) k = None.
Proof. reflexivity. Qed.

(** One [SetEnableDepositRoute] event writes one cell of the nested table
    and leaves every other cell as it was. *)
Lemma getRoutes_step_lookup result e o' d' token' enabled o d token :
  args e = SetEnableDepositRoute o' d' token' enabled ->
  routes_lookup (HubPoolUtils.getRoutes_step result e) o d token =
  if ((o' =? o)%N && (d' =? d)%N && String.eqb token' token)%bool
  then Some enabled
  else routes_lookup result o d token.
Proof.
  intros Ha. unfold HubPoolUtils.getRoutes_step, isSetEnableDepositRoute.
  rewrite Ha. simpl. unfold routes_lookup, number_key.
  destruct (get result o') as [byDestination|] eqn:Ho';
    [destruct (get byDestination d') as [byToken|] eqn:Hd'|];
    destruct (N.eqb_spec o' o) as [->|Hno];
    destruct (N.eqb_spec d' d) as [->|Hnd];
    destruct (String.eqb_spec token' token) as [->|Hnt];
    cbn [andb];
    repeat first
      [ rewrite get_set_eq
      | rewrite get_empty
      | rewrite get_set_ne by assumption
      | match goal with H : get _ _ = _ |- _ => rewrite H end ];
    reflexivity.
Qed.

(** X4. In the nested table of [getRoutes], the cell of (origin chain,
    destination chain, token) holds the [depositsEnabled] flag of the last
    [SetEnableDepositRoute] event for that triple: a route switched off
    stays in the table, with [false]; a triple no event names has no cell. *)
Theorem getRoutes_last_write (this : HubPoolUtils.t) :
  exists table,
    returns HubPoolUtils.getRoutes this table /\
    forall origin destination token enabled,
      routes_lookup table origin destination token = Some enabled <->
      exists e,
        last_event (about_deposit_route origin destination token)
          (HubPoolUtils.events this) = Some e /\
        args e = SetEnableDepositRoute origin destination token enabled.
Proof.
  eexists. split; [apply getRoutes_returns|].
  intros o d token enabled.
  rewrite (fold_last_write HubPoolUtils.getRoutes_step JsObject.empty
             (fun r => routes_lookup r o d token)
             (about_deposit_route o d token)
             (fun e => match args e with
                       | SetEnableDepositRoute _ _ _ en => Some en
                       | _ => None
                       end)).
  - destruct (last_event _ _) as [e|] eqn:Hlast.
    + apply last_event_Some in Hlast as [_ Habout].
      unfold about_deposit_route in Habout.
      destruct (args e) as [| |o' d' token' en| | |] eqn:Ha; try discriminate.
      apply andb_prop in Habout as [Habout Htoken].
      apply andb_prop in Habout as [Ho Hd].
      apply N.eqb_eq in Ho, Hd. apply String.eqb_eq in Htoken. subst.
      split.
      * intros Heq. inversion Heq; subst. eauto.
      * intros (e' & He' & Ha'). inversion He'; subst e'.
        rewrite Ha in Ha'. now inversion Ha'.
    + split; [discriminate|]. intros (e' & He' & _). discriminate.
  - reflexivity.
  - intros r e Habout. unfold about_deposit_route in Habout.
    destruct (args e) as [| |o' d' token' en| | |] eqn:Ha;
      try (unfold HubPoolUtils.getRoutes_step, isSetEnableDepositRoute;
           now rewrite Ha).
    now rewrite (getRoutes_step_lookup r e o' d' token' en o d token Ha), Habout.
  - intros r e Habout. unfold about_deposit_route in Habout.
    destruct (args e) as [| |o' d' token' en| | |] eqn:Ha; try discriminate.
    now rewrite (getRoutes_step_lookup r e o' d' token' en o d token Ha), Habout.
Qed.
End DepositRoutes.

Section LpTokens.
Import JsObject JsObjectFacts.

Lemma getLpTokens_returns this :
  returns HubPoolUtils.getLpTokens this
    (values (l1lp_fold (HubPoolUtils.events this))).
Proof. intros w t. reflexivity. Qed.

Lemma l1lp_step_NoDup result event :
  NoDup (map fst result) ->
  NoDup (map fst (HubPoolUtils.getL1LpTokenTable_step result event)).
Proof.
  intros Hnd. unfold HubPoolUtils.getL1LpTokenTable_step,
    isL1TokenEnabledForLiquidityProvision,
    isL2TokenDisabledForLiquidityProvision.
  destruct (args event); simpl; auto using NoDup_set, NoDup_delete.
Qed.

Lemma l1lp_fold_NoDup evs : NoDup (map fst (l1lp_fold evs)).
Proof.
  unfold l1lp_fold.
  induction evs as [|e evs IH] using rev_ind; [constructor|].
  rewrite fold_left_app. simpl. now apply l1lp_step_NoDup.
Qed.

(** X5. [getL1Tokens] and [getLpTokens] are two columns of one table: they
    have the same length, the LP token at a position is the one the table of
    [getL1LpTokenTable] gives for the L1 token at that position, no L1 token
    is listed twice, and the L1 tokens listed are the keys of the table. *)
Theorem getL1Tokens_getLpTokens_aligned (this : HubPoolUtils.t) :
  exists table l1Tokens lpTokens,
    returns HubPoolUtils.getL1LpTokenTable this table /\
    returns HubPoolUtils.getL1Tokens this l1Tokens /\
    returns HubPoolUtils.getLpTokens this lpTokens /\
    List.length l1Tokens = List.length lpTokens /\
    NoDup l1Tokens /\
    (forall X, In X l1Tokens <-> get table X <> None) /\
    (forall i X, nth_error l1Tokens i = Some X ->
                 exists Y, nth_error lpTokens i = Some Y /\
                           get table X = Some Y).
Proof.
  exists (l1lp_fold (HubPoolUtils.events this)),
         (keys (l1lp_fold (HubPoolUtils.events this))),
         (values (l1lp_fold (HubPoolUtils.events this))).
  pose proof (l1lp_fold_NoDup (HubPoolUtils.events this)) as Hnd.
  split; [apply getL1LpTokenTable_returns|].
  split; [apply getL1Tokens_returns|].
  split; [apply getLpTokens_returns|].
  split; [unfold keys, values; now rewrite !length_map|].
  split; [now apply NoDup_entries|].
  split; [intros X; apply In_keys|].
  intros i X Hi. unfold keys, values in *.
  rewrite nth_error_map in Hi. rewrite nth_error_map.
  destruct (nth_error (entries _) i) as [[X' Y]|] eqn:He; [|discriminate].
  simpl in Hi. inversion Hi; subst X'. exists Y. split; [reflexivity|].
  apply nth_error_In in He. apply (proj1 (In_entries _ _)) in He.
  now apply In_get.
Qed.
End LpTokens.

Section RoutesEnabledLast.
Import JsObject JsObjectFacts JsSetFacts.

Lemma has_add s a x : JsSet.has (JsSet.add s a) x = (String.eqb x a || JsSet.has s x)%bool.
Proof.
  apply Bool.eq_iff_eq_true.
  rewrite has_In, In_add, Bool.orb_true_iff, String.eqb_eq, has_In. tauto.
Qed.

Lemma has_delete s a x :
  JsSet.has (JsSet.delete s a) x = (negb (String.eqb x a) && JsSet.has s x)%bool.
Proof.
  apply Bool.eq_iff_eq_true.
  rewrite has_In, In_delete, Bool.andb_true_iff, Bool.negb_true_iff, has_In.
  destruct (String.eqb_spec x a); intuition congruence.
Qed.

(** A token is listed for a destination exactly when the last event about
    the pair enables it. *)
Lemma routes_table_last_event evs token destination :
  In token (tokens_at (routes_table evs) destination) <->
  exists e, last_event (about_route token destination) evs = Some e /\
            args e = EnabledDepositRoute token destination true.
Proof.
  rewrite tokens_at_routes_table.
  assert (Hobs :
    (match get (routes_fold evs) destination with
     | Some s => if JsSet.has s token then Some tt else None
     | None => None
     end) =
    match last_event (about_route token destination) evs with
    | Some e => match args e with
                | EnabledDepositRoute _ _ true => Some tt
                | _ => None
                end
    | None => None
    end).
  { unfold routes_fold.
    apply (fold_last_write SpokePoolUtils.routesEnabled_step JsObject.empty
             (fun r => match get r destination with
                       | Some s => if JsSet.has s token then Some tt else None
                       | None => None
                       end)
             (about_route token destination)
             (fun e => match args e with
                       | EnabledDepositRoute _ _ true => Some tt
                       | _ => None
                       end)).
    - reflexivity.
    - intros r e Habout. unfold about_route in Habout.
      destruct (args e) as [| | | | |A d en] eqn:Ha;
        try (rewrite routesEnabled_step_other;
             [reflexivity | unfold isEnabledDepositRoute; now rewrite Ha]).
      destruct (N.eq_dec d destination) as [->|Hne].
      + rewrite N.eqb_refl, Bool.andb_true_r in Habout.
        rewrite (routesEnabled_step_at r e A destination en Ha). cbv zeta.
        destruct en.
        * rewrite has_add, String.eqb_sym, Habout. simpl.
          now destruct (get r destination).
        * rewrite has_delete, String.eqb_sym, Habout. simpl.
          now destruct (get r destination).
      + now rewrite (routesEnabled_step_ne r e A d en destination Ha Hne).
    - intros r e Habout. unfold about_route in Habout.
      destruct (args e) as [| | | | |A d en] eqn:Ha; try discriminate.
      apply andb_prop in Habout as [HA Hd].
      apply String.eqb_eq in HA. apply N.eqb_eq in Hd. subst A d.
      rewrite (routesEnabled_step_at r e token destination en Ha). cbv zeta.
      destruct en.
      + now rewrite has_add, String.eqb_refl.
      + now rewrite has_delete, String.eqb_refl. }
  split.
  - intros Hin.
    destruct (get (routes_fold evs) destination) as [s|]; [|contradiction].
    apply has_In in Hin. rewrite Hin in Hobs.
    destruct (last_event _ _) as [e|] eqn:Hlast; [|discriminate].
    exists e. split; [reflexivity|].
    apply last_event_Some in Hlast as [_ Habout]. unfold about_route in Habout.
    destruct (args e) as [| | | | |A d en]; try discriminate.
    destruct en; [|discriminate].
    apply andb_prop in Habout as [HA Hd].
    apply String.eqb_eq in HA. apply N.eqb_eq in Hd. now subst.
  - intros (e & Hlast & Ha). rewrite Hlast, Ha in Hobs.
    destruct (get (routes_fold evs) destination) as [s|]; [|discriminate].
    apply has_In. now destruct (JsSet.has s token).
Qed.

(** X6. [routesEnabled] lists a token for a destination exactly when the
    last [EnabledDepositRoute] event of the log about that token and that
    destination has [enabled = true]; earlier events about the pair, and
    events about other pairs, do not count.  No list names a token twice. *)
Theorem routesEnabled_last_event (this : SpokePoolUtils.t) :
  exists table,
    returns SpokePoolUtils.routesEnabled this table /\
    (forall destination token,
        In token (tokens_at table (BigNumber_toString destination)) <->
        exists e,
          last_event (about_route token destination)
            (SpokePoolUtils.events this) = Some e /\
          args e = EnabledDepositRoute token destination true) /\
    (forall destination,
        NoDup (tokens_at table (BigNumber_toString destination))).
Proof.
  exists (routes_table (SpokePoolUtils.events this)).
  split; [apply routesEnabled_returns|]. split.
  - intros destination token. apply routes_table_last_event.
  - intros destination. rewrite tokens_at_routes_table.
    destruct (get _ _) as [s|] eqn:Hg; [|constructor].
    exact (routes_fold_sets_NoDup _ _ _ Hg).
Qed.

Lemma NoDup_fold_add value tokens :
  NoDup tokens ->
  NoDup (fold_left (fun tokens token => JsSet.add tokens token) value tokens).
Proof.
  revert tokens. induction value as [|a value IH]; simpl; intros tokens Hnd; auto.
  apply IH. now apply NoDup_set_add.
Qed.

Lemma NoDup_union_tokens lists : NoDup (union_tokens lists).
Proof.
  unfold union_tokens, JsSet.values.
  assert (Hgen : forall tokens, NoDup tokens ->
            NoDup (fold_left
                     (fun tokens value =>
                        fold_left (fun tokens token => JsSet.add tokens token)
                          value tokens) lists tokens)).
  { induction lists as [|l lists IH]; simpl; intros tokens Hnd; auto.
    apply IH. now apply NoDup_fold_add. }
  apply Hgen. constructor.
Qed.

(** X7. [getSupportedTokens] lists each token once, and lists exactly the
    tokens that are enabled for some destination by the last event about
    the token and that destination. *)
Theorem getSupportedTokens_enabled_somewhere (this : SpokePoolUtils.t) :
  exists tokens,
    returns SpokePoolUtils.getSupportedTokens this tokens /\
    NoDup tokens /\
    forall token,
      In token tokens <->
      exists destination e,
        last_event (about_route token destination)
          (SpokePoolUtils.events this) = Some e /\
        args e = EnabledDepositRoute token destination true.
Proof.
  eexists. split; [apply getSupportedTokens_returns|].
  split; [apply NoDup_union_tokens|].
  intros token. rewrite In_union_tokens. split.
  - intros (l & Hl & Hin).
    apply In_values_routes_table in Hl as [k Hk].
    exists k. apply routes_table_last_event. unfold tokens_at. now rewrite Hk.
  - intros (destination & Hlast).
    apply routes_table_last_event in Hlast. unfold tokens_at in Hlast.
    destruct (get (routes_table (SpokePoolUtils.events this)) destination)
      as [l|] eqn:Hg; [|contradiction].
    exists l. split; [|exact Hlast].
    apply In_values_routes_table. now exists destination.
Qed.
End RoutesEnabledLast.

Section KeysOrder.
Import JsObject JsObjectFacts JsObjectOrder.
Context {V : Type}.

Lemma In_place i (e : numeral * V) l x :
  In x (place i e l) <-> x = (i, e) \/ In x l.
Proof.
  split.
  - intros Hin.
    apply (Permutation_in _ (place_Permutation i e l)) in Hin.
    destruct Hin as [<-|Hin]; auto.
  - intros Hin.
    apply (Permutation_in _ (Permutation_sym (place_Permutation i e l))).
    destruct Hin as [->|Hin]; [now left | now right].
Qed.

(** The integer-keyed entries of an object keyed by numerals: in ascending
    order of the key, each filed under its own key. *)
Lemma integer_keyed_numeral (o : JsObject.t numeral V) :
  StronglySorted by_index (integer_keyed o) /\
  Forall (fun x => fst x = fst (snd x)) (integer_keyed o).
Proof.
  unfold integer_keyed.
  induction o as [|e o IH] using rev_ind; simpl.
  - split; constructor.
  - rewrite fold_left_app. simpl. destruct IH as [Hs Hf].
    destruct (N.ltb_spec (fst e) max_array_index); [|now split].
    split; [now apply place_sorted|].
    apply Forall_forall. intros x Hx. apply In_place in Hx as [->|Hx].
    + reflexivity.
    + revert x Hx. now apply Forall_forall.
Qed.

Lemma sorted_le_NoDup_lt (l : list N) :
  StronglySorted N.le l -> NoDup l -> StronglySorted N.lt l.
Proof.
  induction 1 as [|a l Hs IH Hall]; intros Hnd; constructor.
  - apply IH. now inversion Hnd.
  - inversion Hnd as [|? ? Hnotin _]; subst.
    apply Forall_forall. intros x Hx.
    pose proof (proj1 (Forall_forall _ _) Hall x Hx) as Hle.
    assert (a <> x) by (intros ->; contradiction). lia.
Qed.

(** [Object.keys] of an object whose keys are all array indices: ascending. *)
Lemma keys_ascending (o : JsObject.t numeral V) :
  NoDup (map fst o) ->
  (forall k, In k (map fst o) -> (k < max_array_index)%N) ->
  StronglySorted N.lt (keys o).
Proof.
  intros Hnd Hsmall.
  apply sorted_le_NoDup_lt; [|now apply NoDup_entries].
  unfold keys, entries.
  assert (Hnone : string_keyed o = []).
  { unfold string_keyed. apply filter_none. intros e He. simpl.
    destruct (N.ltb_spec (fst e) max_array_index) as [|Hge]; [reflexivity|].
    specialize (Hsmall (fst e) (in_map fst _ _ He)). lia. }
  rewrite Hnone, app_nil_r.
  destruct (integer_keyed_numeral o) as [Hs Hf].
  induction Hs as [|a l Hs IH Hall]; simpl; constructor.
  - apply IH. now inversion Hf.
  - inversion Hf as [|? ? Ha Hl]; subst.
    rewrite map_map. apply Forall_map.
    apply Forall_forall. intros x Hx.
    pose proof (proj1 (Forall_forall _ _) Hall x Hx) as Hle.
    pose proof (proj1 (Forall_forall _ _) Hl x Hx) as Hxk.
    unfold by_index in Hle.
    destruct a as [i [k v]], x as [j [k' v']]. simpl in *. now subst.
Qed.
End KeysOrder.

Section SupportedChains.
Import JsObject JsObjectFacts JsSetFacts.

(** A destination is a key of the fold only if an event names it. *)
Lemma routes_fold_key_named evs d :
  get (routes_fold evs) d <> None ->
  exists e tok enabled,
    In e evs /\ args e = EnabledDepositRoute tok d enabled.
Proof.
  induction evs as [|x evs IH] using rev_ind; [now intros []|].
  rewrite routes_fold_snoc. intros Hk.
  assert (Hold : get (routes_fold evs) d <> None ->
                 exists e tok enabled,
                   In e (evs ++ [x]) /\ args e = EnabledDepositRoute tok d enabled).
  { intros Hg. destruct (IH Hg) as (e & tok & en & Hin & Ha).
    exists e, tok, en. split; auto. apply in_or_app. now left. }
  destruct (isEnabledDepositRoute x) eqn:He.
  - unfold isEnabledDepositRoute in He.
    destruct (args x) as [| | | | |A d' en] eqn:Ha; try discriminate.
    destruct (N.eq_dec d' d) as [->|Hne].
    + exists x, A, en. split; auto. apply in_or_app. right. now left.
    + rewrite (routesEnabled_step_ne _ _ _ _ _ _ Ha Hne) in Hk. auto.
  - rewrite routesEnabled_step_other in Hk; auto.
Qed.

Lemma In_keys_routes_table evs d :
  In d (keys (routes_table evs)) <->
  exists e tok enabled,
    In e evs /\ args e = EnabledDepositRoute tok d enabled.
Proof.
  rewrite In_keys, get_routes_table. split.
  - apply routes_fold_key_named.
  - intros (e & tok & en & Hin & Ha).
    exact (routes_fold_key_created evs e tok d en Hin Ha).
Qed.

(** X8. [getSupportedChains] lists the destination chain of every
    [EnabledDepositRoute] event of the log, whether the event enables or
    disables and whatever came after it, and lists nothing else. *)
Theorem getSupportedChains_named (this : SpokePoolUtils.t) :
  exists chains,
    returns SpokePoolUtils.getSupportedChains this chains /\
    forall c,
      In c chains <->
      exists e tok d enabled,
        In e (SpokePoolUtils.events this) /\
        args e = EnabledDepositRoute tok d enabled /\
        c = Number_ (BigNumber_toString d).
Proof.
  eexists. split; [apply getSupportedChains_returns|].
  intros c. rewrite in_map_iff. unfold BigNumber_toString. split.
  - intros (d & <- & Hd). apply In_keys_routes_table in Hd
      as (e & tok & en & Hin & Ha).
    now exists e, tok, d, en.
  - intros (e & tok & d & en & Hin & Ha & ->). exists d. split; auto.
    apply In_keys_routes_table. now exists e, tok, en.
Qed.

(** X9. When every destination chain id of the log is an array index (below
    [2^32 - 1]), [getSupportedChains] returns the chain ids in strictly
    ascending order, each once, whatever the order of the events. *)
Theorem getSupportedChains_ascending (this : SpokePoolUtils.t) :
  (forall e tok d enabled,
      In e (SpokePoolUtils.events this) ->
      args e = EnabledDepositRoute tok d enabled ->
      (d < max_array_index)%N) ->
  exists chains,
    returns SpokePoolUtils.getSupportedChains this chains /\
    StronglySorted N.lt chains.
Proof.
  intros Hsmall.
  eexists. split; [apply getSupportedChains_returns|].
  assert (Hk : forall k,
             In k (map fst (routes_table (SpokePoolUtils.events this))) ->
             (k < max_array_index)%N).
  { intros k Hin.
    assert (Hkey : In k (keys (routes_table (SpokePoolUtils.events this)))).
    { apply In_keys. intros Hnone.
      apply get_None_not_In in Hnone. contradiction. }
    apply In_keys_routes_table in Hkey as (e & tok & en & Hin' & Ha).
    exact (Hsmall e tok k en Hin' Ha). }
  assert (Hsame : map Number_ (keys (routes_table (SpokePoolUtils.events this)))
                  = keys (routes_table (SpokePoolUtils.events this))).
  { rewrite <- (map_id (keys _)) at 2. apply map_ext_in.
    intros k Hin. apply Number_safe.
    assert (k < max_array_index)%N.
    { apply Hk. apply In_keys in Hin.
      destruct (get_None_not_In (routes_table (SpokePoolUtils.events this)) k)
        as [_ Hback].
      destruct (in_dec N.eq_dec k
                  (map fst (routes_table (SpokePoolUtils.events this))))
        as [Hyes|Hno]; [exact Hyes|]. elim Hin. now apply Hback. }
    unfold max_array_index, MAX_SAFE_INTEGER in *. lia. }
  rewrite Hsame. apply keys_ascending; [apply routes_table_NoDup | exact Hk].
Qed.
End SupportedChains.

Section FetchFailures.

Ltac unfold_async :=
  unfold bind, ret, await, lift, assign, get_this, start,
    getBlockNumber, getNetwork, incrementalEvents.

(** X10. How [HubPoolUtils.fetchEvents] fails.  If the block number cannot
    be read, that error is the outcome and no ranged fetch is issued.  If
    the block number is read and one of the five ranged fetches fails, all
    five requests have gone out all the same, the error is that of the
    first failing kind in the order of the queries, and nothing is sorted.
    In every failure, the duplicate-event error included, the store is left
    exactly as it was. *)
Theorem hub_fetchEvents_failure :
  (forall w (this : HubPoolUtils.t) t e,
      provider_getBlockNumber w = Throw e ->
      HubPoolUtils.fetchEvents w this t =
      (Throw e, this, t ++ [call_getBlockNumber])) /\
  (forall w (this : HubPoolUtils.t) t head e,
      provider_getBlockNumber w = Ok head ->
      Promise_all (hub_fetched w this head) = Throw e ->
      HubPoolUtils.fetchEvents w this t =
      (Throw e, this, t ++ call_getBlockNumber :: hub_queries this head)) /\
  (forall w (this : HubPoolUtils.t) t e this' t',
      HubPoolUtils.fetchEvents w this t = (Throw e, this', t') ->
      this' = this).
Proof.
  split; [|split].
  - intros w this t e Hhead. unfold HubPoolUtils.fetchEvents. unfold_async.
    simpl. now rewrite Hhead.
  - intros w this t head e Hhead Hall.
    unfold HubPoolUtils.fetchEvents. unfold_async. simpl.
    rewrite Hhead. simpl. repeat rewrite <- app_assoc. simpl.
    unfold hub_fetched, HubPoolUtils.hub_filters in Hall. simpl in Hall.
    unfold hub_queries, HubPoolUtils.hub_filters. simpl.
    repeat match goal with
           | |- context [utils_incrementalEvents ?w ?f ?a ?b ?c] =>
               destruct (utils_incrementalEvents w f a b c); simpl in *
           end;
      try discriminate; now inversion Hall.
  - intros w this t e this' t' Hf.
    destruct (hub_fetchEvents_store w this t) as [Hsame|[sorted [_ Hok]]];
      rewrite Hf in *; simpl in *; [now symmetry | discriminate].
Qed.

(** X11. The outcomes of [SpokePoolUtils.fetchEvents].  The block number
    and the network are awaited one after the other before the ranged fetch
    is asked for: if either read fails, that error is the outcome and the
    fetch is never issued, although the network is not used afterwards.  If
    the fetch fails the store keeps its log.  If it succeeds the log is
    replaced by the fetched events as they came, neither sorted nor checked
    for duplicates, and the wrapped native token is not touched. *)
Theorem spoke_fetchEvents_outcomes :
  (forall w (this : SpokePoolUtils.t) t e,
      provider_getBlockNumber w = Throw e ->
      SpokePoolUtils.fetchEvents w this t =
      (Throw e, this, t ++ [call_getBlockNumber])) /\
  (forall w (this : SpokePoolUtils.t) t head e,
      provider_getBlockNumber w = Ok head ->
      provider_getNetwork w = Throw e ->
      SpokePoolUtils.fetchEvents w this t =
      (Throw e, this, t ++ [call_getBlockNumber; call_getNetwork])) /\
  (forall w (this : SpokePoolUtils.t) t head net,
      provider_getBlockNumber w = Ok head ->
      provider_getNetwork w = Ok net ->
      let fetch :=
        call_incrementalEvents filters_EnabledDepositRoute
          (SpokePoolUtils.startBlock this) head (SpokePoolUtils.maxRange this) in
      forall outcome,
        utils_incrementalEvents w filters_EnabledDepositRoute
          (SpokePoolUtils.startBlock this) head (SpokePoolUtils.maxRange this)
        = outcome ->
        SpokePoolUtils.fetchEvents w this t =
        match outcome with
        | Ok evs =>
            (Ok evs,
             {| SpokePoolUtils.address := SpokePoolUtils.address this;
                SpokePoolUtils.events := evs;
                SpokePoolUtils.wrappedNativeToken :=
                  SpokePoolUtils.wrappedNativeToken this;
                SpokePoolUtils.startBlock := SpokePoolUtils.startBlock this;
                SpokePoolUtils.maxRange := SpokePoolUtils.maxRange this |},
             t ++ [call_getBlockNumber; call_getNetwork; fetch])
        | Throw e =>
            (Throw e, this, t ++ [call_getBlockNumber; call_getNetwork; fetch])
        end).
Proof.
  split; [|split].
  - intros w this t e Hhead. unfold SpokePoolUtils.fetchEvents. unfold_async.
    simpl. now rewrite Hhead.
  - intros w this t head e Hhead Hnet.
    unfold SpokePoolUtils.fetchEvents. unfold_async. simpl.
    rewrite Hhead. simpl. rewrite Hnet. simpl.
    now rewrite <- app_assoc.
  - intros w this t head net Hhead Hnet fetch outcome Hout.
    rewrite (spoke_fetchEvents_run w this t head net Hhead Hnet). cbv zeta.
    rewrite Hout. reflexivity.
Qed.

(** X12. Neither store fetches incrementally: the outcome of [fetchEvents]
    and the requests it issues are the same whatever log the store already
    holds, every call asking again for the whole range from [startBlock]. *)
Theorem fetchEvents_ignores_stored_log :
  (forall w (this : HubPoolUtils.t) t (log : list Event),
      let r := HubPoolUtils.fetchEvents w this t in
      let r' :=
        HubPoolUtils.fetchEvents w (HubPoolUtils.set_events log this) t in
      fst (fst r') = fst (fst r) /\ snd r' = snd r /\
      (forall evs, fst (fst r) = Ok evs ->
                   snd (fst r') = snd (fst r))) /\
  (forall w (this : SpokePoolUtils.t) t (log : list Event),
      let r := SpokePoolUtils.fetchEvents w this t in
      let r' :=
        SpokePoolUtils.fetchEvents w (SpokePoolUtils.set_events log this) t in
      fst (fst r') = fst (fst r) /\ snd r' = snd r /\
      (forall evs, fst (fst r) = Ok evs ->
                   snd (fst r') = snd (fst r))).
Proof.
  split.
  - intros w this t log. cbv zeta.
    unfold HubPoolUtils.fetchEvents. unfold_async. simpl.
    destruct (provider_getBlockNumber w); simpl;
      [|repeat split; intros; discriminate].
    repeat match goal with
           | |- context [utils_incrementalEvents ?w ?f ?a ?b ?c] =>
               destruct (utils_incrementalEvents w f a b c); simpl
           end;
      try (repeat split; intros; discriminate).
    match goal with
    | |- context [JsArray.sort ?c ?l] => destruct (JsArray.sort c l); simpl
    end; repeat split; intros; discriminate.
  - intros w this t log. cbv zeta.
    unfold SpokePoolUtils.fetchEvents. unfold_async. simpl.
    destruct (provider_getBlockNumber w); simpl;
      [|repeat split; intros; discriminate].
    destruct (provider_getNetwork w); simpl;
      [|repeat split; intros; discriminate].
    destruct (utils_incrementalEvents w _ _ _ _); simpl;
      repeat split; intros; discriminate.
Qed.
End FetchFailures.

Section HubLogInvariant.
Local Open Scope Z_scope.

Lemma sorted_keys_NoDup (l : list Event) :
  StronglySorted before l -> NoDup (map ordering_key l).
Proof.
  induction 1 as [|a l Hs IH Hall]; simpl; constructor; auto.
  intros Hin. apply in_map_iff in Hin as (x & Hkey & Hx).
  pose proof (proj1 (Forall_forall _ _) Hall x Hx) as Hlt.
  exact (before_irrefl a x (eq_sym Hkey) Hlt).
Qed.

(** X13. The log of a hub store is always in strictly ascending order of
    (block, transaction, log index), and no two of its events share an
    ordering key: this holds of a new store and is kept by every call of
    [update] and [fetchEvents], failed ones included. *)
Theorem hub_log_strictly_ordered (this : HubPoolUtils.t) :
  hub_reachable this ->
  StronglySorted before (HubPoolUtils.events this) /\
  NoDup (map ordering_key (HubPoolUtils.events this)) /\
  NoDup (HubPoolUtils.events this).
Proof.
  intros Hreach. pose proof (hub_reachable_sorted this Hreach) as Hs.
  split; [exact Hs|].
  pose proof (sorted_keys_NoDup _ Hs) as Hnd.
  split; [exact Hnd|]. exact (NoDup_map_NoDup ordering_key _ Hnd).
Qed.

(** X14. The comparator of the hub log is consistent.  On two events with
    different ordering keys it returns a non-zero number whose sign tells
    which key is the smaller, and swapping the arguments negates the
    number; it never returns zero.  On two events with the same ordering key
    it raises the duplicate-event error naming the transaction hash of its
    first argument. *)
Theorem compareEvents_consistent (a b : Event) :
  match HubPoolUtils.compareEvents a b with
  | Ok c =>
      c <> 0 /\
      HubPoolUtils.compareEvents b a = Ok (- c) /\
      (c < 0 <-> before a b) /\
      (0 < c <-> before b a)
  | Throw e =>
      ordering_key a = ordering_key b /\
      e = Error ("Duplicate events found on transaction: " ++
                 transactionHash a)%string
  end.
Proof.
  unfold HubPoolUtils.compareEvents, before, key_lt, ordering_key.
  destruct (Z.eqb_spec (blockNumber a) (blockNumber b)) as [Hb|Hb]; simpl.
  - destruct (Z.eqb_spec (transactionIndex a) (transactionIndex b))
      as [Ht|Ht]; simpl.
    + destruct (Z.eqb_spec (logIndex a) (logIndex b)) as [Hl|Hl]; simpl.
      * split; [congruence | reflexivity].
      * rewrite <- Hb, <- Ht, !Z.eqb_refl. simpl.
        destruct (Z.eqb_spec (logIndex b) (logIndex a)); [congruence|].
        simpl. repeat split; try lia. f_equal. lia.
    + rewrite <- Hb, Z.eqb_refl. simpl.
      destruct (Z.eqb_spec (transactionIndex b) (transactionIndex a));
        [congruence|].
      simpl. repeat split; try lia. f_equal. lia.
  - destruct (Z.eqb_spec (blockNumber b) (blockNumber a)); [congruence|].
    simpl. repeat split; try lia. f_equal. lia.
Qed.
End HubLogInvariant.

Section MoreInstances.

Lemma getSpokePoolAddresses_last_write_witness :
  (exists table,
      returns HubPoolUtils.getSpokePoolAddresses
        (example_hub_log [set_spoke]) table /\
      forall id spoke,
        JsObject.get table (number_key id) = Some spoke <->
        exists e,
          last_event (about_l2Chain id)
            (HubPoolUtils.events (example_hub_log [set_spoke])) = Some e /\
          args e = CrossChainContractsSet id spoke) /\
  HubPoolUtils.getSpokePoolAddresses hub_chain
    (example_hub_log [set_spoke; set_spoke_big]) [] =
  (Throw (NumericFault "overflow" "toNumber" "9007199254740992"),
   example_hub_log [set_spoke; set_spoke_big], []).
Proof.
  split.
  - apply (proj1 (getSpokePoolAddresses_last_write
                    (example_hub_log [set_spoke]))).
    intros e id spoke [<-|[]] Ha. inversion Ha.
    unfold MAX_SAFE_INTEGER. simpl. lia.
  - destruct (proj2 (getSpokePoolAddresses_last_write
                       (example_hub_log [set_spoke; set_spoke_big])))
      as (pre & e0 & post & id0 & spoke0 & _ & _ & _ & _ & Hthrow).
    { exists set_spoke_big, (2 ^ 53)%N, "0xSpoke".
      split; [right; left; reflexivity|]. split; [reflexivity|].
      unfold MAX_SAFE_INTEGER. simpl. lia. }
    assert (Hrun : HubPoolUtils.getSpokePoolAddresses hub_chain
                     (example_hub_log [set_spoke; set_spoke_big]) [] =
                   (Throw (NumericFault "overflow" "toNumber"
                             "9007199254740992"),
                    example_hub_log [set_spoke; set_spoke_big], []))
      by reflexivity.
    pose proof (Hthrow hub_chain []) as Hvalue.
    rewrite Hrun in Hvalue. inversion Hvalue as [Hid].
    rewrite (Hthrow hub_chain []), <- Hid. reflexivity.
Defined.

Lemma getSupportedChains_ascending_witness :
  exists chains,
    returns SpokePoolUtils.getSupportedChains
      (example_spoke [enable_B; enable_A]) chains /\
    StronglySorted N.lt chains.
Proof.
  apply (getSupportedChains_ascending (example_spoke [enable_B; enable_A])).
  intros e tok d enabled [<-|[<-|[]]] Ha; inversion Ha;
    unfold max_array_index; simpl; lia.
Defined.

Lemma hub_log_strictly_ordered_witness :
  StronglySorted before
    (HubPoolUtils.events
       (snd (fst (HubPoolUtils.update hub_chain example_hub [])))) /\
  NoDup (map ordering_key
           (HubPoolUtils.events
              (snd (fst (HubPoolUtils.update hub_chain example_hub []))))) /\
  NoDup (HubPoolUtils.events
           (snd (fst (HubPoolUtils.update hub_chain example_hub [])))).
Proof.
  apply (hub_log_strictly_ordered
           (snd (fst (HubPoolUtils.update hub_chain example_hub [])))).
  apply hub_reachable_update. apply (hub_reachable_new "0xHub" 0%Z None).
Defined.
End MoreInstances.

Section SpokePoolStateRun.
Import JsObject JsObjectFacts.

Lemma start_all_symbol (tokens : list string) w (s : SpokePoolUtils.t) t :
  start_all symbol tokens w s t =
  (Ok (map (fun token => (token, erc20_symbol w token)) tokens), s,
   t ++ map call_symbol tokens).
Proof.
  revert t. induction tokens as [|a tokens IH]; intros t; simpl.
  - unfold ret. now rewrite app_nil_r.
  - unfold bind at 1. unfold symbol at 1, start at 1.
    unfold bind at 1. rewrite IH. unfold ret.
    now rewrite <- app_assoc.
Qed.

Lemma await_all_pairs {A B} (f : A -> Promise B) (l : list A) w
  (s : SpokePoolUtils.t) t :
  await_all (map (fun a => (a, f a)) l) w s t =
  (match Promise_all (map f l) with
   | Ok bs => Ok (combine l bs)
   | Throw e => Throw e
   end, s, t).
Proof.
  induction l as [|a l IH]; simpl; [reflexivity|].
  unfold bind at 1, await at 1.
  destruct (f a) as [b|e]; simpl; [|reflexivity].
  unfold bind at 1. rewrite IH.
  destruct (Promise_all (map f l)); reflexivity.
Qed.

(** [getSpokePoolState], step by step. *)
Lemma getSpokePoolState_run w pool t :
  getSpokePoolState w pool t =
  match SpokePoolUtils.update w pool t with
  | (Ok _, s1, t1) =>
      let tokens :=
        union_tokens (values (routes_table (SpokePoolUtils.events s1))) in
      match SpokePoolUtils.wrappedNativeToken s1 with
      | Some wrappedNativeToken =>
          if String.eqb wrappedNativeToken ""
          then (Throw (AssertionError
                         "Spoke pool missing wrapped native token address"),
                s1, t1)
          else
            (match Promise_all (map (erc20_symbol w) tokens) with
             | Ok symbols =>
                 Ok {| state_routes :=
                         routes_table (SpokePoolUtils.events s1);
                       state_symbols := fromEntries (combine tokens symbols);
                       state_wrappedNativeToken := wrappedNativeToken |}
             | Throw e => Throw e
             end, s1, t1 ++ map call_symbol tokens)
      | None => (Throw (AssertionError
                          "Spoke pool missing wrapped native token address"),
                 s1, t1)
      end
  | (Throw e, s1, t1) => (Throw e, s1, t1)
  end.
Proof.
  unfold getSpokePoolState. unfold bind at 1.
  destruct (SpokePoolUtils.update w pool t) as [[[u|e] s1] t1];
    [|reflexivity].
  unfold bind at 1. rewrite routesEnabled_run.
  unfold bind at 1. rewrite (getSupportedTokens_returns s1 w t1).
  unfold bind at 1. unfold get_this at 1. cbv zeta.
  destruct (SpokePoolUtils.wrappedNativeToken s1) as [wnt|]; [|reflexivity].
  unfold truthy. destruct (String.eqb wnt ""); simpl; [reflexivity|].
  unfold bind at 1. rewrite start_all_symbol.
  unfold bind at 1. rewrite await_all_pairs.
  now destruct (Promise_all _).
Qed.

Lemma Promise_all_Ok {A B} (f : A -> Promise B) (l : list A) :
  (forall a, In a l -> exists b, f a = Ok b) ->
  exists bs, Promise_all (map f l) = Ok bs.
Proof.
  induction l as [|a l IH]; simpl; intros Hall; [eauto|].
  destruct (Hall a (or_introl eq_refl)) as [b ->]. simpl.
  destruct IH as [bs ->]; [auto|]. simpl. eauto.
Qed.

Lemma Promise_all_Throw {A} (ps : list (Promise A)) e :
  In (Throw e) ps -> exists e', Promise_all ps = Throw e'.
Proof.
  induction ps as [|p ps IH]; simpl; [contradiction|].
  intros [->|Hin]; simpl; [eauto|].
  destruct p as [a|e0]; simpl; [|eauto].
  destruct (IH Hin) as [e' ->]. simpl. eauto.
Qed.

Lemma get_combine {B} (f : string -> Promise B) (l : list string)
  (bs : list B) k b :
  Forall2 (fun a b => f a = Ok b) l bs ->
  (get (combine l bs) k = Some b <-> In k l /\ f k = Ok b).
Proof.
  induction 1 as [|a b0 l bs Hab Hrest IH]; simpl.
  - split; [discriminate | now intros [[] _]].
  - destruct (String.eqb_spec a k) as [->|Hne].
    + split.
      * intros Heq. inversion Heq; subst. auto.
      * intros [_ Hk]. congruence.
    + rewrite IH. intuition congruence.
Qed.

Lemma map_fst_combine {A B} (f : A -> Promise B) (l : list A) (bs : list B) :
  Forall2 (fun a b => f a = Ok b) l bs -> map fst (combine l bs) = l.
Proof. induction 1; simpl; congruence. Qed.
End SpokePoolStateRun.

Section SpokePoolState.
Import JsObject JsObjectFacts.

(** X15. [getSpokePoolState] after a successful [update] of the spoke.  The
    update has set a wrapped native token; if it is the empty string the
    assertion fails and no symbol is asked for.  Otherwise one [symbol] call
    goes out for each supported token, in the order of
    [getSupportedTokens], and the store is not touched again.  If every call
    answers, the state holds the table of [routesEnabled], the wrapped
    native token, and a symbol for exactly the supported tokens, each the
    answer of its own contract; if some call fails, so does
    [getSpokePoolState]. *)
Theorem getSpokePoolState_outcome
  (w : Chain) (pool s1 : SpokePoolUtils.t) (t t1 : list Call) :
  SpokePoolUtils.update w pool t = (Ok tt, s1, t1) ->
  exists wrappedNativeToken tokens,
    SpokePoolUtils.wrappedNativeToken s1 = Some wrappedNativeToken /\
    returns SpokePoolUtils.getSupportedTokens s1 tokens /\
    (wrappedNativeToken = "" ->
     getSpokePoolState w pool t =
     (Throw (AssertionError "Spoke pool missing wrapped native token address"),
      s1, t1)) /\
    (wrappedNativeToken <> "" ->
     snd (fst (getSpokePoolState w pool t)) = s1 /\
     snd (getSpokePoolState w pool t) = t1 ++ map call_symbol tokens /\
     ((forall token, In token tokens ->
                     exists s, erc20_symbol w token = Ok s) ->
      exists state,
        fst (fst (getSpokePoolState w pool t)) = Ok state /\
        state_wrappedNativeToken state = wrappedNativeToken /\
        returns SpokePoolUtils.routesEnabled s1 (state_routes state) /\
        forall token s,
          get (state_symbols state) token = Some s <->
          In token tokens /\ erc20_symbol w token = Ok s) /\
     ((exists token e, In token tokens /\ erc20_symbol w token = Throw e) ->
      exists e, fst (fst (getSpokePoolState w pool t)) = Throw e)).
Proof.
  intros Hup.
  assert (Hwnt : exists a, SpokePoolUtils.wrappedNativeToken s1 = Some a).
  { rewrite spoke_update_run in Hup.
    destruct (SpokePoolUtils.fetchEvents w pool t) as [[[evs|e] s0] t0];
      [|discriminate].
    inversion Hup; subst. simpl. eauto. }
  destruct Hwnt as [wnt Hwnt].
  exists wnt, (union_tokens (values (routes_table (SpokePoolUtils.events s1)))).
  split; [exact Hwnt|]. split; [apply getSupportedTokens_returns|].
  rewrite getSpokePoolState_run, Hup, Hwnt. cbv zeta.
  split.
  - intros ->. reflexivity.
  - intros Hne. destruct (String.eqb_spec wnt ""); [contradiction|].
    split; [reflexivity|]. split; [reflexivity|]. split.
    + intros Hall.
      destruct (Promise_all_Ok (erc20_symbol w) _ Hall) as [symbols Hsym].
      simpl. rewrite Hsym. eexists. split; [reflexivity|]. simpl.
      split; [reflexivity|]. split; [apply routesEnabled_returns|].
      intros token s. apply Promise_all_map in Hsym.
      rewrite get_fromEntries.
      * now apply get_combine.
      * rewrite (map_fst_combine _ _ _ Hsym). apply NoDup_union_tokens.
    + intros (token & e & Hin & He). simpl.
      destruct (Promise_all_Throw
                  (map (erc20_symbol w)
                     (union_tokens
                        (values (routes_table (SpokePoolUtils.events s1)))))
                  e) as [e' ->]; [|eauto].
      rewrite <- He. now apply in_map.
Qed.

Lemma getSpokePoolState_outcome_witness :
  exists wrappedNativeToken tokens,
    let w := example_chain end_to_end_spoke_logs (Ok "0xWMATIC") (Ok "") in
    let pool := SpokePoolUtils.make "0xSpoke" 0 None in
    let s1 := snd (fst (SpokePoolUtils.update w pool [])) in
    let t1 := snd (SpokePoolUtils.update w pool []) in
    SpokePoolUtils.wrappedNativeToken s1 = Some wrappedNativeToken /\
    returns SpokePoolUtils.getSupportedTokens s1 tokens /\
    (wrappedNativeToken = "" ->
     getSpokePoolState w pool [] =
     (Throw (AssertionError "Spoke pool missing wrapped native token address"),
      s1, t1)) /\
    (wrappedNativeToken <> "" ->
     snd (fst (getSpokePoolState w pool [])) = s1 /\
     snd (getSpokePoolState w pool []) = t1 ++ map call_symbol tokens /\
     ((forall token, In token tokens ->
                     exists s, erc20_symbol w token = Ok s) ->
      exists state,
        fst (fst (getSpokePoolState w pool [])) = Ok state /\
        state_wrappedNativeToken state = wrappedNativeToken /\
        returns SpokePoolUtils.routesEnabled s1 (state_routes state) /\
        forall token s,
          get (state_symbols state) token = Some s <->
          In token tokens /\ erc20_symbol w token = Ok s) /\
     ((exists token e, In token tokens /\ erc20_symbol w token = Throw e) ->
      exists e, fst (fst (getSpokePoolState w pool [])) = Throw e)).
Proof.
  apply (getSpokePoolState_outcome
           (example_chain end_to_end_spoke_logs (Ok "0xWMATIC") (Ok ""))
           (SpokePoolUtils.make "0xSpoke" 0 None) _ [] _).
  reflexivity.
Defined.
End SpokePoolState.

Section FetchRoutesRun.
Import JsObject JsObjectFacts.

(** [fetchRoutes], step by step: the hub is updated, its two tables and its
    weth address are read, every registered spoke is fetched, and the
    states are joined. *)
Lemma fetchRoutes_run env hubPoolChain override :
  fetchRoutes env hubPoolChain override =
  let hubPoolAddress := hubPoolAddress_of env hubPoolChain override in
  match HubPoolUtils.update (connect env hubPoolChain hubPoolAddress)
          (hubPool_at env hubPoolChain hubPoolAddress) [] with
  | (Ok _, hub, _) =>
      match addresses_of (HubPoolUtils.events hub) with
      | Ok spokePoolAddresses =>
          match HubPoolUtils.wethAddress hub with
          | Some hubPoolWethAddress =>
              if String.eqb hubPoolWethAddress ""
              then Throw (AssertionError "weth address not set")
              else
                match Promise_all
                        (map (fetchSpoke env) (entries spokePoolAddresses))
                with
                | Ok spokeData =>
                    Ok {| hubPoolAddress := hubPoolAddress;
                          hubPoolChain := hubPoolChain;
                          hubPoolWethAddress := hubPoolWethAddress;
                          routes :=
                            joinRoutes (getChainInfo env)
                              (spokeTokens_of (HubPoolUtils.events hub))
                              spokeData |}
                | Throw e => Throw e
                end
          | None => Throw (AssertionError "weth address not set")
          end
      | Throw e => Throw e
      end
  | (Throw e, _, _) => Throw e
  end.
Proof.
  unfold fetchRoutes. fold (hubPoolAddress_of env hubPoolChain override).
  cbv zeta.
  fold (hubPool_at env hubPoolChain
          (hubPoolAddress_of env hubPoolChain override)).
  unfold run. unfold bind at 1.
  destruct (HubPoolUtils.update _ _ []) as [[[u|e] hub] t1]; [|reflexivity].
  unfold bind at 1. rewrite getSpokePoolAddresses_run.
  fold (addresses_of (HubPoolUtils.events hub)).
  destruct (addresses_of (HubPoolUtils.events hub)) as [addresses|e];
    [|reflexivity].
  unfold bind at 1. unfold HubPoolUtils.getSpokeTokenTable at 1.
  unfold bind at 1, get_this at 1, ret at 1.
  fold (spokeTokens_of (HubPoolUtils.events hub)).
  unfold bind at 1. unfold HubPoolUtils.getWethAddress.
  unfold bind at 1, get_this at 1. unfold truthy.
  destruct (HubPoolUtils.wethAddress hub) as [weth|]; [|reflexivity].
  destruct (String.eqb weth ""); simpl; [reflexivity|].
  now destruct (Promise_all _).
Qed.

(** [fetchSpoke], step by step. *)
Lemma fetchSpoke_run env fromChain fromSpokeAddress :
  fetchSpoke env (fromChain, fromSpokeAddress) =
  if isSupportedChainId env (Number_ fromChain)
  then
    match getSpokePoolState
            (connect env (Number_ fromChain) fromSpokeAddress)
            (spokePool_at env fromChain fromSpokeAddress) [] with
    | (Ok state, _, _) =>
        Ok {| sd_fromSpokeAddress := fromSpokeAddress;
              sd_fromChain := fromChain;
              sd_state := state |}
    | (Throw e, _, _) => Throw e
    end
  else Throw (AssertionError
                ("Missing supported chain id: " ++ numeral_string fromChain)).
Proof.
  unfold fetchSpoke, spokePool_at, run.
  destruct (isSupportedChainId env (Number_ fromChain)); simpl; [|reflexivity].
  now destruct (getSpokePoolState _ _ []) as [[[state|e] s] t].
Qed.

(** What a fetched spoke carries. *)
Lemma fetchSpoke_Ok env fromChain fromSpokeAddress d :
  fetchSpoke env (fromChain, fromSpokeAddress) = Ok d ->
  isSupportedChainId env (Number_ fromChain) = true /\
  sd_fromChain d = fromChain /\
  sd_fromSpokeAddress d = fromSpokeAddress /\
  exists spoke t,
    SpokePoolUtils.update (connect env (Number_ fromChain) fromSpokeAddress)
      (spokePool_at env fromChain fromSpokeAddress) [] = (Ok tt, spoke, t) /\
    sd_routes d = routes_table (SpokePoolUtils.events spoke) /\
    SpokePoolUtils.wrappedNativeToken spoke = Some (sd_wrappedNativeToken d) /\
    sd_wrappedNativeToken d <> "".
Proof.
  rewrite fetchSpoke_run.
  destruct (isSupportedChainId env (Number_ fromChain)); [|discriminate].
  rewrite getSpokePoolState_run.
  destruct (SpokePoolUtils.update _ _ []) as [[[[] |e] spoke] t];
    [|discriminate].
  cbv zeta.
  destruct (SpokePoolUtils.wrappedNativeToken spoke) as [wnt|] eqn:Hwnt;
    [|discriminate].
  destruct (String.eqb_spec wnt ""); [discriminate|].
  destruct (Promise_all _) as [symbols|e]; [|discriminate].
  intros Hd. inversion Hd; subst. unfold sd_routes, sd_wrappedNativeToken.
  simpl. repeat split; auto. exists spoke, t. repeat split; auto.
Qed.

(** What a successful [fetchRoutes] went through. *)
Lemma fetchRoutes_Ok env hubPoolChain override config :
  fetchRoutes env hubPoolChain override = Ok config ->
  exists hub t1 spokePoolAddresses spokeData,
    HubPoolUtils.update
      (connect env hubPoolChain (hubPoolAddress_of env hubPoolChain override))
      (hubPool_at env hubPoolChain
         (hubPoolAddress_of env hubPoolChain override)) [] =
    (Ok tt, hub, t1) /\
    addresses_of (HubPoolUtils.events hub) = Ok spokePoolAddresses /\
    HubPoolUtils.wethAddress hub = Some (hubPoolWethAddress config) /\
    hubPoolWethAddress config <> "" /\
    Forall2 (fun entry d => fetchSpoke env entry = Ok d)
      (entries spokePoolAddresses) spokeData /\
    config =
    {| hubPoolAddress := hubPoolAddress_of env hubPoolChain override;
       hubPoolChain := hubPoolChain;
       hubPoolWethAddress := hubPoolWethAddress config;
       routes := joinRoutes (getChainInfo env)
                   (spokeTokens_of (HubPoolUtils.events hub)) spokeData |}.
Proof.
  rewrite fetchRoutes_run. cbv zeta.
  destruct (HubPoolUtils.update _ _ []) as [[[[]|e] hub] t1]; [|discriminate].
  destruct (addresses_of _) as [addresses|e] eqn:Haddr; [|discriminate].
  destruct (HubPoolUtils.wethAddress hub) as [weth|] eqn:Hweth;
    [|discriminate].
  destruct (String.eqb_spec weth ""); [discriminate|].
  destruct (Promise_all _) as [spokeData|e] eqn:Hall; [|discriminate].
  intros Hc. inversion Hc; subst. simpl.
  exists hub, t1, addresses, spokeData.
  repeat split; auto. now apply Promise_all_map.
Qed.

Lemma Forall2_In_r {A B} (R : A -> B -> Prop) (l : list A) (l' : list B) b :
  Forall2 R l l' -> In b l' -> exists a, In a l /\ R a b.
Proof.
  induction 1 as [|a0 b0 l l' Hab _ IH]; [contradiction|].
  intros [<-|Hin].
  - exists a0. split; [now left | exact Hab].
  - destruct (IH Hin) as (a & Ha & HR). exists a. split; [now right | exact HR].
Qed.

Lemma Forall2_In_l {A B} (R : A -> B -> Prop) (l : list A) (l' : list B) a :
  Forall2 R l l' -> In a l -> exists b, In b l' /\ R a b.
Proof.
  induction 1 as [|a0 b0 l l' Hab _ IH]; [contradiction|].
  intros [<-|Hin].
  - exists b0. split; [now left | exact Hab].
  - destruct (IH Hin) as (b & Hb & HR). exists b. split; [now right | exact HR].
Qed.

(** After a successful update the weth address is what the contract
    answered. *)
Lemma hub_update_weth w this t hub t1 :
  HubPoolUtils.update w this t = (Ok tt, hub, t1) ->
  exists a, contract_weth w = Ok a /\ HubPoolUtils.wethAddress hub = Some a.
Proof.
  rewrite hub_update_run.
  destruct (HubPoolUtils.fetchEvents w this t) as [[[evs|e] s0] t0];
    [|discriminate].
  destruct (contract_weth w) as [a|e]; [|discriminate].
  intros Heq. inversion Heq; subst. exists a. split; reflexivity.
Qed.
End FetchRoutesRun.

Section FetchRoutesOutcome.
Import JsObject JsObjectFacts.

Lemma addresses_of_returns hub addresses :
  addresses_of (HubPoolUtils.events hub) = Ok addresses ->
  returns HubPoolUtils.getSpokePoolAddresses hub addresses.
Proof.
  intros Haddr w t. rewrite getSpokePoolAddresses_run.
  fold (addresses_of (HubPoolUtils.events hub)). now rewrite Haddr.
Qed.

Lemma returns_addresses_of (w : Chain) hub addresses :
  returns HubPoolUtils.getSpokePoolAddresses hub addresses ->
  addresses_of (HubPoolUtils.events hub) = Ok addresses.
Proof.
  intros Hret. specialize (Hret w []).
  rewrite getSpokePoolAddresses_run in Hret.
  fold (addresses_of (HubPoolUtils.events hub)) in Hret. congruence.
Qed.

Lemma emitted_fromSpokeAddress getChainInfo spokeTokenTable d destination
  token r :
  In r (emitted getChainInfo spokeTokenTable (d, destination, token)) ->
  fromSpokeAddress r = sd_fromSpokeAddress d.
Proof.
  rewrite emitted_cases.
  destruct (String.eqb token (sd_wrappedNativeToken d)); simpl;
    intros [<-|[<-|[]]] || intros [<-|[]]; reflexivity.
Qed.

(** X16. The fields of the configuration [fetchRoutes] returns: the hub
    chain it was called with; the hub address, which is the override when
    one is given and is not the empty string, and the deployed address of
    the registry otherwise; and the weth address, which is what the hub
    contract at that address answered and is never the empty string. *)
Theorem fetchRoutes_config
  (env : Env) (chain : N) (override : option string) (config : RouteConfig) :
  fetchRoutes env chain override = Ok config ->
  hubPoolChain config = chain /\
  (forall a, override = Some a -> a <> "" -> hubPoolAddress config = a) /\
  (override = None \/ override = Some "" ->
   hubPoolAddress config = getDeployedAddress env "HubPool" chain) /\
  hubPoolWethAddress config <> "" /\
  contract_weth (connect env chain (hubPoolAddress config)) =
  Ok (hubPoolWethAddress config).
Proof.
  intros Hok.
  destruct (fetchRoutes_Ok env chain override config Hok)
    as (hub & t1 & addresses & spokeData & Hup & _ & Hweth & Hne & _ & Hc).
  assert (Haddr : hubPoolAddress config = hubPoolAddress_of env chain override)
    by now rewrite Hc.
  split; [now rewrite Hc|]. split; [|split; [|split]].
  - intros a -> Ha. rewrite Haddr. unfold hubPoolAddress_of, truthy.
    now destruct (String.eqb_spec a "").
  - intros [->| ->]; now rewrite Haddr.
  - exact Hne.
  - rewrite Haddr.
    destruct (hub_update_weth _ _ _ _ _ Hup) as (a & Ha & Hset). congruence.
Qed.

(** X17. Every route [fetchRoutes] returns is backed by the chains.  Its
    origin chain passes [isSupportedChainId], is a safe integer, and is
    registered in the spoke-address table of the updated hub under the
    spoke address the route carries; its L1 token is what the spoke-token
    table of the hub gives for its token; and its token is listed by
    [routesEnabled] of the updated spoke at that address, for a destination
    whose number is the destination chain of the route. *)
Theorem fetchRoutes_routes_sound
  (env : Env) (chain : N) (override : option string) (config : RouteConfig) :
  fetchRoutes env chain override = Ok config ->
  exists hub t1 spokePoolAddresses spokeTokenTable,
    HubPoolUtils.update (connect env chain (hubPoolAddress config))
      (hubPool_at env chain (hubPoolAddress config)) [] = (Ok tt, hub, t1) /\
    returns HubPoolUtils.getSpokePoolAddresses hub spokePoolAddresses /\
    returns HubPoolUtils.getSpokeTokenTable hub spokeTokenTable /\
    forall r,
      In r (routes config) ->
      isSupportedChainId env (fromChain r) = true /\
      (fromChain r <= MAX_SAFE_INTEGER)%N /\
      get spokePoolAddresses (number_key (fromChain r)) =
        Some (fromSpokeAddress r) /\
      l1TokenAddress r = get spokeTokenTable (fromTokenAddress r) /\
      exists spoke t table destination,
        SpokePoolUtils.update
          (connect env (fromChain r) (fromSpokeAddress r))
          (spokePool_at env (number_key (fromChain r)) (fromSpokeAddress r))
          [] = (Ok tt, spoke, t) /\
        returns SpokePoolUtils.routesEnabled spoke table /\
        toChain r = Number_ destination /\
        In (fromTokenAddress r) (tokens_at table destination).
Proof.
  intros Hok.
  destruct (fetchRoutes_Ok env chain override config Hok)
    as (hub & t1 & addresses & spokeData & Hup & Haddr & _ & _ & Hall & Hc).
  assert (Ha : hubPoolAddress config = hubPoolAddress_of env chain override)
    by now rewrite Hc.
  exists hub, t1, addresses, (spokeTokens_of (HubPoolUtils.events hub)).
  rewrite Ha. split; [exact Hup|].
  split; [now apply addresses_of_returns|].
  split; [apply getSpokeTokenTable_returns|].
  destruct (spokePoolAddresses_keys _ _ Haddr) as [Hnd Hsafe].
  intros r Hr. rewrite Hc in Hr. simpl in Hr.
  rewrite joinRoutes_flat_map in Hr.
  apply in_flat_map in Hr as [[[d destination] token] [Htriple Hr]].
  pose proof (emitted_fromSpokeAddress _ _ _ _ _ _ Hr) as Hspoke.
  apply emitted_fields in Hr as (Hfrom & Hto & Htok & Hl1).
  apply In_enabled_triples in Htriple as [Hd [tokens [Hentry Htoken]]].
  destruct (Forall2_In_r _ _ _ _ Hall Hd) as ([k addr] & Hk & Hfetch).
  destruct (fetchSpoke_Ok _ _ _ _ Hfetch)
    as (Hsup & Hchain & Haddress & spoke & t & Hupd & Hroutes & _).
  apply (proj1 (In_entries _ _)) in Hk.
  assert (Hksafe : (k <= MAX_SAFE_INTEGER)%N).
  { apply Hsafe. change k with (fst (k, addr)). now apply in_map. }
  assert (HrN : fromChain r = k).
  { rewrite Hfrom, Hchain. now apply Number_safe. }
  rewrite HrN, Hspoke, Haddress, Htok, Hl1.
  rewrite (Number_safe k Hksafe) in Hsup, Hupd.
  split; [exact Hsup|]. split; [exact Hksafe|].
  split; [now apply In_get|]. split; [reflexivity|].
  exists spoke, t, (routes_table (SpokePoolUtils.events spoke)), destination.
  split; [exact Hupd|]. split; [apply routesEnabled_returns|].
  split; [exact Hto|].
  rewrite Hroutes in Hentry. apply (proj1 (In_entries _ _)) in Hentry.
  apply In_get in Hentry; [|apply routes_table_NoDup].
  unfold tokens_at. now rewrite Hentry.
Qed.

(** X18. [fetchRoutes] leaves no enabled route out.  For every spoke
    registered in the spoke-address table of the updated hub, and every
    token that [routesEnabled] of the updated spoke lists for a
    destination, the routes hold the record of that origin, destination
    and token with [isNative = false]; and when the token is the wrapped
    native token of the spoke they hold its twin too, with
    [isNative = true] and the native currency symbol of the chain. *)
Theorem fetchRoutes_routes_complete
  (env : Env) (chain : N) (override : option string) (config : RouteConfig) :
  fetchRoutes env chain override = Ok config ->
  exists hub t1 spokePoolAddresses,
    HubPoolUtils.update (connect env chain (hubPoolAddress config))
      (hubPool_at env chain (hubPoolAddress config)) [] = (Ok tt, hub, t1) /\
    returns HubPoolUtils.getSpokePoolAddresses hub spokePoolAddresses /\
    forall origin spokeAddress,
      get spokePoolAddresses origin = Some spokeAddress ->
      exists spoke t table,
        SpokePoolUtils.update (connect env (Number_ origin) spokeAddress)
          (spokePool_at env origin spokeAddress) [] = (Ok tt, spoke, t) /\
        returns SpokePoolUtils.routesEnabled spoke table /\
        forall destination token,
          In token (tokens_at table destination) ->
          (exists r,
              In r (routes config) /\
              fromChain r = Number_ origin /\
              toChain r = Number_ destination /\
              fromTokenAddress r = token /\
              fromSpokeAddress r = spokeAddress /\
              isNative r = false) /\
          (SpokePoolUtils.wrappedNativeToken spoke = Some token ->
           exists r,
             In r (routes config) /\
             fromChain r = Number_ origin /\
             toChain r = Number_ destination /\
             fromTokenAddress r = token /\
             fromSpokeAddress r = spokeAddress /\
             isNative r = true /\
             fromTokenSymbol r =
               Some (nativeCurrencySymbol (getChainInfo env origin))).
Proof.
  intros Hok.
  destruct (fetchRoutes_Ok env chain override config Hok)
    as (hub & t1 & addresses & spokeData & Hup & Haddr & _ & _ & Hall & Hc).
  assert (Ha : hubPoolAddress config = hubPoolAddress_of env chain override)
    by now rewrite Hc.
  exists hub, t1, addresses.
  rewrite Ha. split; [exact Hup|].
  split; [now apply addresses_of_returns|].
  intros origin spokeAddress Hget.
  apply get_Some_In in Hget. apply In_entries in Hget.
  destruct (Forall2_In_l _ _ _ _ Hall Hget) as (d & Hd & Hfetch).
  destruct (fetchSpoke_Ok _ _ _ _ Hfetch)
    as (_ & Hchain & Haddress & spoke & t & Hupd & Hroutes & Hwnt & _).
  exists spoke, t, (routes_table (SpokePoolUtils.events spoke)).
  split; [exact Hupd|]. split; [apply routesEnabled_returns|].
  intros destination token Htoken.
  assert (Htriple : In (d, destination, token) (enabled_triples spokeData)).
  { apply In_enabled_triples. split; [exact Hd|].
    unfold tokens_at in Htoken.
    destruct (get (routes_table (SpokePoolUtils.events spoke)) destination)
      as [tokens|] eqn:Hg; [|contradiction].
    exists tokens. split; [|exact Htoken].
    rewrite Hroutes. apply In_entries. now apply get_Some_In. }
  pose proof (emitted_cases (getChainInfo env)
                (spokeTokens_of (HubPoolUtils.events hub))
                d destination token) as Hemit.
  split.
  - exists (route_of (spokeTokens_of (HubPoolUtils.events hub))
              d destination token).
    split.
    + rewrite Hc. simpl. rewrite joinRoutes_flat_map.
      apply in_flat_map. exists (d, destination, token).
      split; [exact Htriple|]. rewrite Hemit.
      destruct (String.eqb token (sd_wrappedNativeToken d)); now left.
    + simpl. rewrite Hchain, Haddress. repeat split.
  - intros Hnative. rewrite Hwnt in Hnative. inversion Hnative as [Heq].
    subst token. rewrite String.eqb_refl in Hemit.
    exists (native_twin
              (route_of (spokeTokens_of (HubPoolUtils.events hub))
                 d destination (sd_wrappedNativeToken d))
              (nativeCurrencySymbol (getChainInfo env (sd_fromChain d)))).
    split.
    + rewrite Hc. simpl. rewrite joinRoutes_flat_map.
      apply in_flat_map. exists (d, destination, sd_wrappedNativeToken d).
      split; [exact Htriple|]. rewrite Hemit. right. now left.
    + simpl. rewrite Hchain, Haddress. repeat split.
Qed.

(** X19. How the hub can fail [fetchRoutes].  If the update of the hub
    store fails, that error is the outcome.  If the update succeeds and the
    log holds a spoke registration whose chain id is beyond the safe
    integers, the outcome is the numeric fault that [toNumber] raises,
    [overflow], whose value is the decimal numeral of the first such chain
    id of the log.  If the chain ids are all safe and the hub contract
    answered an empty weth address, the outcome is the assertion error of
    [getWethAddress]. *)
Theorem fetchRoutes_hub_failure
  (env : Env) (chain : N) (override : option string) :
  let provider := connect env chain (hubPoolAddress_of env chain override) in
  let hubPool := hubPool_at env chain (hubPoolAddress_of env chain override) in
  (forall e hub t1,
      HubPoolUtils.update provider hubPool [] = (Throw e, hub, t1) ->
      fetchRoutes env chain override = Throw e) /\
  (forall hub t1,
      HubPoolUtils.update provider hubPool [] = (Ok tt, hub, t1) ->
      (exists e id spoke,
          In e (HubPoolUtils.events hub) /\
          args e = CrossChainContractsSet id spoke /\
          (MAX_SAFE_INTEGER < id)%N) ->
      exists pre e0 post id0 spoke0,
        HubPoolUtils.events hub = pre ++ e0 :: post /\
        (forall e id spoke,
            In e pre -> args e = CrossChainContractsSet id spoke ->
            (id <= MAX_SAFE_INTEGER)%N) /\
        args e0 = CrossChainContractsSet id0 spoke0 /\
        (MAX_SAFE_INTEGER < id0)%N /\
        fetchRoutes env chain override =
        Throw (NumericFault "overflow" "toNumber"
                 (NilZero.string_of_uint (N.to_uint id0)))) /\
  (forall hub t1,
      HubPoolUtils.update provider hubPool [] = (Ok tt, hub, t1) ->
      (forall e id spoke,
          In e (HubPoolUtils.events hub) ->
          args e = CrossChainContractsSet id spoke ->
          (id <= MAX_SAFE_INTEGER)%N) ->
      contract_weth provider = Ok "" ->
      fetchRoutes env chain override =
      Throw (AssertionError "weth address not set")).
Proof.
  cbv zeta. split; [|split].
  - intros e hub t1 Hup. rewrite fetchRoutes_run. cbv zeta. now rewrite Hup.
  - intros hub t1 Hup Hunsafe.
    destruct (addresses_of_unsafe _ Hunsafe)
      as (pre & e0 & post & id0 & spoke0 & Hev & Hpre & Ha & Hbig & Hthrow).
    exists pre, e0, post, id0, spoke0. repeat split; auto.
    rewrite fetchRoutes_run. cbv zeta. now rewrite Hup, Hthrow.
  - intros hub t1 Hup Hsafe Hweth.
    rewrite fetchRoutes_run. cbv zeta. rewrite Hup.
    destruct (addresses_of_cases (HubPoolUtils.events hub))
      as [(pre & e0 & post & id0 & spoke0 & Hev & _ & Ha & Hbig & _)
         |[Hok _]].
    + assert (Hin : In e0 (HubPoolUtils.events hub)).
      { rewrite Hev. apply in_or_app. right. now left. }
      specialize (Hsafe e0 id0 spoke0 Hin Ha). lia.
    + rewrite Hok.
      destruct (hub_update_weth _ _ _ _ _ Hup) as (a & Ha & ->).
      rewrite Hweth in Ha. inversion Ha; subst. reflexivity.
Qed.

(** X20. [fetchRoutes] is all or nothing about the spokes.  With the hub
    updated, if one spoke of its spoke-address table has a chain id that
    [isSupportedChainId] refuses, or an update that fails, or a contract
    that answers an empty wrapped native token, then [fetchRoutes] fails
    and returns no route, whatever the other spokes hold. *)
Theorem fetchRoutes_all_or_nothing
  (env : Env) (chain : N) (override : option string)
  (hub : HubPoolUtils.t) (t1 : list Call)
  (spokePoolAddresses : JsObject.t numeral string)
  (origin : numeral) (spokeAddress : string) :
  HubPoolUtils.update
    (connect env chain (hubPoolAddress_of env chain override))
    (hubPool_at env chain (hubPoolAddress_of env chain override)) [] =
  (Ok tt, hub, t1) ->
  returns HubPoolUtils.getSpokePoolAddresses hub spokePoolAddresses ->
  get spokePoolAddresses origin = Some spokeAddress ->
  isSupportedChainId env (Number_ origin) = false \/
  (exists e spoke t,
      SpokePoolUtils.update (connect env (Number_ origin) spokeAddress)
        (spokePool_at env origin spokeAddress) [] = (Throw e, spoke, t)) \/
  contract_wrappedNativeToken (connect env (Number_ origin) spokeAddress) =
  Ok "" ->
  exists e, fetchRoutes env chain override = Throw e.
Proof.
  intros Hup Hret Hget Hbad.
  apply (returns_addresses_of
           (connect env chain (hubPoolAddress_of env chain override)))
    in Hret.
  rewrite fetchRoutes_run. cbv zeta. rewrite Hup, Hret.
  destruct (HubPoolUtils.wethAddress hub) as [weth|]; [|eauto].
  destruct (String.eqb weth ""); [eauto|].
  assert (Hspoke : exists e, fetchSpoke env (origin, spokeAddress) = Throw e).
  { rewrite fetchSpoke_run.
    destruct (isSupportedChainId env (Number_ origin)); [|eauto].
    rewrite getSpokePoolState_run.
    destruct Hbad as [Hno|[(e & spoke & t & Hfail)|Hempty]];
      [discriminate | rewrite Hfail; eauto |].
    rewrite spoke_update_run.
    destruct (SpokePoolUtils.fetchEvents _ _ []) as [[[evs|e] s0] t0];
      [|eauto].
    rewrite Hempty. simpl. eauto. }
  destruct Hspoke as [e He].
  destruct (Promise_all_Throw
              (map (fetchSpoke env) (entries spokePoolAddresses)) e)
    as [e' ->]; [|eauto].
  rewrite <- He. apply in_map. apply In_entries. now apply get_Some_In.
Qed.
End FetchRoutesOutcome.

Section FetchRoutesInstances.
Import JsObject.

Lemma fetchRoutes_config_witness :
  exists config,
    fetchRoutes end_to_end_env 1 None = Ok config /\
    hubPoolChain config = 1%N /\
    hubPoolAddress config = "0xHub" /\
    hubPoolWethAddress config <> "" /\
    contract_weth (connect end_to_end_env 1 (hubPoolAddress config)) =
    Ok (hubPoolWethAddress config).
Proof.
  eexists. split; [vm_compute; reflexivity|].
  destruct (fetchRoutes_config end_to_end_env 1 None _ eq_refl)
    as (Hchain & _ & Hdeployed & Hne & Hweth).
  split; [exact Hchain|].
  split; [exact (Hdeployed (or_introl eq_refl))|].
  split; [exact Hne | exact Hweth].
Defined.

Lemma fetchRoutes_routes_sound_witness :
  exists config,
    fetchRoutes end_to_end_env 1 None = Ok config /\
    forall r, In r (routes config) ->
              isSupportedChainId end_to_end_env (fromChain r) = true /\
              (fromChain r <= MAX_SAFE_INTEGER)%N.
Proof.
  eexists. split; [vm_compute; reflexivity|].
  destruct (fetchRoutes_routes_sound end_to_end_env 1 None _ eq_refl)
    as (hub & t1 & addresses & table & _ & _ & _ & Hall).
  intros r Hr. destruct (Hall r Hr) as (Hsup & Hsafe & _).
  split; [exact Hsup | exact Hsafe].
Defined.

Lemma fetchRoutes_routes_complete_witness :
  exists config,
    fetchRoutes end_to_end_env 1 None = Ok config /\
    exists r,
      In r (routes config) /\
      fromChain r = 137%N /\ toChain r = 1%N /\
      fromTokenAddress r = "0xToken" /\ fromSpokeAddress r = "0xSpoke" /\
      isNative r = false.
Proof.
  eexists. split; [vm_compute; reflexivity|].
  destruct (fetchRoutes_routes_complete end_to_end_env 1 None _ eq_refl)
    as (hub & t1 & addresses & Hup & Hret & Hall).
  assert (Haddr : addresses = [(137%N, "0xSpoke")]).
  { apply (returns_inj HubPoolUtils.getSpokePoolAddresses hub); [exact Hret|].
    inversion Hup; subst hub. intros w t. reflexivity. }
  destruct (Hall 137%N "0xSpoke") as (spoke & t & table & Hupd & Htable & Hin).
  { now rewrite Haddr. }
  assert (Hroutes : table = [(1%N, ["0xToken"])]).
  { apply (returns_inj SpokePoolUtils.routesEnabled spoke); [exact Htable|].
    inversion Hupd; subst spoke. intros w t'. reflexivity. }
  destruct (Hin 1%N "0xToken") as [(r & Hr) _].
  { rewrite Hroutes. now left. }
  exists r. exact Hr.
Defined.

Lemma fetchRoutes_hub_failure_witness :
  fetchRoutes
    (example_env
       (example_chain end_to_end_hub_logs (Ok "") (Throw (Rejected "timeout")))
       end_to_end_spoke (fun _ => true)) 1 None =
  Throw (Rejected "timeout") /\
  fetchRoutes
    (example_env (example_chain overflow_hub_logs (Ok "") (Ok "0xWETH"))
       end_to_end_spoke (fun _ => true)) 1 None =
  Throw (NumericFault "overflow" "toNumber" "9007199254740992") /\
  fetchRoutes
    (example_env (example_chain end_to_end_hub_logs (Ok "") (Ok ""))
       end_to_end_spoke (fun _ => true)) 1 None =
  Throw (AssertionError "weth address not set").
Proof.
  split; [|split].
  - eapply (proj1 (fetchRoutes_hub_failure _ 1 None)). reflexivity.
  - destruct (proj1 (proj2 (fetchRoutes_hub_failure
                              (example_env
                                 (example_chain overflow_hub_logs (Ok "")
                                    (Ok "0xWETH"))
                                 end_to_end_spoke (fun _ => true)) 1 None))
                _ _ eq_refl)
      as (pre & e0 & post & id0 & spoke0 & _ & _ & _ & _ & Hthrow).
    { exists set_spoke_big, (2 ^ 53)%N, "0xSpoke".
      split; [now left|]. split; [reflexivity|].
      unfold MAX_SAFE_INTEGER. simpl. lia. }
    assert (Hrun : fetchRoutes
                     (example_env
                        (example_chain overflow_hub_logs (Ok "") (Ok "0xWETH"))
                        end_to_end_spoke (fun _ => true)) 1 None =
                   Throw (NumericFault "overflow" "toNumber"
                            "9007199254740992"))
      by (vm_compute; reflexivity).
    pose proof Hthrow as Hvalue.
    rewrite Hrun in Hvalue. inversion Hvalue as [Hid].
    rewrite Hthrow, <- Hid. reflexivity.
  - eapply (proj2 (proj2 (fetchRoutes_hub_failure _ 1 None))).
    + reflexivity.
    + intros e id spoke Hin Ha. simpl in Hin.
      destruct Hin as [<-|[<-|[<-|[]]]]; inversion Ha.
      unfold MAX_SAFE_INTEGER. simpl. lia.
    + reflexivity.
Defined.

Lemma fetchRoutes_all_or_nothing_witness :
  exists e,
    fetchRoutes
      (example_env end_to_end_hub end_to_end_spoke (fun id => (id =? 1)%N))
      1 None = Throw e.
Proof.
  eapply (fetchRoutes_all_or_nothing _ 1 None _ _
            [(137%N, "0xSpoke")] 137%N "0xSpoke").
  - reflexivity.
  - intros w t. reflexivity.
  - reflexivity.
  - left. reflexivity.
Defined.

Lemma fetchRoutes_joins_distinct_witness :
  exists spokeTokenTable spokeData,
    joinRoutes example_info spokeTokenTable spokeData =
    [ {| fromChain := 137;
         toChain := 1;
         fromTokenAddress := "0xToken";
         fromSpokeAddress := "0xSpoke";
         fromTokenSymbol := Some "WETH";
         isNative := false;
         l1TokenAddress := Some "0xL1" |} ] /\
    distinct_spokeData spokeData.
Proof.
  destruct (fetchRoutes_joins_distinct end_to_end_env 1 None _ eq_refl)
    as (table & spokeData & Hroutes & Hdistinct).
  exists table, spokeData. split; [|exact Hdistinct].
  symmetry. exact Hroutes.
Defined.
End FetchRoutesInstances.

Section FetchInstances.

Lemma hub_fetchEvents_failure_witness :
  HubPoolUtils.fetchEvents offline_chain example_hub [] =
  (Throw (Rejected "offline"), example_hub, [call_getBlockNumber]) /\
  HubPoolUtils.fetchEvents failing_fetch_chain example_hub [] =
  (Throw (Rejected "rate limited"), example_hub,
   call_getBlockNumber :: hub_queries example_hub 100) /\
  snd (fst (HubPoolUtils.fetchEvents
              (example_chain hub_logs_clash (Ok "") (Ok "0xWETH"))
              (example_hub_log [enable_X]) [])) =
  example_hub_log [enable_X].
Proof.
  split; [|split].
  - apply (proj1 hub_fetchEvents_failure offline_chain example_hub []
             (Rejected "offline")).
    reflexivity.
  - apply (proj1 (proj2 hub_fetchEvents_failure) failing_fetch_chain
             example_hub [] 100%Z (Rejected "rate limited")); reflexivity.
  - exact (proj2 (proj2 hub_fetchEvents_failure)
             (example_chain hub_logs_clash (Ok "") (Ok "0xWETH"))
             (example_hub_log [enable_X]) [] _ _ _ eq_refl).
Defined.

Lemma spoke_fetchEvents_outcomes_witness :
  SpokePoolUtils.fetchEvents offline_chain (example_spoke [enable_B]) [] =
  (Throw (Rejected "offline"), example_spoke [enable_B],
   [call_getBlockNumber]) /\
  SpokePoolUtils.fetchEvents no_network_chain (example_spoke [enable_B]) [] =
  (Throw (Rejected "no network"), example_spoke [enable_B],
   [call_getBlockNumber; call_getNetwork]) /\
  SpokePoolUtils.fetchEvents (example_chain spoke_logs (Ok "0xW") (Ok ""))
    (example_spoke [enable_B]) [] =
  (Ok [enable_A; disable_A], example_spoke [enable_A; disable_A],
   [call_getBlockNumber; call_getNetwork;
    call_incrementalEvents filters_EnabledDepositRoute 0 100 None]).
Proof.
  split; [|split].
  - apply (proj1 spoke_fetchEvents_outcomes offline_chain
             (example_spoke [enable_B]) [] (Rejected "offline")).
    reflexivity.
  - apply (proj1 (proj2 spoke_fetchEvents_outcomes) no_network_chain
             (example_spoke [enable_B]) [] 100%Z (Rejected "no network"));
      reflexivity.
  - apply (proj2 (proj2 spoke_fetchEvents_outcomes)
             (example_chain spoke_logs (Ok "0xW") (Ok ""))
             (example_spoke [enable_B]) [] 100%Z 10%N eq_refl eq_refl
             (Ok [enable_A; disable_A]) eq_refl).
Defined.

Lemma fetchEvents_ignores_stored_log_witness :
  snd (fst (HubPoolUtils.fetchEvents hub_chain
              (HubPoolUtils.set_events [clash_X] example_hub) [])) =
  snd (fst (HubPoolUtils.fetchEvents hub_chain example_hub [])) /\
  snd (fst (SpokePoolUtils.fetchEvents
              (example_chain spoke_logs (Ok "0xW") (Ok ""))
              (SpokePoolUtils.set_events [enable_B] (example_spoke [])) [])) =
  snd (fst (SpokePoolUtils.fetchEvents
              (example_chain spoke_logs (Ok "0xW") (Ok ""))
              (example_spoke []) [])).
Proof.
  split.
  - apply (proj2 (proj2 (proj1 fetchEvents_ignores_stored_log
                           hub_chain example_hub [] [clash_X]))
             [enable_X; set_spoke; disable_X]).
    reflexivity.
  - apply (proj2 (proj2 (proj2 fetchEvents_ignores_stored_log
                           (example_chain spoke_logs (Ok "0xW") (Ok ""))
                           (example_spoke []) [] [enable_B]))
             [enable_A; disable_A]).
    reflexivity.
Defined.
End FetchInstances.

Section RoutesOrder.
Import JsObject JsObjectFacts.

Lemma sorted_app_constant (k : N) (xs ys : list N) :
  (forall x, In x xs -> x = k) ->
  StronglySorted N.le ys ->
  Forall (fun y => (k <= y)%N) ys ->
  StronglySorted N.le (xs ++ ys).
Proof.
  intros Hxs Hys Hle. induction xs as [|x xs IH]; simpl; [exact Hys|].
  constructor.
  - apply IH. intros x' Hx'. apply Hxs. now right.
  - rewrite (Hxs x (or_introl eq_refl)). apply Forall_app. split; [|exact Hle].
    apply Forall_forall. intros x' Hx'.
    rewrite (Hxs x' (or_intror Hx')). lia.
Qed.

Lemma sorted_flat_map {A B} (key : A -> N) (f : B -> N) (g : A -> list B)
  (l : list A) :
  StronglySorted N.lt (map key l) ->
  (forall a b, In a l -> In b (g a) -> f b = key a) ->
  StronglySorted N.le (map f (flat_map g l)) /\
  forall b, In b (flat_map g l) -> exists a, In a l /\ f b = key a.
Proof.
  intros Hs Hg. split.
  - induction l as [|a l IH]; simpl; [constructor|].
    inversion Hs as [|? ? Hs' Hall]; subst.
    rewrite map_app. apply (sorted_app_constant (key a)).
    + intros x Hx. apply in_map_iff in Hx as (b & <- & Hb).
      apply Hg; [now left | exact Hb].
    + apply IH; [exact Hs'|]. intros a' b Ha' Hb. apply Hg; [now right | exact Hb].
    + apply Forall_forall. intros y Hy.
      apply in_map_iff in Hy as (b & <- & Hb).
      apply in_flat_map in Hb as (a' & Ha' & Hb).
      rewrite (Hg a' b (or_intror Ha') Hb).
      pose proof (proj1 (Forall_forall _ _) Hall (key a') (in_map key _ _ Ha')).
      lia.
  - intros b Hb. apply in_flat_map in Hb as (a & Ha & Hb).
    exists a. split; [exact Ha | now apply Hg].
Qed.

(** X21. When the chain ids that [isSupportedChainId] accepts are all array
    indices (below [2^32 - 1]), the routes [fetchRoutes] returns come
    grouped by origin chain, in ascending order of the chain id, whatever
    the order in which the hub registered its spokes. *)
Theorem fetchRoutes_routes_ordered
  (env : Env) (chain : N) (override : option string) (config : RouteConfig) :
  fetchRoutes env chain override = Ok config ->
  (forall id, isSupportedChainId env id = true -> (id < max_array_index)%N) ->
  StronglySorted N.le (map fromChain (routes config)).
Proof.
  intros Hok Hsmall.
  destruct (fetchRoutes_Ok env chain override config Hok)
    as (hub & t1 & addresses & spokeData & _ & Haddr & _ & _ & Hall & Hc).
  destruct (spokePoolAddresses_keys _ _ Haddr) as [Hnd Hsafe].
  assert (Hfrom : map sd_fromChain spokeData = keys addresses).
  { unfold keys. apply Forall2_map_eq. eapply Forall2_impl; [|exact Hall].
    intros [k addr] d Hd. now apply fetchSpoke_Ok in Hd as (_ & Hk & _). }
  assert (Hkeys : forall k, In k (map fst addresses) ->
                            (k < max_array_index)%N).
  { intros k Hk. apply in_map_iff in Hk as ([k' addr] & <- & Hin).
    pose proof (Hsafe k' (in_map fst _ _ Hin)) as Hk'. simpl in *.
    apply In_entries in Hin.
    destruct (Forall2_In_l _ _ _ _ Hall Hin) as (d & _ & Hfetch).
    apply fetchSpoke_Ok in Hfetch as (Hsup & _).
    rewrite (Number_safe k' Hk') in Hsup. now apply Hsmall. }
  rewrite Hc. simpl. rewrite joinRoutes_nested.
  apply (sorted_flat_map (fun d => Number_ (sd_fromChain d))).
  - rewrite <- (map_map sd_fromChain Number_), Hfrom.
    rewrite (map_ext_in Number_ (fun k => k)), map_id.
    + now apply keys_ascending.
    + intros k Hk. apply Number_safe, Hsafe.
      eapply Permutation_in; [|exact Hk].
      apply Permutation_map, entries_Permutation.
  - intros d r _ Hr.
    apply in_flat_map in Hr as ([destination tokens] & _ & Hr).
    apply in_flat_map in Hr as (token & _ & Hr). simpl in Hr.
    now apply emitted_fields in Hr as (Hfrom' & _).
Qed.
End RoutesOrder.

Section RoutesOrderInstance.

Lemma fetchRoutes_routes_ordered_witness :
  exists config,
    fetchRoutes
      (example_env (example_chain two_spoke_hub_logs (Ok "") (Ok "0xWETH"))
         end_to_end_spoke (fun id => (id <? 1000)%N)) 1 None = Ok config /\
    map fromChain (routes config) = [10%N; 137%N] /\
    StronglySorted N.le (map fromChain (routes config)).
Proof.
  eexists. split; [vm_compute; reflexivity|].
  split; [reflexivity|].
  apply (fetchRoutes_routes_ordered
           (example_env (example_chain two_spoke_hub_logs (Ok "") (Ok "0xWETH"))
              end_to_end_spoke (fun id => (id <? 1000)%N)) 1 None _ eq_refl).
  intros id Hid. simpl in Hid. apply N.ltb_lt in Hid.
  unfold max_array_index. simpl. lia.
Defined.
End RoutesOrderInstance.

Section OwnKind.
Import JsObject.

Lemma fold_left_filter {T} (step : T -> Event -> T) (p : Event -> bool)
  (evs : list Event) (init : T) :
  (forall r e, p e = false -> step r e = r) ->
  fold_left step (filter p evs) init = fold_left step evs init.
Proof.
  intros Hskip. revert init.
  induction evs as [|e evs IH]; simpl; intros init; [reflexivity|].
  destruct (p e) eqn:Hp; simpl.
  - apply IH.
  - now rewrite (Hskip init e Hp).
Qed.

(** X24. Each table of the hub reads the events of its own kind only:
    [getSpokePoolAddresses] the [CrossChainContractsSet] events,
    [getSpokeTokenTable] the [SetPoolRebalanceRoute] events, [getRoutes] the
    [SetEnableDepositRoute] events, and [getL1LpTokenTable] the enabling and
    disabling events of L1 tokens.  Dropping every other event from the log
    changes none of them. *)
Theorem hub_views_read_own_kind (this : HubPoolUtils.t) (w : Chain)
  (t : list Call) :
  let only (p : Event -> bool) :=
    HubPoolUtils.set_events (filter p (HubPoolUtils.events this)) this in
  fst (fst (HubPoolUtils.getSpokePoolAddresses w
              (only isCrossChainContractsSet) t)) =
  fst (fst (HubPoolUtils.getSpokePoolAddresses w this t)) /\
  fst (fst (HubPoolUtils.getSpokeTokenTable w
              (only isSetPoolRebalanceRoute) t)) =
  fst (fst (HubPoolUtils.getSpokeTokenTable w this t)) /\
  fst (fst (HubPoolUtils.getRoutes w (only isSetEnableDepositRoute) t)) =
  fst (fst (HubPoolUtils.getRoutes w this t)) /\
  fst (fst (HubPoolUtils.getL1LpTokenTable w
              (only (fun e => isL1TokenEnabledForLiquidityProvision e ||
                              isL2TokenDisabledForLiquidityProvision e)) t)) =
  fst (fst (HubPoolUtils.getL1LpTokenTable w this t)).
Proof.
  cbv zeta. split; [|split; [|split]].
  - rewrite !getSpokePoolAddresses_run. simpl. unfold addresses_of.
    apply fold_left_filter. intros r e Hp.
    unfold HubPoolUtils.getSpokePoolAddresses_step. rewrite Hp. simpl.
    now destruct r.
  - rewrite (getSpokeTokenTable_returns _ w t),
      (getSpokeTokenTable_returns this w t). simpl. f_equal.
    apply fold_left_filter. intros r e Hp.
    unfold HubPoolUtils.getSpokeTokenTable_step. now rewrite Hp.
  - rewrite (getRoutes_returns _ w t), (getRoutes_returns this w t).
    simpl. f_equal.
    apply fold_left_filter. intros r e Hp.
    unfold HubPoolUtils.getRoutes_step. now rewrite Hp.
  - rewrite (getL1LpTokenTable_returns _ w t),
      (getL1LpTokenTable_returns this w t). simpl. f_equal.
    unfold l1lp_fold.
    apply fold_left_filter. intros r e Hp.
    apply Bool.orb_false_iff in Hp as [Hen Hdis].
    unfold HubPoolUtils.getL1LpTokenTable_step. now rewrite Hen, Hdis.
Qed.
End OwnKind.
